(** * Mesh simplification transform of glTF-Transform

    A shallow embedding of [packages/functions/src/simplify.ts]: the
    [simplify] transform, [simplifyPrimitive] and [_simplifyPoints], over
    a model of the document graph (accessors shared between primitives,
    primitives owned by meshes) and of the external decimator
    (meshoptimizer's [MeshoptSimplifier]).

    Conventions.
    - JavaScript objects with identity (accessors, primitives, meshes) are
      entries of finite maps keyed by handles; a handle is never reused.
    - Code that can throw runs in a state-and-exception monad whose state
      survives a throw, as a JavaScript heap does.
    - binary32 array elements are an abstract type [F]. JavaScript
      numbers are binary64 values: a finite one is the rational it stands
      for, and every operation rounds its exact result to the nearest
      double, ties to even, with gradual underflow and overflow to an
      infinity; the sign of a zero is not kept, as nothing here divides
      by one.
    - An option of [SimplifyOptions] is a key that is left out, a key
      given with the value [undefined], or a key given with a value. *)

From Stdlib Require Import ZArith QArith Qround Qabs Qminmax Qcanon Lia Lqa.
From stdpp Require Import gmap strings list fin_maps sorting.

Local Open Scope Z_scope.

(** ** Results and exceptions *)

Inductive Exn :=
| TypeError (what : string)      (* member access on null or undefined *)
| ConfigError (msg : string)     (* [throw new Error(...)] of this file *)
| ExternalError (msg : string)   (* raised by the decimator, a helper or a sub-pipeline *)
| StaleHandle.                   (* a handle that denotes no object: outside the model *)

Inductive result (A : Type) :=
| Ok (a : A)
| Throw (e : Exn).
Arguments Ok {A} a.
Arguments Throw {A} e.

Definition isTypeError {A} (r : result A) : bool :=
  match r with Throw (TypeError _) => true | _ => false end.

(** ** Typed arrays and accessors *)

Inductive ComponentType :=
| BYTE | UNSIGNED_BYTE | SHORT | UNSIGNED_SHORT | UNSIGNED_INT | FLOAT.

Inductive ArrayKind := Int8 | Uint8 | Int16 | Uint16 | Uint32.

Inductive AccessorType := SCALAR | VEC2 | VEC3 | VEC4 | MAT2 | MAT3 | MAT4.

Inductive Mode :=
| POINTS | LINES | LINE_LOOP | LINE_STRIP | TRIANGLES | TRIANGLE_STRIP | TRIANGLE_FAN.

#[global] Instance Mode_eq_dec : EqDecision Mode.
Proof. solve_decision. Defined.
#[global] Instance ComponentType_eq_dec : EqDecision ComponentType.
Proof. solve_decision. Defined.
#[global] Instance ArrayKind_eq_dec : EqDecision ArrayKind.
Proof. solve_decision. Defined.

Inductive Flag := LockBorder.

Inductive PropertyType :=
| ACCESSOR | ANIMATION | BUFFER | CAMERA | MATERIAL | MESH | NODE
| PRIMITIVE | SCENE | SKIN | TEXTURE.

Abbreviation AccId := nat (only parsing).
Abbreviation PrimId := nat (only parsing).
Abbreviation MeshId := nat (only parsing).

Definition NAME : string := "simplify".

(** Bits kept by a conversion to an unsigned integer array. *)
Definition wrapUnsigned (bits : Z) (v : Z) : Z := v mod 2 ^ bits.

Definition bytesPerElement (k : ArrayKind) : Z :=
  match k with
  | Int8 | Uint8 => 1
  | Int16 | Uint16 => 2
  | Uint32 => 4
  end.

Definition kindComponentType (k : ArrayKind) : ComponentType :=
  match k with
  | Int8 => BYTE
  | Uint8 => UNSIGNED_BYTE
  | Int16 => SHORT
  | Uint16 => UNSIGNED_SHORT
  | Uint32 => UNSIGNED_INT
  end.

(** Modelled from the spec: the accessor's element size is fixed by its
    type (the document model is not part of this file). *)
Definition elementSize (t : AccessorType) : nat :=
  match t with
  | SCALAR => 1
  | VEC2 => 2
  | VEC3 => 3
  | VEC4 => 4
  | MAT2 => 4
  | MAT3 => 9
  | MAT4 => 16
  end%nat.

(** *** Element-wise helpers on array contents *)

(** [dst[at + j] = xs[j]] for every [j]; a write outside a typed array is
    ignored by JavaScript. *)
Fixpoint writeElems {A} (dst : list A) (at_ : nat) (xs : list A) : list A :=
  match xs with
  | [] => dst
  | x :: xs' => writeElems (<[at_ := x]> dst) (S at_) xs'
  end.

(** The body of [remapAttribute]'s loops: for the [n] source vertices in
    order, vertex [i] (the next [es] elements of [src]) goes to slot
    [remap[i]]; an entry that is missing or not a slot of [dst] writes
    nothing. *)
Fixpoint remapLoop {A} (es : nat) (remap : list Z) (src : list A) (n : nat)
    (dst : list A) : list A :=
  match n with
  | O => dst
  | S n' =>
    match remap with
    | [] => remapLoop es [] (drop es src) n' dst
    | r :: remap' =>
      remapLoop es remap' (drop es src) n'
        (if 0 <=? r then writeElems dst (Z.to_nat r * es) (take es src) else dst)
    end
  end.

Definition remapList {A} (es : nat) (remap : list Z) (dstCount : Z) (src : list A)
  : list A :=
  remapLoop es remap src (length src / es)%nat (take (Z.to_nat dstCount * es) src).

(** One entry per index: the elements of vertex [i] for every [i] of the
    index list, in order. *)
Definition gatherList {A} (es : nat) (indices : list Z) (src : list A) : list A :=
  flat_map (fun i => if 0 <=? i then take es (drop (Z.to_nat i * es) src) else [])
           indices.

(** First occurrences, in order ([Array.from(new Set(xs))]). *)
Fixpoint dedupe (seen : list nat) (l : list nat) : list nat :=
  match l with
  | [] => []
  | x :: l' =>
    if bool_decide (x ∈ seen) then dedupe seen l' else x :: dedupe (x :: seen) l'
  end.

(** ** Numbers

    A JavaScript number. *)
Inductive number :=
| Finite (q : Q)
| PosInfinity
| NegInfinity
| NaN.

(** [2 ^ e] for an exponent of either sign. *)
Definition pow2 (e : Z) : Q :=
  if 0 <=? e then inject_Z (2 ^ e) else / inject_Z (2 ^ (- e)).

(** The binade of a positive rational: [2 ^ ilog2 x <= x < 2 ^ (ilog2 x + 1)]. *)
Definition ilog2 (x : Q) : Z :=
  if Qle_bool 1 x then Z.log2 (Qfloor x) else - Z.log2_up (Qceiling (/ x)).

(** The nearest integer, a tie going to the even one. *)
Definition roundHalfEven (z : Q) : Z :=
  let f := Qfloor z in
  match (z - inject_Z f ?= 1 # 2)%Q with
  | Lt => f
  | Gt => f + 1
  | Eq => if Z.even f then f else f + 1
  end.

(** The exponent of the last place of the doubles around [x]: 53 bits of
    precision, and no exponent below that of the subnormals. *)
Definition quantum (x : Q) : Z := Z.max (ilog2 (Qabs x) - 52) (-1074).

(** The double nearest to an exact result; an infinity from [2 ^ 1024]
    on. *)
Definition roundDouble (x : Q) : number :=
  if Qeq_bool x 0 then Finite 0
  else
    let u := pow2 (quantum x) in
    let y := Qred (inject_Z (roundHalfEven (x / u)) * u) in
    if Qle_bool (pow2 1024) (Qabs y)
    then (if Qle_bool 0 x then PosInfinity else NegInfinity)
    else Finite y.

(** [a * b]. *)
Definition nmul (a b : number) : number :=
  match a, b with
  | NaN, _ | _, NaN => NaN
  | Finite x, Finite y => roundDouble (x * y)
  | Finite x, PosInfinity | PosInfinity, Finite x =>
    if Qeq_bool x 0 then NaN else if Qle_bool 0 x then PosInfinity else NegInfinity
  | Finite x, NegInfinity | NegInfinity, Finite x =>
    if Qeq_bool x 0 then NaN else if Qle_bool 0 x then NegInfinity else PosInfinity
  | PosInfinity, PosInfinity | NegInfinity, NegInfinity => PosInfinity
  | PosInfinity, NegInfinity | NegInfinity, PosInfinity => NegInfinity
  end.

(** [a / d] for a positive integer constant [d]. *)
Definition ndivPos (a : number) (d : positive) : number :=
  match a with
  | Finite x => roundDouble (x / inject_Z (Zpos d))
  | other => other
  end.

(** [Math.floor(a)]. *)
Definition nfloor (a : number) : number :=
  match a with
  | Finite x => Finite (inject_Z (Qfloor x))
  | other => other
  end.

(** A count as a number. *)
Definition ofCount (n : Z) : number := Finite (inject_Z n).

(** A value that may be [undefined], used as a number: [undefined] is
    [NaN]. *)
Definition toNumber (v : option number) : number :=
  match v with Some x => x | None => NaN end.

(** A decimal literal of the source denotes the nearest double. *)
Definition literal (q : Q) : number := roundDouble q.

(** The whole part of a number, for a decimator to count with: nothing
    for what is not finite. *)
Definition wholePart (a : number) : Z :=
  match a with
  | Finite q => Qfloor q
  | _ => 0
  end.

(** A key of an options object: left out, or given, and then possibly
    with the value [undefined]. *)
Inductive Key (A : Type) :=
| Missing
| Given (value : option A).

Arguments Missing {A}.
Arguments Given {A} value.

(** One key of [{ ...defaults, ...options }]: the default when the key is
    left out, else what was given, [undefined] included. *)
Definition spread {A} (d : A) (k : Key A) : option A :=
  match k with
  | Missing => Some d
  | Given v => v
  end.

Section Simplify.

(** binary32 values, and the two operations on them that the transform
    relies on but does not define. *)
Variable F : Type.

Inductive TypedArray :=
| Float32Array (xs : list F)
| IntArray (k : ArrayKind) (xs : list Z).

Definition Uint32Array (xs : list Z) : TypedArray := IntArray Uint32 xs.
Definition Uint16Array (xs : list Z) : TypedArray := IntArray Uint16 xs.

(** ECMAScript [ToUint32] on a binary32 value. *)
Variable toUint32F : F -> Z.

(** [dequantizeAttributeArray(array, componentType, normalized)] of
    [dequantize.ts], which is not part of this file: a parameter. It is
    handed what [getArray()] returned, which may be null, and it may
    throw. *)
Variable dequantizeAttributeArray
  : option TypedArray -> ComponentType -> bool -> result (list F).

Definition arrayLength (a : TypedArray) : nat :=
  match a with
  | Float32Array xs => length xs
  | IntArray _ xs => length xs
  end.

Definition isFloat32Array (a : TypedArray) : bool :=
  match a with Float32Array _ => true | IntArray _ _ => false end.

Definition isUint32Array (a : TypedArray) : bool :=
  match a with IntArray Uint32 _ => true | _ => false end.

Definition isUint16Array (a : TypedArray) : bool :=
  match a with IntArray Uint16 _ => true | _ => false end.

(** [new Uint32Array(array)]. *)
Definition new_Uint32Array (a : TypedArray) : list Z :=
  match a with
  | Float32Array xs => map toUint32F xs
  | IntArray _ xs => map (wrapUnsigned 32) xs
  end.

(** [new Uint16Array(indices)] on the contents of a [Uint32Array]. *)
Definition new_Uint16Array (xs : list Z) : TypedArray :=
  Uint16Array (map (wrapUnsigned 16) xs).

(** The integer contents of an index array as read by [getScalar]. *)
Definition intContents (a : TypedArray) : list Z :=
  match a with
  | Float32Array xs => map toUint32F xs
  | IntArray _ xs => xs
  end.

Definition mapContents (f : forall A, list A -> list A) (a : TypedArray) : TypedArray :=
  match a with
  | Float32Array xs => Float32Array (f F xs)
  | IntArray k xs => IntArray k (f Z xs)
  end.

(** Modelled from the spec: the [Accessor] class of the document model,
    which is not part of this file: a typed numeric buffer with its
    element type and normalized flag. An accessor that was never given an
    array has none: [getArray()] returns null. *)
Record Accessor := mkAccessor {
  accName : string;
  accArray : option TypedArray;
  accType : AccessorType;
  accNormalized : bool
}.

(** Modelled from the spec: [accessor.getElementSize()], the number of
    components of one element. *)
Definition getElementSize (a : Accessor) : nat := elementSize (accType a).

(** Modelled from the spec: the element count of an accessor is the length
    of its array in elements of its type, and 0 without an array. *)
Definition getCount (a : Accessor) : Z :=
  match accArray a with
  | Some array => Z.of_nat (arrayLength array / getElementSize a)
  | None => 0
  end.

(** Modelled from the spec: the component type of an accessor is that of
    its array, and FLOAT without an array. *)
Definition getComponentType (a : Accessor) : ComponentType :=
  match accArray a with
  | Some (Float32Array _) | None => FLOAT
  | Some (IntArray k _) => kindComponentType k
  end.

(** Modelled from the spec: the size of one component, in bytes, read off
    the array ([BYTES_PER_ELEMENT]); nothing to read it off without an
    array. *)
Definition getComponentSize (a : Accessor) : option Z :=
  match accArray a with
  | Some (Float32Array _) => Some 4
  | Some (IntArray k _) => Some (bytesPerElement k)
  | None => None
  end.

(** Modelled from the spec: [accessor.getNormalized()] and
    [accessor.setArray(array)] of the document model. *)
Definition getNormalized (a : Accessor) : bool := accNormalized a.

Definition setArray (arr : TypedArray) (a : Accessor) : Accessor :=
  {| accName := accName a; accArray := Some arr;
     accType := accType a; accNormalized := accNormalized a |}.

(** Modelled from the spec: [remapAttribute(attribute, remap, dstCount)] of
    [utils.ts]. The new array has [dstCount] elements taken from the
    front of the source; then element [i] is copied into slot [remap[i]]
    for every source vertex [i] whose entry is a slot. The array is
    sliced without a check: an accessor without one makes it throw. *)
Definition remapAttribute (remap : list Z) (dstCount : Z) (a : Accessor)
  : result Accessor :=
  match accArray a with
  | None => Throw (TypeError "srcArray.slice")
  | Some srcArray =>
    Ok (setArray (mapContents (fun A => remapList (getElementSize a) remap dstCount)
                              srcArray) a)
  end.

(** ** The document graph *)

(** Modelled from the spec: the [Primitive], [Mesh] and [Document] classes
    of the document model, which are not part of this file. A primitive
    has a draw mode, optional indices, named attributes, and morph targets
    that are attribute maps of their own; a mesh is a named list of
    primitives; the document owns the accessors, primitives and meshes. *)
Record Primitive := mkPrimitive {
  primMode : Mode;
  primIndices : option AccId;
  primAttributes : list (string * AccId);
  primTargets : list (list (string * AccId))
}.

Record Mesh := mkMesh {
  meshName : string;
  meshPrimitives : list PrimId
}.

Record Document := mkDocument {
  docAccessors : gmap nat Accessor;
  docNextAccessor : AccId;
  docPrimitives : gmap nat Primitive;
  docMeshes : gmap nat Mesh
}.

Definition lookupAttribute (semantic : string) (l : list (string * AccId))
  : option AccId :=
  snd <$> find (fun e => bool_decide (fst e = semantic)) l.

(** Modelled from the spec: [prim.getAttribute(semantic)] of the document
    model, the accessor in that slot, if any. *)
Definition getAttribute (doc : Document) (prim : Primitive) (semantic : string)
  : option (AccId * Accessor) :=
  match lookupAttribute semantic (primAttributes prim) with
  | Some id =>
    match docAccessors doc !! id with
    | Some a => Some (id, a)
    | None => None
    end
  | None => None
  end.

(** Modelled from the spec: [prim.getIndices()] of the document model. *)
Definition getIndices (doc : Document) (prim : Primitive)
  : option (AccId * Accessor) :=
  match primIndices prim with
  | Some id =>
    match docAccessors doc !! id with
    | Some a => Some (id, a)
    | None => None
    end
  | None => None
  end.

(** Modelled from the spec: [deepListAttributes(prim)] of [utils.ts], the
    attributes of the primitive and of its morph targets, each accessor
    once. *)
Definition deepListAttributes (prim : Primitive) : list AccId :=
  dedupe [] ((primAttributes prim).*2 ++ concat (map (fun t => t.*2) (primTargets prim))).

Definition swapSlots (src dst : AccId) (l : list (string * AccId))
  : list (string * AccId) :=
  map (fun e => (fst e, if bool_decide (snd e = src) then dst else snd e)) l.

(** Modelled from the spec: [deepSwapAttribute(prim, src, dst)] of
    [utils.ts]: every attribute slot of the primitive and of its morph
    targets that holds [src] now holds [dst]. *)
Definition deepSwapAttribute (src dst : AccId) (prim : Primitive) : Primitive :=
  {| primMode := primMode prim;
     primIndices := primIndices prim;
     primAttributes := swapSlots src dst (primAttributes prim);
     primTargets := map (swapSlots src dst) (primTargets prim) |}.

(** Modelled from the spec: [prim.setIndices(indices)] of the document
    model. *)
Definition setIndices (i : option AccId) (prim : Primitive) : Primitive :=
  {| primMode := primMode prim;
     primIndices := i;
     primAttributes := primAttributes prim;
     primTargets := primTargets prim |}.

(** *** Parents of an accessor *)

Inductive Parent :=
| ParentRoot
| ParentPrimitive (p : PrimId)
| ParentTarget (p : PrimId) (t : nat).

Definition slotsRef (a : AccId) (l : list (string * AccId)) : bool :=
  bool_decide (a ∈ l.*2).

Definition primRefs (a : AccId) (prim : Primitive) : bool :=
  bool_decide (primIndices prim = Some a) || slotsRef a (primAttributes prim).

Definition targetParents (a : AccId) (p : PrimId) (ts : list (list (string * AccId)))
  : list Parent :=
  flat_map (fun it => if slotsRef a (snd it) then [ParentTarget p (fst it)] else [])
           (imap (fun i t => (i, t)) ts).

Definition primParents (a : AccId) (e : PrimId * Primitive) : list Parent :=
  (if primRefs a (snd e) then [ParentPrimitive (fst e)] else [])
  ++ targetParents a (fst e) (primTargets (snd e)).

(** Modelled from the spec: [accessor.listParents()] of the document
    model. The parents of an accessor of the document are the document
    root, which owns every accessor it created, and every primitive and
    morph target one of whose slots holds the accessor. *)
Definition listParents (doc : Document) (a : AccId) : list Parent :=
  ParentRoot :: flat_map (primParents a) (map_to_list (docPrimitives doc)).

(** Any slot of the primitive or of one of its morph targets holds [a]. *)
Definition references (prim : Primitive) (a : AccId) : bool :=
  primRefs a prim || existsb (slotsRef a) (primTargets prim).

(** *** Creating and disposing *)

(** Modelled from the spec: [shallowCloneAccessor(document, accessor)] of
    [utils.ts], which creates an accessor of the document with the
    metadata of the source; here with its contents as well, under a handle
    that no accessor had before. *)
Definition createAccessor (a : Accessor) (doc : Document) : AccId * Document :=
  (docNextAccessor doc,
   {| docAccessors := <[docNextAccessor doc := a]> (docAccessors doc);
      docNextAccessor := S (docNextAccessor doc);
      docPrimitives := docPrimitives doc;
      docMeshes := docMeshes doc |}).

(** Modelled from the spec: [accessor.dispose()] of the document model.
    It is only ever called on an accessor whose one parent is the root, so
    that no slot is left to clear. *)
Definition disposeAccessor (a : AccId) (doc : Document) : Document :=
  {| docAccessors := delete a (docAccessors doc);
     docNextAccessor := docNextAccessor doc;
     docPrimitives := docPrimitives doc;
     docMeshes := docMeshes doc |}.

Definition updatePrimitive (f : Primitive -> Primitive) (p : PrimId) (doc : Document)
  : Document :=
  {| docAccessors := docAccessors doc;
     docNextAccessor := docNextAccessor doc;
     docPrimitives := alter f p (docPrimitives doc);
     docMeshes := docMeshes doc |}.

Definition detachPrimitive (p : PrimId) (m : Mesh) : Mesh :=
  {| meshName := meshName m;
     meshPrimitives := filter (fun q => q ≠ p) (meshPrimitives m) |}.

(** Modelled from the spec: [prim.dispose()] of the document model. The
    primitive leaves the document and every mesh that lists it; the
    accessors it pointed at stay. *)
Definition disposePrimitive (p : PrimId) (doc : Document) : Document :=
  {| docAccessors := docAccessors doc;
     docNextAccessor := docNextAccessor doc;
     docPrimitives := delete p (docPrimitives doc);
     docMeshes := detachPrimitive p <$> docMeshes doc |}.

(** Modelled from the spec: [mesh.dispose()] of the document model. *)
Definition disposeMesh (m : MeshId) (doc : Document) : Document :=
  {| docAccessors := docAccessors doc;
     docNextAccessor := docNextAccessor doc;
     docPrimitives := docPrimitives doc;
     docMeshes := delete m (docMeshes doc) |}.

(** [if (src.listParents().length === 1) src.dispose()]. *)
Definition disposeIfUnused (src : AccId) (doc : Document) : Document :=
  if bool_decide (length (listParents doc src) = 1%nat)
  then disposeAccessor src doc else doc.

(** An accessor of the document is given new contents. *)
Definition setAccessor (x : AccId) (a : Accessor) (doc : Document) : Document :=
  {| docAccessors := <[x := a]> (docAccessors doc);
     docNextAccessor := docNextAccessor doc;
     docPrimitives := docPrimitives doc;
     docMeshes := docMeshes doc |}.

(** Every slot of the primitive that holds [src] is given [dst], and
    [src] is disposed if nothing else holds it. *)
Definition swapAttribute (p : PrimId) (src dst : AccId) (doc : Document) : Document :=
  disposeIfUnused src (updatePrimitive (deepSwapAttribute src dst) p doc).

(** One round of the attribute loop (lines 173-178 and 227-232):
    clone the source with [shallowCloneAccessor], rewrite the clone's
    array, swap every slot of the primitive to the clone, dispose the
    source if nothing else holds it. When the rewriting throws, the clone
    has been made and stays in the document. *)
Definition replaceAttribute (rewrite : Accessor -> result Accessor) (p : PrimId)
    (doc : Document) (src : AccId) : result unit * Document :=
  match docAccessors doc !! src with
  | None => (Ok tt, doc)
  | Some srcAttribute =>
    let '(dst, doc1) := createAccessor srcAttribute doc in
    match rewrite srcAttribute with
    | Throw e => (Throw e, doc1)
    | Ok dstAttribute =>
      (Ok tt, swapAttribute p src dst (setAccessor dst dstAttribute doc1))
    end
  end.

(** A loop over accessors that stops at the first round that throws. *)
Fixpoint attributeLoop (round : Document -> AccId -> result unit * Document)
    (l : list AccId) (doc : Document) : result unit * Document :=
  match l with
  | [] => (Ok tt, doc)
  | src :: l' =>
    match round doc src with
    | (Ok _, doc') => attributeLoop round l' doc'
    | (Throw e, doc') => (Throw e, doc')
    end
  end.

Definition replaceAttributes (rewrite : Accessor -> result Accessor) (p : PrimId)
    (doc : Document) : result unit * Document :=
  match docPrimitives doc !! p with
  | None => (Ok tt, doc)
  | Some prim => attributeLoop (replaceAttribute rewrite p) (deepListAttributes prim) doc
  end.

(** Lines 182-185: the index accessor is cloned, given the new array, set
    on the primitive, and the source disposed if nothing else holds it. *)
Definition replaceIndices (p : PrimId) (src : AccId) (srcIndices : Accessor)
    (arr : TypedArray) (doc : Document) : Document :=
  let '(dst, doc1) := createAccessor (setArray arr srcIndices) doc in
  let doc2 := updatePrimitive (setIndices (Some dst)) p doc1 in
  disposeIfUnused src doc2.

(** Modelled from the spec: what [unweldPrimitive] of [unweld.ts] does to
    one attribute. An indexed primitive is expanded to one entry per
    index: every attribute is replaced by a copy gathered through the
    index list (the source is disposed if nothing else holds it), then the
    primitive drops its indices (disposed under the same condition). The
    source array is read without a check: an accessor without one makes
    it throw, before a copy is made. *)
Definition unweldAttribute (indices : Accessor) (a : Accessor) : result Accessor :=
  match accArray a with
  | None => Throw (TypeError "srcArray.constructor")
  | Some srcArray =>
    Ok (setArray (mapContents
                    (fun A => gatherList (getElementSize a)
                                (from_option intContents [] (accArray indices)))
                    srcArray) a)
  end.

Definition unweldRound (indices : Accessor) (p : PrimId) (doc : Document) (src : AccId)
  : result unit * Document :=
  match docAccessors doc !! src with
  | None => (Ok tt, doc)
  | Some srcAttribute =>
    match unweldAttribute indices srcAttribute with
    | Throw e => (Throw e, doc)
    | Ok dstAttribute =>
      let '(dst, doc1) := createAccessor dstAttribute doc in
      (Ok tt, swapAttribute p src dst doc1)
    end
  end.

(** Modelled from the spec: [unweldPrimitive(prim)] of [unweld.ts], on a
    primitive of the document; a primitive without indices is left as it
    is. The count of the POSITION attribute is read first, without a
    check. *)
Definition unweldPrimitive (p : PrimId) (doc : Document) : result unit * Document :=
  match docPrimitives doc !! p with
  | None => (Ok tt, doc)
  | Some prim =>
    match getIndices doc prim with
    | None => (Ok tt, doc)
    | Some (iid, indices) =>
      match getAttribute doc prim "POSITION" with
      | None => (Throw (TypeError "prim.getAttribute('POSITION').getCount"), doc)
      | Some _ =>
        match attributeLoop (unweldRound indices p) (deepListAttributes prim) doc with
        | (Throw e, doc1) => (Throw e, doc1)
        | (Ok _, doc1) =>
          let doc2 := updatePrimitive (setIndices None) p doc1 in
          (Ok tt, disposeIfUnused iid doc2)
        end
      end
    end
  end.

(** ** The external decimator *)

(** Modelled from the spec: the entry points of meshoptimizer's
    [MeshoptSimplifier] that the transform consumes.
    Each may throw, and each sees the decimator's
    [useExperimentalFeatures] property (its first argument), which is
    mutable state of the decimator and lives in the [World] below.
    [compactMesh] rewrites the index array it is given in place: the first
    component of its result is that array after the call, the second the
    remap table, the third the number of unique vertices. *)
Definition SimplifyPoints : Type :=
  bool -> list F -> Z -> number -> option (list F) -> option Z -> result (list Z).

Record MeshoptSimplifier := mkSimplifier {
  msReady : result unit;
  msSimplify : bool -> list Z -> list F -> Z -> number -> option number -> list Flag
               -> result (list Z * Q);
  msSimplifyPoints : option SimplifyPoints;
  msCompactMesh : bool -> list Z -> result (list Z * list Z * Z)
}.

(** ** Options *)

(** [SimplifyOptions]. Nothing is done with the [simplifier] key but to
    read it, so that a key left out and one given as [undefined] are the
    same there. *)
Record SimplifyOptions := mkOptions {
  optSimplifier : option MeshoptSimplifier;
  optRatio : Key number;
  optError : Key number;
  optLockBorder : Key bool
}.

(** [Required<SimplifyOptions>] as it is at run time: every key is there,
    with a value that may be [undefined]. *)
Record RequiredOptions := mkRequired {
  simplifier : option MeshoptSimplifier;
  ratio : option number;
  error : option number;
  lockBorder : option bool
}.

Record Defaults := mkDefaults {
  defaultRatio : number;
  defaultError : number;
  defaultLockBorder : bool
}.

Definition SIMPLIFY_DEFAULTS : Defaults :=
  {| defaultRatio := literal 0;
     defaultError := literal (1 # 10000);
     defaultLockBorder := false |}.

(** [{ ...SIMPLIFY_DEFAULTS, ..._options }]. *)
Definition withDefaults (_options : SimplifyOptions) : RequiredOptions :=
  {| simplifier := optSimplifier _options;
     ratio := spread (defaultRatio SIMPLIFY_DEFAULTS) (optRatio _options);
     error := spread (defaultError SIMPLIFY_DEFAULTS) (optError _options);
     lockBorder := spread (defaultLockBorder SIMPLIFY_DEFAULTS) (optLockBorder _options) |}.

(** A [Required<SimplifyOptions>] passed where [SimplifyOptions] is expected. *)
Definition asOptions (o : RequiredOptions) : SimplifyOptions :=
  {| optSimplifier := simplifier o;
     optRatio := Given (ratio o);
     optError := Given (error o);
     optLockBorder := Given (lockBorder o) |}.

Record WeldOptions := mkWeldOptions { overwrite : bool }.

Record PruneOptions := mkPruneOptions {
  propertyTypes : list PropertyType;
  keepAttributes : bool;
  keepIndices : bool;
  keepLeaves : bool
}.

Record DedupOptions := mkDedupOptions { dedupPropertyTypes : list PropertyType }.

(** Modelled from the spec: the [TransformContext] of the core package,
    the names of the passes of the caller's pipeline in order. *)
Record TransformContext := mkContext { stack : list string }.

(** ** The world: document, decimator toggle, and what was observed *)

Inductive LogMessage :=
| SkippingPrimitive (mesh : string)
| VerticesDelta (before after : Z)
| Complete.

Inductive Event :=
| EvReady
| EvWeld (o : WeldOptions)
| EvPrune (o : PruneOptions)
| EvDedup (o : DedupOptions)
| EvSimplify (indices : list Z) (positions : list F) (stride : Z) (target : number)
             (errorBound : option number) (flags : list Flag)
| EvSimplifyPoints (experimental : bool) (positions : list F) (stride : Z)
                   (target : number) (colors : option (list F))
                   (colorStride : option Z)
| EvCompactMesh (indices : list Z)
| EvWarn (m : LogMessage)
| EvDebug (m : LogMessage).

Record World := mkWorld {
  document : Document;
  useExperimentalFeatures : bool;
  trace : list Event
}.

(** *** State and exceptions *)

Definition M (A : Type) : Type := World -> result A * World.

Definition ret {A} (a : A) : M A := fun w => (Ok a, w).

Definition bind {A B} (m : M A) (k : A -> M B) : M B :=
  fun w =>
    match m w with
    | (Ok a, w') => k a w'
    | (Throw e, w') => (Throw e, w')
    end.

Definition throw {A} (e : Exn) : M A := fun w => (Throw e, w).

Definition liftResult {A} (r : result A) : M A := fun w => (r, w).

Definition gets {A} (f : World -> A) : M A := fun w => (Ok (f w), w).

Definition modifyDocument (f : Document -> Document) : M unit :=
  fun w => (Ok tt, {| document := f (document w);
                      useExperimentalFeatures := useExperimentalFeatures w;
                      trace := trace w |}).

(** A step on the document that may throw; what it did to the document
    before it threw stays. *)
Definition updateDocument (f : Document -> result unit * Document) : M unit :=
  fun w => (fst (f (document w)),
            {| document := snd (f (document w));
               useExperimentalFeatures := useExperimentalFeatures w;
               trace := trace w |}).

Definition setExperimental (b : bool) : M unit :=
  fun w => (Ok tt, {| document := document w;
                      useExperimentalFeatures := b;
                      trace := trace w |}).

Definition emit (e : Event) : M unit :=
  fun w => (Ok tt, {| document := document w;
                      useExperimentalFeatures := useExperimentalFeatures w;
                      trace := trace w ++ [e] |}).

(** The [!] of TypeScript checks nothing: using the value throws when it
    is null or undefined. *)
Definition nonNull {A} (what : string) (o : option A) : M A :=
  match o with
  | Some a => ret a
  | None => throw (TypeError what)
  end.

Definition getPrimitive (p : PrimId) : M Primitive :=
  fun w =>
    match docPrimitives (document w) !! p with
    | Some prim => (Ok prim, w)
    | None => (Throw StaleHandle, w)
    end.

Fixpoint forEach {A} (l : list A) (body : A -> M unit) : M unit :=
  match l with
  | [] => ret tt
  | x :: l' => bind (body x) (fun _ => forEach l' body)
  end.

Declare Scope monad_scope.
Delimit Scope monad_scope with monad.
Notation "x <- m ;; k" := (bind m (fun x => k))
  (at level 100, m at next level, k at level 200, right associativity) : monad_scope.
Notation "m ;; k" := (bind m (fun _ => k))
  (at level 100, k at level 200, right associativity) : monad_scope.
Local Open Scope monad_scope.

(** ** [simplifyPrimitive] and [_simplifyPoints] *)

(** The expression of line 155:
    [Math.floor((options.ratio * srcIndexCount) / 3) * 3]. *)
Definition targetIndexCount (ratio : option number) (srcIndexCount : Z) : number :=
  nmul (nfloor (ndivPos (nmul (toNumber ratio) (ofCount srcIndexCount)) 3)) (Finite 3).

(** The expression of line 217: [Math.floor(options.ratio * srcVertexCount)]. *)
Definition targetVertexCount (ratio : option number) (srcVertexCount : Z) : number :=
  nfloor (nmul (toNumber ratio) (ofCount srcVertexCount)).

(** Lines 146-148 and 207-209: whatever is not a [Float32Array], a
    missing array included, goes through [dequantizeAttributeArray]. *)
Definition positionFloats (position : Accessor) : result (list F) :=
  match accArray position with
  | Some (Float32Array xs) => Ok xs
  | positionArray =>
    dequantizeAttributeArray positionArray (getComponentType position)
                             (getNormalized position)
  end.

(** Lines 210-212: the color array, when there is one and it is not a
    [Float32Array], is dequantized with the component type and the
    normalized flag of [position]. *)
Definition colorFloats (position color : Accessor) : result (option (list F)) :=
  match accArray color with
  | None => Ok None
  | Some (Float32Array xs) => Ok (Some xs)
  | Some colorArray =>
    match dequantizeAttributeArray (Some colorArray) (getComponentType position)
                                   (getNormalized position) with
    | Ok xs => Ok (Some xs)
    | Throw e => Throw e
    end
  end.

(** Lines 149-151; [new Uint32Array(null)] is an empty array. *)
Definition indexUint32 (srcIndices : Accessor) : list Z :=
  match accArray srcIndices with
  | None => []
  | Some indicesArray =>
    if isUint32Array indicesArray
    then intContents indicesArray
    else new_Uint32Array indicesArray
  end.

(** [options.lockBorder ? ['LockBorder'] : []]. *)
Definition lockFlags (lockBorder : option bool) : list Flag :=
  if default false lockBorder then [LockBorder] else [].

(** Line 183. *)
Definition dstIndexArray (srcVertexCount : Z) (dstIndicesArray : list Z) : TypedArray :=
  if srcVertexCount <=? 65534
  then new_Uint16Array dstIndicesArray
  else Uint32Array dstIndicesArray.

Definition callSimplify (s : MeshoptSimplifier) (indices : list Z) (positions : list F)
    (stride : Z) (target : number) (errorBound : option number) (flags : list Flag)
  : M (list Z * Q) :=
  emit (EvSimplify indices positions stride target errorBound flags);;
  experimental <- gets useExperimentalFeatures;;
  liftResult (msSimplify s experimental indices positions stride target errorBound flags).

Definition callCompactMesh (s : MeshoptSimplifier) (indices : list Z)
  : M (list Z * list Z * Z) :=
  emit (EvCompactMesh indices);;
  experimental <- gets useExperimentalFeatures;;
  liftResult (msCompactMesh s experimental indices).

Definition callSimplifyPoints (s : MeshoptSimplifier) (positions : list F)
    (stride : Z) (target : number) (colors : option (list F)) (colorStride : option Z)
  : M (list Z) :=
  simplifyPoints <- nonNull "simplifier.simplifyPoints" (msSimplifyPoints s);;
  experimental <- gets useExperimentalFeatures;;
  emit (EvSimplifyPoints experimental positions stride target colors colorStride);;
  liftResult (simplifyPoints experimental positions stride target colors colorStride).

(** Line 203: [color ? color.getComponentSize() : undefined]. *)
Definition colorComponentSize (color : option (AccId * Accessor)) : M (option Z) :=
  match color with
  | None => ret None
  | Some c =>
    size <- nonNull "color.getArray().BYTES_PER_ELEMENT" (getComponentSize (snd c));;
    ret (Some size)
  end.

(** Lines 202 and 210-212: the colors, when there is a COLOR_0 attribute. *)
Definition colorArrayFloats (position : Accessor) (color : option (AccId * Accessor))
  : result (option (list F)) :=
  match color with
  | None => Ok None
  | Some c => colorFloats position (snd c)
  end.

Definition _simplifyPoints (prim : PrimId) (options : RequiredOptions) : M unit :=
  p <- getPrimitive prim;;
  doc <- gets document;;
  match getIndices doc p with
  | Some _ => updateDocument (unweldPrimitive prim)
  | None => ret tt
  end;;
  p <- getPrimitive prim;;
  doc <- gets document;;
  let position := getAttribute doc p "POSITION" in
  let color := getAttribute doc p "COLOR_0" in
  position <- nonNull "position.getCount" position;;
  let position := snd position in
  let srcVertexCount := getCount position in
  colorStride <- colorComponentSize color;;
  positionArray <- liftResult (positionFloats position);;
  colorArray <- liftResult (colorArrayFloats position color);;
  simplifier <- nonNull "simplifier.useExperimentalFeatures" (simplifier options);;
  setExperimental true;;
  let targetCount := targetVertexCount (ratio options) srcVertexCount in
  dstIndicesArray <-
    callSimplifyPoints simplifier positionArray 3 targetCount colorArray colorStride;;
  setExperimental false;;
  compacted <- callCompactMesh simplifier dstIndicesArray;;
  let '(_, remap, unique) := compacted in
  emit (EvDebug (VerticesDelta (getCount position) unique));;
  updateDocument (replaceAttributes (remapAttribute remap unique) prim).

Definition simplifyPrimitive (prim : PrimId) (_options : SimplifyOptions) : M unit :=
  let options := withDefaults _options in
  p <- getPrimitive prim;;
  if bool_decide (primMode p = POINTS) then _simplifyPoints prim options else
  doc <- gets document;;
  let position := getAttribute doc p "POSITION" in
  let srcIndices := getIndices doc p in
  srcIndices <- nonNull "srcIndices.getCount" srcIndices;;
  let '(srcIndicesId, srcIndices) := srcIndices in
  let srcIndexCount := getCount srcIndices in
  position <- nonNull "position.getCount" position;;
  let position := snd position in
  let srcVertexCount := getCount position in
  positionArray <- liftResult (positionFloats position);;
  let indicesArray := indexUint32 srcIndices in
  let targetCount := targetIndexCount (ratio options) srcIndexCount in
  let flags := lockFlags (lockBorder options) in
  simplifier <- nonNull "simplifier.simplify" (simplifier options);;
  simplified <-
    callSimplify simplifier indicesArray positionArray 3 targetCount (error options) flags;;
  let dstIndicesArray := fst simplified in
  compacted <- callCompactMesh simplifier dstIndicesArray;;
  let '(dstIndicesArray, remap, unique) := compacted in
  emit (EvDebug (VerticesDelta (getCount position) unique));;
  updateDocument (replaceAttributes (remapAttribute remap unique) prim);;
  modifyDocument
    (replaceIndices prim srcIndicesId srcIndices
                    (dstIndexArray srcVertexCount dstIndicesArray)).

(** ** The [simplify] transform *)

Definition Pass : Type := Document -> result unit * Document.

(** The sub-pipelines [weld], [prune] and [dedup]: parameters. *)
Variable weld : WeldOptions -> Pass.
Variable prune : PruneOptions -> Pass.
Variable dedup : DedupOptions -> Pass.

(** [await document.transform(pass)]. *)
Definition transform (ev : Event) (pass : Pass) : M unit :=
  emit ev;;
  (fun w => let '(r, d) := pass (document w) in
            (r, {| document := d;
                   useExperimentalFeatures := useExperimentalFeatures w;
                   trace := trace w |})).

Fixpoint lastIndexFrom (i : Z) (found : Z) (name : string) (l : list string) : Z :=
  match l with
  | [] => found
  | x :: l' => lastIndexFrom (i + 1) (if bool_decide (x = name) then i else found) name l'
  end.

(** [Array.prototype.lastIndexOf]: [-1] when absent. *)
Definition lastIndexOf (name : string) (l : list string) : Z :=
  lastIndexFrom 0 (-1) name l.

(** Modelled from the spec: [isTransformPending(context, initial, pending)]
    of [utils.ts]. The context lists the names of the passes of the
    caller's pipeline in order; [pending] is scheduled after [initial]
    when it is listed later. Without a context nothing is pending. *)
Definition isTransformPending (context : option TransformContext)
    (initial pending : string) : bool :=
  match context with
  | None => false
  | Some c => lastIndexOf initial (stack c) <? lastIndexOf pending (stack c)
  end.

(** Modelled from the spec: [root.listMeshes()] of the document model,
    the meshes of the document in the order of their creation, which is
    the order of their handles. *)
Definition listMeshes (doc : Document) : list MeshId :=
  merge_sort (≤)%nat (map_to_list (docMeshes doc)).*1.

(** Modelled from the spec: [mesh.listPrimitives()] and [mesh.getName()]
    of the document model. *)
Definition listPrimitives (mesh : MeshId) (doc : Document) : list PrimId :=
  match docMeshes doc !! mesh with
  | Some m => meshPrimitives m
  | None => []
  end.

Definition getName (mesh : MeshId) (doc : Document) : string :=
  match docMeshes doc !! mesh with
  | Some m => meshName m
  | None => EmptyString
  end.

(** Lines 93-101: one primitive of one mesh. *)
Definition simplifyMeshPrimitive (options : RequiredOptions) (s : MeshoptSimplifier)
    (mesh : MeshId) (prim : PrimId) : M unit :=
  p <- getPrimitive prim;;
  if bool_decide (primMode p = TRIANGLES) then
    simplifyPrimitive prim (asOptions options);;
    p <- getPrimitive prim;;
    doc <- gets document;;
    indices <- nonNull "prim.getIndices().getCount" (getIndices doc p);;
    if getCount (snd indices) =? 0 then modifyDocument (disposePrimitive prim) else ret tt
  else if bool_decide (primMode p = POINTS) && bool_decide (is_Some (msSimplifyPoints s)) then
    simplifyPrimitive prim (asOptions options);;
    p <- getPrimitive prim;;
    doc <- gets document;;
    position <- nonNull "prim.getAttribute('POSITION').getCount"
                        (getAttribute doc p "POSITION");;
    if getCount (snd position) =? 0 then modifyDocument (disposePrimitive prim) else ret tt
  else
    name <- gets (fun w => getName mesh (document w));;
    emit (EvWarn (SkippingPrimitive name)).

(** Lines 92-104: one mesh. *)
Definition simplifyMesh (options : RequiredOptions) (s : MeshoptSimplifier)
    (mesh : MeshId) : M unit :=
  prims <- gets (fun w => listPrimitives mesh (document w));;
  forEach prims (simplifyMeshPrimitive options s mesh);;
  prims <- gets (fun w => listPrimitives mesh (document w));;
  if bool_decide (length prims = 0%nat) then modifyDocument (disposeMesh mesh) else ret tt.

(** Lines 91-105. *)
Definition simplifyMeshes (options : RequiredOptions) (s : MeshoptSimplifier) : M unit :=
  meshes <- gets (fun w => listMeshes (document w));;
  forEach meshes (simplifyMesh options s).

Definition pruneOptions : PruneOptions :=
  {| propertyTypes := [ACCESSOR; NODE];
     keepAttributes := true;
     keepIndices := true;
     keepLeaves := false |}.

Definition dedupOptions : DedupOptions := {| dedupPropertyTypes := [ACCESSOR] |}.

Definition Transform : Type := option TransformContext -> M unit.

(** Modelled from the spec: [createTransform(name, fn)] of [utils.ts],
    which names the function. *)
Definition createTransform (name : string) (fn : Transform) : string * Transform :=
  (name, fn).

(** Lines 84-124: the body of the transform. *)
Definition simplifyTransform (options : RequiredOptions) (s : MeshoptSimplifier)
  : Transform :=
  fun context =>
    emit EvReady;;
    liftResult (msReady s);;
    transform (EvWeld {| overwrite := false |}) (weld {| overwrite := false |});;
    simplifyMeshes options s;;
    transform (EvPrune pruneOptions) (prune pruneOptions);;
    (if negb (isTransformPending context NAME "dedup")
     then transform (EvDedup dedupOptions) (dedup dedupOptions)
     else ret tt);;
    emit (EvDebug Complete).

Definition simplify (_options : SimplifyOptions) : result (string * Transform) :=
  let options := withDefaults _options in
  match simplifier options with
  | None =>
    (* the message of line 81, without the quotation marks inside it *)
    Throw (ConfigError "simplify: simplifier dependency required — install meshoptimizer.")
  | Some s => Ok (createTransform NAME (simplifyTransform options s))
  end.

(** [document.transform(simplify(options))] from the caller's side: the
    transform is built, then run on the world. *)
Definition runSimplify (_options : SimplifyOptions) (context : option TransformContext)
  : M unit :=
  fun w =>
    match simplify _options with
    | Throw e => (Throw e, w)
    | Ok (_, fn) => fn context w
    end.

(** ** Invariants and relations between documents *)

(** Handles are allocated in increasing order: every accessor of the
    document has a handle below the next one to be given out. *)
Definition freshOk (d : Document) : Prop :=
  forall x, is_Some (docAccessors d !! x) -> (x < docNextAccessor d)%nat.

(** No primitive other than [p] has a slot that holds [x]. *)
Definition unshared (d : Document) (p : PrimId) (x : AccId) : Prop :=
  forall q prim, q <> p -> docPrimitives d !! q = Some prim -> references prim x = false.

(** What an operation on primitive [p] may do to a document: allocate
    accessors, change the slots of [p] itself, and dispose accessors that
    no other primitive holds. Nothing that exists is rewritten. *)
Definition evolves (p : PrimId) (d d' : Document) : Prop :=
  (docNextAccessor d <= docNextAccessor d')%nat /\
  docMeshes d' = docMeshes d /\
  (forall q, q <> p -> docPrimitives d' !! q = docPrimitives d !! q) /\
  (primMode <$> docPrimitives d' !! p = primMode <$> docPrimitives d !! p) /\
  (freshOk d ->
   freshOk d' /\
   forall x, (x < docNextAccessor d)%nat ->
     docAccessors d' !! x = docAccessors d !! x
     \/ (docAccessors d' !! x = None /\ unshared d p x)).

(** Primitive [q] and everything it points at are left as they were. *)
Definition frame (q : PrimId) (d d' : Document) : Prop :=
  freshOk d ->
  freshOk d' /\
  docPrimitives d' !! q = docPrimitives d !! q /\
  (forall prim x a, docPrimitives d !! q = Some prim -> references prim x = true ->
     docAccessors d !! x = Some a -> docAccessors d' !! x = Some a).

(** A computation whose effect on the document stays within [R], whether
    it returns or throws. *)
Definition preserves {A} (R : Document -> Document -> Prop) (m : M A) : Prop :=
  forall w, R (document w) (document (snd (m w))).

(** ** Vocabulary of the statements *)

(** The call of the triangle decimator as it is logged, given the
    primitive's index accessor and the positions as floats. *)
Definition simplifyCall (options : RequiredOptions) (srcIndices : Accessor)
    (positions : list F) : Event :=
  EvSimplify (indexUint32 srcIndices) positions 3
             (targetIndexCount (ratio options) (getCount srcIndices))
             (error options) (lockFlags (lockBorder options)).

(** The world of the triangle path after the attribute loop, given the
    primitive's index and position accessors, the positions as floats and
    the two results of the decimator. *)
Definition triangleRemapped (w : World) (A : PrimId) (options : RequiredOptions)
    (srcIndices position : Accessor) (positions : list F)
    (simplified remap : list Z) (unique : Z) : World :=
  {| document := snd (replaceAttributes (remapAttribute remap unique) A (document w));
     useExperimentalFeatures := useExperimentalFeatures w;
     trace := trace w ++
       [simplifyCall options srcIndices positions;
        EvCompactMesh simplified;
        EvDebug (VerticesDelta (getCount position) unique)] |}.

(** What the triangle path hands to the decimator and writes back: the
    world after the attribute loop, with the new indices. *)
Definition triangleResult (w : World) (A : PrimId) (options : RequiredOptions)
    (iid : AccId) (srcIndices position : Accessor) (positions : list F)
    (simplified dstIndicesArray remap : list Z) (unique : Z) : World :=
  let w1 := triangleRemapped w A options srcIndices position positions
                             simplified remap unique in
  {| document :=
       replaceIndices A iid srcIndices
         (dstIndexArray (getCount position) dstIndicesArray) (document w1);
     useExperimentalFeatures := useExperimentalFeatures w1;
     trace := trace w1 |}.

(** The triangle decimator returns whole triangles, and no more indices
    than it was given. *)
Definition wholeTriangles (s : MeshoptSimplifier) : Prop :=
  forall experimental idx pos stride target err flags r,
    msSimplify s experimental idx pos stride target err flags = Ok r ->
    (length (fst r) `mod` 3 = 0 /\ length (fst r) <= length idx)%nat.

(** [compactMesh] renumbers the entries of the index array it is given. *)
Definition compactsInPlace (s : MeshoptSimplifier) : Prop :=
  forall experimental idx out remap unique,
    msCompactMesh s experimental idx = Ok (out, remap, unique) ->
    length out = length idx.

(** A triangle primitive without indices, in a document of its own. *)
Definition unindexedTriangle : Primitive :=
  {| primMode := TRIANGLES;
     primIndices := None;
     primAttributes := [("POSITION", 0%nat)];
     primTargets := [] |}.

Definition unindexedWorld : World :=
  {| document :=
       {| docAccessors :=
            {[ 0%nat := {| accName := "position"; accArray := Some (Float32Array []);
                           accType := VEC3; accNormalized := false |} ]};
          docNextAccessor := 1;
          docPrimitives := {[ 0%nat := unindexedTriangle ]};
          docMeshes := {[ 0%nat := {| meshName := "mesh"; meshPrimitives := [0%nat] |} ]} |};
     useExperimentalFeatures := false;
     trace := [] |}.

(** The world when the decimator's [simplifyPoints] is entered: the toggle
    has been switched on. *)
Definition pointsEntered (w : World) (options : RequiredOptions)
    (position : Accessor) (positions : list F) (colors : option (list F))
    (colorStride : option Z) : World :=
  {| document := document w;
     useExperimentalFeatures := true;
     trace := trace w ++
       [EvSimplifyPoints true positions 3
          (targetVertexCount (ratio options) (getCount position))
          colors colorStride] |}.

(** The color stride of line 203, when reading it does not throw. *)
Definition colorStrideOf (color : option (AccId * Accessor)) : option (option Z) :=
  match color with
  | None => Some None
  | Some c => Some <$> getComponentSize (snd c)
  end.

Definition slotsMap (sigma : AccId -> AccId) (l : list (string * AccId))
  : list (string * AccId) :=
  map (fun e => (fst e, sigma (snd e))) l.

(** The primitive with every attribute slot renamed by [sigma]. *)
Definition mapSlots (sigma : AccId -> AccId) (prim : Primitive) : Primitive :=
  {| primMode := primMode prim;
     primIndices := primIndices prim;
     primAttributes := slotsMap sigma (primAttributes prim);
     primTargets := map (slotsMap sigma) (primTargets prim) |}.

(** Every accessor in an attribute slot of the primitive or of one of its
    morph targets, with repeats. *)
Definition allSlotIds (prim : Primitive) : list AccId :=
  (primAttributes prim).*2 ++ concat (map (fun t => t.*2) (primTargets prim)).

(** The computation appends to the trace, and only events in [P]. *)
Definition emits {A} (P : Event -> Prop) (m : M A) : Prop :=
  forall w, exists t, trace (snd (m w)) = trace w ++ t /\ Forall P t.

(** Events of the per-primitive phase: calls of the decimator and log
    lines about a primitive. *)
Definition primitiveEvent (e : Event) : Prop :=
  match e with
  | EvSimplify _ _ _ _ _ _ => True
  | EvSimplifyPoints _ _ _ _ _ _ => True
  | EvCompactMesh _ => True
  | EvWarn _ => True
  | EvDebug (VerticesDelta _ _) => True
  | _ => False
  end.

(** The dedup phase, when the caller's pipeline has none pending. *)
Definition dedupPhase (context : option TransformContext) : list Event :=
  if isTransformPending context NAME "dedup" then [] else [EvDedup dedupOptions].

(** The phases of a complete run, around the events of the per-primitive
    phase. *)
Definition phases (context : option TransformContext) (mid : list Event) : list Event :=
  [EvReady; EvWeld {| overwrite := false |}] ++ mid
  ++ [EvPrune pruneOptions] ++ dedupPhase context ++ [EvDebug Complete].

(** The worlds of a run of the transform after each of its phases: the
    weld pass on the document of [w]; the loop over the meshes on what the
    weld pass left; the prune pass on what the loop left; the dedup pass
    on what the prune pass left; and the last line of the log. *)
Definition afterWeld (w : World) : World :=
  {| document := snd (weld {| overwrite := false |} (document w));
     useExperimentalFeatures := useExperimentalFeatures w;
     trace := trace w ++ [EvReady; EvWeld {| overwrite := false |}] |}.

Definition afterLoop (options : RequiredOptions) (s : MeshoptSimplifier) (w : World)
  : World :=
  snd (simplifyMeshes options s (afterWeld w)).

Definition afterPrune (options : RequiredOptions) (s : MeshoptSimplifier) (w : World)
  : World :=
  {| document := snd (prune pruneOptions (document (afterLoop options s w)));
     useExperimentalFeatures := useExperimentalFeatures (afterLoop options s w);
     trace := trace (afterLoop options s w) ++ [EvPrune pruneOptions] |}.

Definition afterDedup (options : RequiredOptions) (s : MeshoptSimplifier) (w : World)
  : World :=
  {| document := snd (dedup dedupOptions (document (afterPrune options s w)));
     useExperimentalFeatures := useExperimentalFeatures (afterPrune options s w);
     trace := trace (afterPrune options s w) ++ [EvDedup dedupOptions] |}.

Definition afterReport (w : World) : World :=
  {| document := document w;
     useExperimentalFeatures := useExperimentalFeatures w;
     trace := trace w ++ [EvDebug Complete] |}.

(** A pass keeps a property of the document, whether it returns or
    throws. *)
Definition passKeeps (I : Document -> Prop) (pass : Pass) : Prop :=
  forall d, I d -> I (snd (pass d)).

(** The draw modes that the loop skips: anything but TRIANGLES, and
    POINTS too when the decimator has no [simplifyPoints]. *)
Definition unsupported (s : MeshoptSimplifier) (prim : Primitive) : Prop :=
  primMode prim <> TRIANGLES /\
  (primMode prim <> POINTS \/ msSimplifyPoints s = None).

(** Primitive [p] is still [prim], still listed by mesh [m], and the
    accessors it pointed at in [d0] still hold what they held. *)
Definition untouched (p : PrimId) (prim : Primitive) (m : MeshId) (name : string)
    (d0 d : Document) : Prop :=
  freshOk d /\
  docPrimitives d !! p = Some prim /\
  (forall x a, references prim x = true -> docAccessors d0 !! x = Some a ->
     docAccessors d !! x = Some a) /\
  (exists mesh, docMeshes d !! m = Some mesh /\ meshName mesh = name /\
                p ∈ meshPrimitives mesh).

(** A primitive that the loop has been through and kept: it is in the
    document, and if it is in a supported mode the count that the loop
    checks is not zero. *)
Definition settled (s : MeshoptSimplifier) (d : Document) (p : PrimId) : Prop :=
  exists prim,
    docPrimitives d !! p = Some prim /\
    (primMode prim = TRIANGLES ->
     exists i a, getIndices d prim = Some (i, a) /\ getCount a <> 0) /\
    (primMode prim = POINTS -> is_Some (msSimplifyPoints s) ->
     exists i a, getAttribute d prim "POSITION" = Some (i, a) /\ getCount a <> 0).

(** A mesh of the document that the loop has been through and kept. *)
Definition meshSettled (s : MeshoptSimplifier) (d : Document) (m : MeshId) : Prop :=
  forall mesh, docMeshes d !! m = Some mesh ->
    meshPrimitives mesh <> [] /\
    forall p, p ∈ meshPrimitives mesh -> settled s d p.

(** Every primitive is listed by one mesh at most. *)
Definition singleParent (d : Document) : Prop :=
  forall m1 m2 mesh1 mesh2 q,
    docMeshes d !! m1 = Some mesh1 -> docMeshes d !! m2 = Some mesh2 ->
    q ∈ meshPrimitives mesh1 -> q ∈ meshPrimitives mesh2 -> m1 = m2.

(** Meshes are not created, and their lists only lose primitives. *)
Definition shrinks (d d' : Document) : Prop :=
  forall m mesh', docMeshes d' !! m = Some mesh' ->
    exists mesh, docMeshes d !! m = Some mesh /\
                 forall q, q ∈ meshPrimitives mesh' -> q ∈ meshPrimitives mesh.

(** Lines 95 and 98: after [simplifyPrimitive], read a count off the
    primitive and dispose the primitive when it is zero. *)
Definition disposeIfEmpty (read : Document -> Primitive -> option (AccId * Accessor))
    (what : string) (q : PrimId) (r : result unit * World) : result unit * World :=
  match r with
  | (Throw e, w1) => (Throw e, w1)
  | (Ok _, w1) =>
    match docPrimitives (document w1) !! q with
    | None => (Throw StaleHandle, w1)
    | Some prim1 =>
      match read (document w1) prim1 with
      | None => (Throw (TypeError what), w1)
      | Some ia =>
        if getCount (snd ia) =? 0
        then (Ok tt, {| document := disposePrimitive q (document w1);
                        useExperimentalFeatures := useExperimentalFeatures w1;
                        trace := trace w1 |})
        else (Ok tt, w1)
      end
    end
  end.

(** The world after lines 194-195: a point primitive that has indices has
    been unwelded. *)
Definition pointsUnwelded (w : World) (A : PrimId) (prim : Primitive) : World :=
  {| document :=
       match getIndices (document w) prim with
       | Some _ => snd (unweldPrimitive A (document w))
       | None => document w
       end;
     useExperimentalFeatures := useExperimentalFeatures w;
     trace := trace w |}.

(** Every attribute accessor of the primitive, those of its morph targets
    included, has an array. *)
Definition attributesHaveArrays (d : Document) (prim : Primitive) : Prop :=
  forall x a, x ∈ allSlotIds prim -> docAccessors d !! x = Some a ->
              is_Some (accArray a).

(** The outcome of lines 194-195. *)
Definition unweldOutcome (w : World) (A : PrimId) (prim : Primitive) : result unit :=
  match getIndices (document w) prim with
  | Some _ => fst (unweldPrimitive A (document w))
  | None => Ok tt
  end.

(** No primitive of the document is one that the loop would simplify in
    point mode: none is in POINTS mode, or the decimator has no
    [simplifyPoints]. *)
Definition noPointsToSimplify (s : MeshoptSimplifier) (d : Document) : Prop :=
  forall p prim, docPrimitives d !! p = Some prim ->
    primMode prim <> POINTS \/ msSimplifyPoints s = None.

(** The triangle entry points of the decimator always return. *)
Definition neverThrows (s : MeshoptSimplifier) : Prop :=
  (forall experimental idx pos stride target err flags,
     exists r, msSimplify s experimental idx pos stride target err flags = Ok r) /\
  (forall experimental idx, exists r, msCompactMesh s experimental idx = Ok r).

(** A primitive whose round asks nothing that is missing: it is in the
    document, and it is in a mode that the loop skips or it is a TRIANGLES
    primitive with indices and a POSITION attribute whose positions come
    out as floats, and each of its attribute slots, those of its morph
    targets included, holds an accessor that has an array. *)
Definition roundReady (s : MeshoptSimplifier) (d : Document) (p : PrimId) : Prop :=
  exists prim,
    docPrimitives d !! p = Some prim /\
    (unsupported s prim
     \/ (primMode prim = TRIANGLES /\ is_Some (getIndices d prim) /\
         (exists pid position positions,
            getAttribute d prim "POSITION" = Some (pid, position) /\
            positionFloats position = Ok positions) /\
         (forall x, x ∈ allSlotIds prim ->
            exists a, docAccessors d !! x = Some a /\ is_Some (accArray a)))).

(** Every primitive listed by mesh [m] is ready. *)
Definition meshReady (s : MeshoptSimplifier) (m : MeshId) (d : Document) : Prop :=
  forall mesh p, docMeshes d !! m = Some mesh -> p ∈ meshPrimitives mesh ->
                 roundReady s d p.

(** No mesh lists a primitive twice. *)
Definition listedOnce (d : Document) : Prop :=
  forall m mesh, docMeshes d !! m = Some mesh -> NoDup (meshPrimitives mesh).

(** The loop keeps handles fresh and only shrinks the meshes. *)
Definition loopStep (d d' : Document) : Prop :=
  (freshOk d -> freshOk d') /\ shrinks d d'.

(** ** Parents and sharing *)

Lemma flat_map_nil_iff {A B} (f : A -> list B) (l : list A) :
  flat_map f l = [] <-> forall x, x ∈ l -> f x = [].
Proof.
  induction l as [|y l IH]; simpl.
  - split; [intros _ x Hx; inversion Hx | done].
  - split.
    + intros H x Hx. apply app_eq_nil in H as [Hy Hl].
      apply elem_of_cons in Hx as [->|Hx]; [done | by apply IH].
    + intros H. rewrite (H y) by (apply elem_of_cons; by left). simpl.
      apply IH. intros x Hx. apply H. apply elem_of_cons. by right.
Qed.

Lemma targetParents_nil_from (a : AccId) (p : PrimId) (g : nat -> nat)
    (ts : list (list (string * AccId))) :
  flat_map (fun it : nat * list (string * AccId) =>
              if slotsRef a (snd it) then [ParentTarget p (fst it)] else [])
           (imap (fun i t => (g i, t)) ts) = []
  <-> existsb (slotsRef a) ts = false.
Proof.
  revert g. induction ts as [|t ts IH]; intros g; simpl; [done|].
  destruct (slotsRef a t); simpl; [split; discriminate|].
  apply (IH (g ∘ S)).
Qed.

Lemma primParents_nil (a : AccId) (p : PrimId) (prim : Primitive) :
  primParents a (p, prim) = [] <-> references prim a = false.
Proof.
  unfold primParents, references, targetParents; simpl.
  pose proof (targetParents_nil_from a p id (primTargets prim)) as Ht.
  destruct (primRefs a prim); simpl.
  - split; discriminate.
  - exact Ht.
Qed.

(** The root is the only parent exactly when no primitive and no morph
    target holds the accessor. *)
Lemma listParents_root_only (d : Document) (a : AccId) :
  length (listParents d a) = 1%nat
  <-> forall q prim, docPrimitives d !! q = Some prim -> references prim a = false.
Proof.
  unfold listParents; simpl. split.
  - intros H q prim Hq.
    assert (Hnil : flat_map (primParents a) (map_to_list (docPrimitives d)) = []).
    { destruct (flat_map _ _); [done | simpl in H; lia]. }
    rewrite flat_map_nil_iff in Hnil.
    apply primParents_nil with (p := q). apply Hnil.
    by apply elem_of_map_to_list.
  - intros H.
    assert (Hnil : flat_map (primParents a) (map_to_list (docPrimitives d)) = []).
    { apply flat_map_nil_iff. intros [q prim] Hx.
      apply primParents_nil. apply (H q). by apply elem_of_map_to_list. }
    by rewrite Hnil.
Qed.

Lemma disposeIfUnused_fields (x : AccId) (d : Document) :
  docNextAccessor (disposeIfUnused x d) = docNextAccessor d /\
  docPrimitives (disposeIfUnused x d) = docPrimitives d /\
  docMeshes (disposeIfUnused x d) = docMeshes d.
Proof. unfold disposeIfUnused. by case_bool_decide. Qed.

Lemma disposeIfUnused_lookup (x y : AccId) (d : Document) :
  docAccessors (disposeIfUnused x d) !! y = docAccessors d !! y
  \/ (y = x /\ docAccessors (disposeIfUnused x d) !! y = None /\
      forall q prim, docPrimitives d !! q = Some prim -> references prim x = false).
Proof.
  unfold disposeIfUnused. case_bool_decide as Hlen; [|by left].
  simpl. destruct (decide (y = x)) as [->|Hne].
  - right. split; [done|]. split; [apply lookup_delete_eq|].
    by apply listParents_root_only.
  - left. by apply lookup_delete_ne.
Qed.

(** ** [evolves] and [frame] are preorders *)

Lemma evolves_refl (p : PrimId) (d : Document) : evolves p d d.
Proof. repeat split; auto. Qed.

Lemma evolves_trans (p : PrimId) (d1 d2 d3 : Document) :
  evolves p d1 d2 -> evolves p d2 d3 -> evolves p d1 d3.
Proof.
  intros (Hn12 & Hm12 & Hp12 & Hs12 & H12) (Hn23 & Hm23 & Hp23 & Hs23 & H23).
  split; [lia|]. split; [congruence|].
  split; [intros q Hq; rewrite Hp23, Hp12; done|].
  split; [congruence|].
  intros Hf1.
  destruct (H12 Hf1) as (Hf2 & Ha12). destruct (H23 Hf2) as (Hf3 & Ha23).
  split; [done|].
  intros x Hx.
  assert (Hun : unshared d2 p x -> unshared d1 p x).
  { intros Hu q prim Hq Hprim. apply (Hu q prim Hq). by rewrite Hp12. }
  destruct (Ha23 x ltac:(lia)) as [E23|[E23 U23]];
    destruct (Ha12 x Hx) as [E12|[E12 U12]].
  - left. congruence.
  - right. split; [congruence | done].
  - right. split; [done | auto].
  - right. split; [done | done].
Qed.

(** An operation on [p] leaves every other primitive framed. *)
Lemma evolves_frame (p q : PrimId) (d d' : Document) :
  q <> p -> evolves p d d' -> frame q d d'.
Proof.
  intros Hqp (Hn & Hm & Hp & Hs & He) Hf.
  destruct (He Hf) as (Hf' & Ha).
  split; [done|]. split; [by apply Hp|].
  intros prim x a Hprim Hr Hx.
  assert (Hlt : (x < docNextAccessor d)%nat) by (apply Hf; eauto).
  destruct (Ha x Hlt) as [E|[_ Hu]]; [congruence|].
  rewrite (Hu q prim Hqp Hprim) in Hr. discriminate.
Qed.

(** ** The document operations stay within [evolves] *)

Lemma createAccessor_evolves (p : PrimId) (a : Accessor) (d : Document) :
  evolves p d (snd (createAccessor a d)).
Proof.
  unfold evolves, createAccessor; simpl.
  split; [lia|]. split; [done|]. split; [done|]. split; [done|].
  intros Hf. split.
  { intros x Hx. simpl in *.
    destruct (decide (x = docNextAccessor d)) as [->|Hne]; [lia|].
    rewrite lookup_insert_ne in Hx by done. apply Hf in Hx. lia. }
  intros x Hx. left. apply lookup_insert_ne. lia.
Qed.

Lemma updatePrimitive_evolves (f : Primitive -> Primitive) (p : PrimId) (d : Document) :
  (forall prim, primMode (f prim) = primMode prim) ->
  evolves p d (updatePrimitive f p d).
Proof.
  intros Hmode. unfold evolves, updatePrimitive; simpl.
  split; [lia|]. split; [done|].
  split; [intros q Hq; by apply lookup_alter_ne|].
  split.
  { rewrite lookup_alter_eq. destruct (docPrimitives d !! p); simpl; [|done].
    by rewrite Hmode. }
  intros Hf. split; [done | by left].
Qed.

Lemma disposeIfUnused_evolves (p : PrimId) (src : AccId) (d : Document) :
  evolves p d (disposeIfUnused src d).
Proof.
  destruct (disposeIfUnused_fields src d) as (Hn & Hp & Hm).
  split; [lia|]. split; [done|]. split; [by rewrite Hp|]. split; [by rewrite Hp|].
  intros Hf. split.
  { intros x Hx. rewrite Hn.
    destruct (disposeIfUnused_lookup src x d) as [E|(-> & E & _)].
    - rewrite E in Hx. by apply Hf.
    - rewrite E in Hx. by destruct Hx. }
  intros x Hx.
  destruct (disposeIfUnused_lookup src x d) as [E|(-> & E & Hu)]; [by left|].
  right. split; [done|]. intros q prim _ Hq. by apply (Hu q).
Qed.

Lemma swapAttribute_evolves (p : PrimId) (src dst : AccId) (d : Document) :
  evolves p d (swapAttribute p src dst d).
Proof.
  unfold swapAttribute.
  eapply evolves_trans; [|apply disposeIfUnused_evolves].
  by apply updatePrimitive_evolves.
Qed.

(** Rewriting the clone that was just made is making the rewritten
    accessor in the first place. *)
Lemma setAccessor_createAccessor (a a' : Accessor) (d : Document) :
  setAccessor (docNextAccessor d) a' (snd (createAccessor a d))
  = snd (createAccessor a' d).
Proof.
  unfold setAccessor, createAccessor; simpl. f_equal. apply insert_insert_eq.
Qed.

(** The three outcomes of one round of the attribute loop. *)
Lemma replaceAttribute_none (rewrite : Accessor -> result Accessor) (p : PrimId)
    (d : Document) (src : AccId) :
  docAccessors d !! src = None -> replaceAttribute rewrite p d src = (Ok tt, d).
Proof. intros H. unfold replaceAttribute. by rewrite H. Qed.

Lemma replaceAttribute_ok (rewrite : Accessor -> result Accessor) (p : PrimId)
    (d : Document) (src : AccId) (a a' : Accessor) :
  docAccessors d !! src = Some a -> rewrite a = Ok a' ->
  replaceAttribute rewrite p d src
  = (Ok tt, swapAttribute p src (docNextAccessor d) (snd (createAccessor a' d))).
Proof.
  intros H Hr. unfold replaceAttribute. rewrite H.
  cbn [createAccessor]. rewrite Hr.
  by rewrite <- (setAccessor_createAccessor a a').
Qed.

Lemma replaceAttribute_throw (rewrite : Accessor -> result Accessor) (p : PrimId)
    (d : Document) (src : AccId) (a : Accessor) (e : Exn) :
  docAccessors d !! src = Some a -> rewrite a = Throw e ->
  replaceAttribute rewrite p d src = (Throw e, snd (createAccessor a d)).
Proof.
  intros H Hr. unfold replaceAttribute. rewrite H.
  cbn [createAccessor]. by rewrite Hr.
Qed.

Lemma replaceAttribute_evolves (rewrite : Accessor -> result Accessor) (p : PrimId)
    (d : Document) (src : AccId) :
  evolves p d (snd (replaceAttribute rewrite p d src)).
Proof.
  destruct (docAccessors d !! src) as [a|] eqn:Ha.
  2:{ rewrite replaceAttribute_none by done. apply evolves_refl. }
  destruct (rewrite a) as [a'|e] eqn:Hr.
  - rewrite (replaceAttribute_ok rewrite p d src a a') by done. cbn [snd].
    eapply evolves_trans; [apply createAccessor_evolves | apply swapAttribute_evolves].
  - rewrite (replaceAttribute_throw rewrite p d src a e) by done. cbn [snd].
    apply createAccessor_evolves.
Qed.

Lemma attributeLoop_evolves (p : PrimId)
    (round : Document -> AccId -> result unit * Document)
    (l : list AccId) (d : Document) :
  (forall d x, evolves p d (snd (round d x))) ->
  evolves p d (snd (attributeLoop round l d)).
Proof.
  intros Hround. revert d. induction l as [|x l IH]; intros d; simpl.
  - apply evolves_refl.
  - specialize (Hround d x). destruct (round d x) as [[[]|e] d1]; simpl in *.
    + eapply evolves_trans; [exact Hround | apply IH].
    + exact Hround.
Qed.

Lemma replaceAttributes_evolves (rewrite : Accessor -> result Accessor) (p : PrimId)
    (d : Document) :
  evolves p d (snd (replaceAttributes rewrite p d)).
Proof.
  unfold replaceAttributes.
  destruct (docPrimitives d !! p); [|apply evolves_refl].
  apply attributeLoop_evolves. intros d0 x. apply replaceAttribute_evolves.
Qed.

Lemma replaceIndices_evolves (p : PrimId) (src : AccId) (srcIndices : Accessor)
    (arr : TypedArray) (d : Document) :
  evolves p d (replaceIndices p src srcIndices arr d).
Proof.
  unfold replaceIndices.
  pose proof (createAccessor_evolves p (setArray arr srcIndices) d) as H1.
  destruct (createAccessor (setArray arr srcIndices) d) as [dst d1]; simpl in H1.
  eapply evolves_trans; [exact H1|].
  eapply evolves_trans; [|apply disposeIfUnused_evolves].
  by apply updatePrimitive_evolves.
Qed.

Lemma unweldRound_evolves (indices : Accessor) (p : PrimId) (d : Document)
    (src : AccId) :
  evolves p d (snd (unweldRound indices p d src)).
Proof.
  unfold unweldRound.
  destruct (docAccessors d !! src) as [a|]; [|apply evolves_refl].
  destruct (unweldAttribute indices a) as [a'|e]; [|apply evolves_refl].
  cbn [createAccessor snd].
  eapply evolves_trans; [apply (createAccessor_evolves p a') | apply swapAttribute_evolves].
Qed.

Lemma unweldPrimitive_evolves (p : PrimId) (d : Document) :
  evolves p d (snd (unweldPrimitive p d)).
Proof.
  unfold unweldPrimitive.
  destruct (docPrimitives d !! p) as [prim|]; [|apply evolves_refl].
  destruct (getIndices d prim) as [[iid indices]|]; [|apply evolves_refl].
  destruct (getAttribute d prim "POSITION"); [|apply evolves_refl].
  pose proof (attributeLoop_evolves p (unweldRound indices p) (deepListAttributes prim) d
                (fun d0 x => unweldRound_evolves indices p d0 x)) as Hloop.
  destruct (attributeLoop _ _ _) as [[[]|e] d1]; simpl in *; [|exact Hloop].
  eapply evolves_trans; [exact Hloop|].
  eapply evolves_trans; [|apply disposeIfUnused_evolves].
  by apply updatePrimitive_evolves.
Qed.

(** ** Rules for [preserves] *)

Section Preserves.

Variable R : Document -> Document -> Prop.
Hypothesis R_refl : forall d, R d d.
Hypothesis R_trans : forall d1 d2 d3, R d1 d2 -> R d2 d3 -> R d1 d3.

Lemma preserves_ret {A} (a : A) : preserves R (ret a).
Proof. intros w. apply R_refl. Qed.

Lemma preserves_throw {A} (e : Exn) : preserves R (throw (A := A) e).
Proof. intros w. apply R_refl. Qed.

Lemma preserves_liftResult {A} (r : result A) : preserves R (liftResult r).
Proof. intros w. apply R_refl. Qed.

Lemma preserves_gets {A} (f : World -> A) : preserves R (gets f).
Proof. intros w. apply R_refl. Qed.

Lemma preserves_emit (e : Event) : preserves R (emit e).
Proof. intros w. apply R_refl. Qed.

Lemma preserves_setExperimental (b : bool) : preserves R (setExperimental b).
Proof. intros w. apply R_refl. Qed.

Lemma preserves_nonNull {A} (what : string) (o : option A) : preserves R (nonNull what o).
Proof. destruct o; [apply preserves_ret | apply preserves_throw]. Qed.

Lemma preserves_getPrimitive (p : PrimId) : preserves R (getPrimitive p).
Proof. intros w. unfold getPrimitive. destruct (_ !! _); apply R_refl. Qed.

Lemma preserves_modifyDocument (f : Document -> Document) :
  (forall d, R d (f d)) -> preserves R (modifyDocument f).
Proof. intros Hf w. apply Hf. Qed.

Lemma preserves_updateDocument (f : Document -> result unit * Document) :
  (forall d, R d (snd (f d))) -> preserves R (updateDocument f).
Proof. intros Hf w. apply Hf. Qed.

Lemma preserves_bind {A B} (m : M A) (k : A -> M B) :
  preserves R m -> (forall a, preserves R (k a)) -> preserves R (bind m k).
Proof.
  intros Hm Hk w. unfold bind.
  specialize (Hm w). destruct (m w) as [[a|e] w1]; simpl in *; [|done].
  eapply R_trans; [exact Hm | apply Hk].
Qed.

Lemma preserves_forEach {A} (l : list A) (body : A -> M unit) :
  (forall x, x ∈ l -> preserves R (body x)) -> preserves R (forEach l body).
Proof.
  induction l as [|x l IH]; intros Hbody; simpl.
  - apply preserves_ret.
  - apply preserves_bind.
    + apply Hbody. apply elem_of_cons. by left.
    + intros _. apply IH. intros y Hy. apply Hbody. apply elem_of_cons. by right.
Qed.

Lemma preserves_callSimplify (s : MeshoptSimplifier) idx pos stride target err flags :
  preserves R (callSimplify s idx pos stride target err flags).
Proof.
  unfold callSimplify.
  apply preserves_bind; [apply preserves_emit | intros _].
  apply preserves_bind; [apply preserves_gets | intros e].
  apply preserves_liftResult.
Qed.

Lemma preserves_callCompactMesh (s : MeshoptSimplifier) idx :
  preserves R (callCompactMesh s idx).
Proof.
  unfold callCompactMesh.
  apply preserves_bind; [apply preserves_emit | intros _].
  apply preserves_bind; [apply preserves_gets | intros e].
  apply preserves_liftResult.
Qed.

Lemma preserves_callSimplifyPoints (s : MeshoptSimplifier) pos stride target col cs :
  preserves R (callSimplifyPoints s pos stride target col cs).
Proof.
  unfold callSimplifyPoints.
  apply preserves_bind; [apply preserves_nonNull | intros f].
  apply preserves_bind; [apply preserves_gets | intros e].
  apply preserves_bind; [apply preserves_emit | intros _].
  apply preserves_liftResult.
Qed.

End Preserves.

Lemma preserves_mono {A} (R R' : Document -> Document -> Prop) (m : M A) :
  (forall d d', R d d' -> R' d d') -> preserves R m -> preserves R' m.
Proof. intros HR Hm w. apply HR, Hm. Qed.

(** Walks a monadic term, leaving the document updates to the caller. *)
Ltac preserves_walk refl trans :=
  repeat match goal with
  | |- forall _, _ => intro
  | |- preserves _ (bind _ _) => apply preserves_bind; try exact trans
  | |- preserves _ (ret _) => apply preserves_ret; exact refl
  | |- preserves _ (throw _) => apply preserves_throw; exact refl
  | |- preserves _ (nonNull _ _) => apply preserves_nonNull; exact refl
  | |- preserves _ (gets _) => apply preserves_gets; exact refl
  | |- preserves _ (emit _) => apply preserves_emit; exact refl
  | |- preserves _ (liftResult _) => apply preserves_liftResult; exact refl
  | |- preserves _ (setExperimental _) => apply preserves_setExperimental; exact refl
  | |- preserves _ (getPrimitive _) => apply preserves_getPrimitive; exact refl
  | |- preserves _ (callSimplify _ _ _ _ _ _ _) =>
    apply preserves_callSimplify; [exact refl | exact trans]
  | |- preserves _ (callCompactMesh _ _) =>
    apply preserves_callCompactMesh; [exact refl | exact trans]
  | |- preserves _ (callSimplifyPoints _ _ _ _ _ _) =>
    apply preserves_callSimplifyPoints; [exact refl | exact trans]
  | |- preserves _ (modifyDocument _) => apply preserves_modifyDocument
  | |- preserves _ (updateDocument _) => apply preserves_updateDocument
  | |- preserves _ (colorComponentSize _) => unfold colorComponentSize
  | |- preserves _ (forEach _ _) =>
    apply preserves_forEach; try exact refl; try exact trans
  | |- preserves _ (match ?x with _ => _ end) => destruct x
  end.

Lemma simplifyPoints_evolves (p : PrimId) (options : RequiredOptions) :
  preserves (evolves p) (_simplifyPoints p options).
Proof.
  unfold _simplifyPoints.
  preserves_walk (evolves_refl p) (evolves_trans p);
    auto using unweldPrimitive_evolves, replaceAttributes_evolves.
Qed.

Lemma simplifyPrimitive_evolves (p : PrimId) (_options : SimplifyOptions) :
  preserves (evolves p) (simplifyPrimitive p _options).
Proof.
  unfold simplifyPrimitive.
  preserves_walk (evolves_refl p) (evolves_trans p);
    auto using simplifyPoints_evolves, replaceAttributes_evolves, replaceIndices_evolves.
Qed.

(** ** The triangle path of [simplifyPrimitive], step by step *)

Ltac run_monad :=
  unfold bind, getPrimitive, gets, nonNull, ret, throw, callSimplify, callCompactMesh,
    emit, liftResult, modifyDocument, updateDocument, setExperimental;
  cbn [fst snd document useExperimentalFeatures trace].

(** The triangle path, one case for each place where it can stop. *)
Lemma simplifyPrimitive_triangles_run (w : World) (A : PrimId)
    (_options : SimplifyOptions) (prim : Primitive) :
  docPrimitives (document w) !! A = Some prim ->
  primMode prim <> POINTS ->
  let options := withDefaults _options in
  simplifyPrimitive A _options w =
    match getIndices (document w) prim with
    | None => (Throw (TypeError "srcIndices.getCount"), w)
    | Some (iid, srcIndices) =>
      match getAttribute (document w) prim "POSITION" with
      | None => (Throw (TypeError "position.getCount"), w)
      | Some (_, position) =>
        match positionFloats position with
        | Throw e => (Throw e, w)
        | Ok positions =>
          match simplifier options with
          | None => (Throw (TypeError "simplifier.simplify"), w)
          | Some s =>
            let called :=
              {| document := document w;
                 useExperimentalFeatures := useExperimentalFeatures w;
                 trace := trace w ++ [simplifyCall options srcIndices positions] |} in
            match msSimplify s (useExperimentalFeatures w) (indexUint32 srcIndices)
                    positions 3
                    (targetIndexCount (ratio options) (getCount srcIndices))
                    (error options) (lockFlags (lockBorder options)) with
            | Throw e => (Throw e, called)
            | Ok simplified =>
              match msCompactMesh s (useExperimentalFeatures w) (fst simplified) with
              | Throw e =>
                (Throw e,
                 {| document := document w;
                    useExperimentalFeatures := useExperimentalFeatures w;
                    trace := trace called ++ [EvCompactMesh (fst simplified)] |})
              | Ok (dst, remap, unique) =>
                match fst (replaceAttributes (remapAttribute remap unique) A
                                             (document w)) with
                | Throw e =>
                  (Throw e,
                   triangleRemapped w A options srcIndices position positions
                                    (fst simplified) remap unique)
                | Ok _ =>
                  (Ok tt,
                   triangleResult w A options iid srcIndices position positions
                                  (fst simplified) dst remap unique)
                end
              end
            end
          end
        end
      end
    end.
Proof.
  intros Hprim Hmode options. subst options.
  unfold simplifyPrimitive. run_monad.
  rewrite Hprim. rewrite bool_decide_eq_false_2 by done.
  destruct (getIndices (document w) prim) as [[iid srcIndices]|]; run_monad;
    [|by destruct w].
  destruct (getAttribute (document w) prim "POSITION") as [[pid position]|]; run_monad;
    [|by destruct w].
  destruct (positionFloats position) as [positions|e]; run_monad; [|by destruct w].
  destruct (simplifier (withDefaults _options)) as [s|]; run_monad; [|by destruct w].
  unfold simplifyCall.
  destruct (msSimplify _ _ _ _ _ _ _ _) as [simplified|e]; run_monad; [|done].
  destruct (msCompactMesh _ _ _) as [[[dst remap] unique]|e]; run_monad;
    [|by rewrite <- app_assoc].
  unfold triangleResult, triangleRemapped, simplifyCall.
  cbn [document useExperimentalFeatures trace].
  destruct (fst (replaceAttributes _ _ _)) as [[]|e]; rewrite <- !app_assoc; reflexivity.
Qed.

Lemma simplifyPrimitive_triangles (w : World) (A : PrimId) (_options : SimplifyOptions)
    (prim : Primitive) (iid pid : AccId) (srcIndices position : Accessor)
    (positions : list F)
    (s : MeshoptSimplifier) (simplified : list Z * Q) (dst remap : list Z) (unique : Z) :
  docPrimitives (document w) !! A = Some prim ->
  primMode prim <> POINTS ->
  getIndices (document w) prim = Some (iid, srcIndices) ->
  getAttribute (document w) prim "POSITION" = Some (pid, position) ->
  positionFloats position = Ok positions ->
  simplifier (withDefaults _options) = Some s ->
  msSimplify s (useExperimentalFeatures w) (indexUint32 srcIndices) positions 3
    (targetIndexCount (ratio (withDefaults _options)) (getCount srcIndices))
    (error (withDefaults _options))
    (lockFlags (lockBorder (withDefaults _options))) = Ok simplified ->
  msCompactMesh s (useExperimentalFeatures w) (fst simplified) = Ok (dst, remap, unique) ->
  fst (replaceAttributes (remapAttribute remap unique) A (document w)) = Ok tt ->
  simplifyPrimitive A _options w =
    (Ok tt, triangleResult w A (withDefaults _options) iid srcIndices position positions
                           (fst simplified) dst remap unique).
Proof.
  intros Hprim Hmode Hidx Hpos Hfloats Hs Hsimp Hcomp Hloop.
  rewrite (simplifyPrimitive_triangles_run w A _options prim Hprim Hmode). cbv zeta.
  by rewrite Hidx, Hpos, Hfloats, Hs, Hsimp, Hcomp, Hloop.
Qed.

(** Conversely, a triangle-path call that returns went through every one
    of these steps. *)
Lemma simplifyPrimitive_triangles_inv (w : World) (A : PrimId)
    (_options : SimplifyOptions) (prim : Primitive) :
  docPrimitives (document w) !! A = Some prim ->
  primMode prim <> POINTS ->
  fst (simplifyPrimitive A _options w) = Ok tt ->
  exists iid pid srcIndices position positions s simplified dst remap unique,
    getIndices (document w) prim = Some (iid, srcIndices) /\
    getAttribute (document w) prim "POSITION" = Some (pid, position) /\
    positionFloats position = Ok positions /\
    simplifier (withDefaults _options) = Some s /\
    msSimplify s (useExperimentalFeatures w) (indexUint32 srcIndices) positions 3
      (targetIndexCount (ratio (withDefaults _options)) (getCount srcIndices))
      (error (withDefaults _options))
      (lockFlags (lockBorder (withDefaults _options))) = Ok simplified /\
    msCompactMesh s (useExperimentalFeatures w) (fst simplified) = Ok (dst, remap, unique) /\
    fst (replaceAttributes (remapAttribute remap unique) A (document w)) = Ok tt /\
    snd (simplifyPrimitive A _options w) =
      triangleResult w A (withDefaults _options) iid srcIndices position positions
        (fst simplified) dst remap unique.
Proof.
  intros Hprim Hmode.
  rewrite (simplifyPrimitive_triangles_run w A _options prim Hprim Hmode). cbv zeta.
  destruct (getIndices (document w) prim) as [[iid srcIndices]|]; [|discriminate].
  destruct (getAttribute (document w) prim "POSITION") as [[pid position]|];
    [|discriminate].
  destruct (positionFloats position) as [positions|e] eqn:Hfloats; [|discriminate].
  destruct (simplifier (withDefaults _options)) as [s|]; [|discriminate].
  destruct (msSimplify _ _ _ _ _ _ _ _) as [simplified|e] eqn:Hsimp; [|discriminate].
  destruct (msCompactMesh _ _ _) as [[[dst remap] unique]|e] eqn:Hcomp; [|discriminate].
  destruct (fst (replaceAttributes _ _ _)) as [[]|e] eqn:Hloop; [|discriminate].
  intros _.
  by exists iid, pid, srcIndices, position, positions, s, simplified, dst, remap, unique.
Qed.

(** ** Rounding to a double *)


Lemma pow2_nonpos (e : Z) : e <= 0 -> (pow2 e == / inject_Z (2 ^ (- e)))%Q.
Proof.
  intros He. unfold pow2. destruct (0 <=? e) eqn:E; [|reflexivity].
  apply Z.leb_le in E. assert (e = 0) as -> by lia. reflexivity.
Qed.

Lemma inject_Z_pow2_pos (k : Z) : 0 <= k -> (0 < inject_Z (2 ^ k))%Q.
Proof.
  intros Hk. change 0%Q with (inject_Z 0). rewrite <- Zlt_Qlt.
  apply Z.pow_pos_nonneg; lia.
Qed.

Lemma ilog2_small (x : Q) : (0 < x)%Q -> (x < inject_Z (2 ^ 51))%Q -> ilog2 x <= 50.
Proof.
  intros Hpos Hlt. unfold ilog2. destruct (Qle_bool 1 x) eqn:E.
  - apply Qle_bool_iff in E.
    assert (H1 : 1 <= Qfloor x).
    { change 1 with (Qfloor 1). by apply Qfloor_resp_le. }
    assert (H2 : Qfloor x < 2 ^ 51).
    { rewrite Zlt_Qlt. apply Qle_lt_trans with x; [apply Qfloor_le | exact Hlt]. }
    assert (Z.log2 (Qfloor x) < 51) by (apply Z.log2_lt_pow2; lia).
    lia.
  - pose proof (Z.log2_up_nonneg (Qceiling (/ x))). lia.
Qed.

Lemma roundHalfEven_le (z : Q) (m : Z) : (z <= inject_Z m)%Q -> roundHalfEven z <= m.
Proof.
  intros Hz. unfold roundHalfEven.
  assert (Hf : Qfloor z <= m).
  { rewrite <- (Qfloor_Z m). by apply Qfloor_resp_le. }
  destruct (Z.eq_dec (Qfloor z) m) as [Heq|Hne].
  - assert (Hcmp : (z - inject_Z (Qfloor z) ?= 1 # 2)%Q = Lt).
    { rewrite <- Qlt_alt. rewrite Heq. lra. }
    rewrite Hcmp. lia.
  - destruct (z - inject_Z (Qfloor z) ?= 1 # 2)%Q; [destruct (Z.even _)| |]; lia.
Qed.

Lemma roundHalfEven_ge (z : Q) (m : Z) : (inject_Z m <= z)%Q -> m <= roundHalfEven z.
Proof.
  intros Hz. unfold roundHalfEven.
  assert (Hf : m <= Qfloor z).
  { rewrite <- (Qfloor_Z m). by apply Qfloor_resp_le. }
  destruct (z - inject_Z (Qfloor z) ?= 1 # 2)%Q; [destruct (Z.even _)| |]; lia.
Qed.

Lemma quantum_small (x : Q) :
  (0 < x)%Q -> (x < inject_Z (2 ^ 51))%Q -> -1074 <= quantum x <= -2.
Proof.
  intros Hpos Hlt. unfold quantum.
  assert (Habs : (Qabs x == x)%Q) by (apply Qabs_pos; lra).
  assert (ilog2 (Qabs x) <= 50); [|lia].
  apply ilog2_small; rewrite Habs; assumption.
Qed.

Lemma quarter_scaled (m k : Z) :
  2 <= k -> ((m # 4) * inject_Z (2 ^ k) == inject_Z (m * 2 ^ (k - 2)))%Q.
Proof.
  intros Hk. replace (2 ^ k) with (4 * 2 ^ (k - 2)).
  - unfold Qeq, Qmult, inject_Z; cbn [Qnum Qden]. change (Z.pos (4 * 1)) with 4. ring.
  - change 4 with (2 ^ 2). rewrite <- Z.pow_add_r by lia. f_equal. lia.
Qed.

(** Rounding a value that lies between two multiples of 1/4, from 0 to
    2^51, gives a finite value between the same two: the multiples of 1/4
    in that range are representable. *)
Lemma roundDouble_between (x : Q) (lo hi : Z) :
  (0 <= x)%Q -> (lo # 4 <= x)%Q -> (x <= hi # 4)%Q -> (hi # 4 < inject_Z (2 ^ 51))%Q ->
  exists y, roundDouble x = Finite y /\ Qred y = y /\
            (0 <= y)%Q /\ (lo # 4 <= y)%Q /\ (y <= hi # 4)%Q.
Proof.
  intros Hx Hlo Hhi Hm. unfold roundDouble.
  destruct (Qeq_bool x 0) eqn:E0.
  { apply Qeq_bool_iff in E0.
    exists 0%Q. split; [reflexivity|]. split; [reflexivity|]. split; [lra|]. split; lra. }
  assert (Hpos : (0 < x)%Q).
  { apply Qeq_bool_neq in E0. lra. }
  destruct (quantum_small x Hpos) as [_ Hq]; [lra|].
  set (k := - quantum x).
  assert (Hk : 2 <= k) by (unfold k; lia).
  pose proof (pow2_nonpos (quantum x) ltac:(lia)) as Hu. fold k in Hu.
  pose proof (inject_Z_pow2_pos k ltac:(lia)) as HP.
  pose proof (quarter_scaled hi k Hk) as Hscaled.
  pose proof (quarter_scaled lo k Hk) as Hscaled0.
  set (u := pow2 (quantum x)) in *.
  set (P := inject_Z (2 ^ k)) in *.
  assert (Hdiv : (x / u == x * P)%Q).
  { rewrite Hu. field. lra. }
  assert (Hr1 : roundHalfEven (x / u) <= hi * 2 ^ (k - 2)).
  { apply roundHalfEven_le. rewrite Hdiv, <- Hscaled. nra. }
  assert (Hr0 : 0 <= roundHalfEven (x / u)).
  { apply roundHalfEven_ge. rewrite Hdiv. change (inject_Z 0) with 0%Q. nra. }
  assert (Hr2 : lo * 2 ^ (k - 2) <= roundHalfEven (x / u)).
  { apply roundHalfEven_ge. rewrite Hdiv, <- Hscaled0. nra. }
  set (r := roundHalfEven (x / u)) in *.
  assert (Hy : (Qred (inject_Z r * u) == inject_Z r / P)%Q).
  { rewrite Qred_correct, Hu. field. lra. }
  assert (Hr0' : (0 <= inject_Z r)%Q).
  { change 0%Q with (inject_Z 0). by rewrite <- Zle_Qle. }
  assert (Hr1' : (inject_Z r <= (hi # 4) * P)%Q).
  { rewrite Hscaled. by rewrite <- Zle_Qle. }
  assert (Hr2' : ((lo # 4) * P <= inject_Z r)%Q).
  { rewrite Hscaled0. by rewrite <- Zle_Qle. }
  assert (Hy0 : (0 <= Qred (inject_Z r * u))%Q).
  { rewrite Hy. apply Qle_shift_div_l; [exact HP | lra]. }
  assert (Hy1 : (Qred (inject_Z r * u) <= hi # 4)%Q).
  { rewrite Hy. apply Qle_shift_div_r; [exact HP | lra]. }
  assert (Hy2 : (lo # 4 <= Qred (inject_Z r * u))%Q).
  { rewrite Hy. apply Qle_shift_div_l; [exact HP | lra]. }
  assert (Hfin : Qle_bool (pow2 1024) (Qabs (Qred (inject_Z r * u))) = false).
  { apply not_true_is_false. intros Hbig. apply Qle_bool_iff in Hbig.
    rewrite Qabs_pos in Hbig by exact Hy0.
    assert (Hpow : (inject_Z (2 ^ 51) < pow2 1024)%Q).
    { unfold pow2. change (0 <=? 1024) with true. cbv iota.
      rewrite <- Zlt_Qlt. apply Z.pow_lt_mono_r; lia. }
    lra. }
  rewrite Hfin. eexists. split; [reflexivity|]. split; [apply Qred_involutive|].
  repeat split; assumption.
Qed.

Lemma Qred_inject_Z (n : Z) : Qred (inject_Z n) = inject_Z n.
Proof. apply Qred_identity. simpl. apply Z.gcd_1_r. Qed.

Lemma inject_Z_quarters (n : Z) : (inject_Z n == 4 * n # 4)%Q.
Proof. unfold Qeq, inject_Z; cbn [Qnum Qden]. lia. Qed.

(** Integers from 0 to 2^51 are doubles. *)
Lemma roundDouble_exact (n : Z) :
  0 <= n < 2 ^ 51 -> roundDouble (inject_Z n) = Finite (inject_Z n).
Proof.
  intros [Hn0 Hn1].
  pose proof (inject_Z_quarters n) as Hq.
  destruct (roundDouble_between (inject_Z n) (4 * n) (4 * n)) as (y & Hy & Hred & _ & Hlo & Hhi).
  - change 0%Q with (inject_Z 0). by rewrite <- Zle_Qle.
  - rewrite <- Hq. apply Qle_refl.
  - rewrite <- Hq. apply Qle_refl.
  - rewrite <- Hq. by rewrite <- Zlt_Qlt.
  - rewrite Hy. f_equal. rewrite <- Hred, <- Qred_inject_Z.
    apply Qred_complete. rewrite <- Hq in Hlo, Hhi. by apply Qle_antisym.
Qed.

Lemma ilog2_comp (x y : Q) : (x == y)%Q -> ilog2 x = ilog2 y.
Proof.
  intros H. unfold ilog2.
  assert (H1 : Qle_bool 1 x = Qle_bool 1 y) by (rewrite H; reflexivity).
  assert (H2 : Qfloor x = Qfloor y) by (rewrite H; reflexivity).
  assert (H3 : Qceiling (/ x) = Qceiling (/ y)) by (rewrite H; reflexivity).
  by rewrite H1, H2, H3.
Qed.

Lemma roundHalfEven_comp (x y : Q) : (x == y)%Q -> roundHalfEven x = roundHalfEven y.
Proof.
  intros H. unfold roundHalfEven.
  assert (H1 : Qfloor x = Qfloor y) by (rewrite H; reflexivity).
  rewrite H1.
  assert (H2 : (x - inject_Z (Qfloor y) ?= 1 # 2)%Q = (y - inject_Z (Qfloor y) ?= 1 # 2)%Q)
    by (rewrite H; reflexivity).
  by rewrite H2.
Qed.

Lemma roundDouble_comp (x y : Q) : (x == y)%Q -> roundDouble x = roundDouble y.
Proof.
  intros H. unfold roundDouble, quantum.
  rewrite (ilog2_comp (Qabs x) (Qabs y)) by (rewrite H; reflexivity).
  set (u := pow2 (Z.max _ _)).
  rewrite (roundHalfEven_comp (x / u) (y / u)) by (rewrite H; reflexivity).
  assert (H1 : Qeq_bool x 0 = Qeq_bool y 0) by (rewrite H; reflexivity).
  assert (H2 : Qle_bool 0 x = Qle_bool 0 y) by (rewrite H; reflexivity).
  by rewrite H1, H2.
Qed.

(** ** The target counts *)

Lemma inject_Z_nonneg (n : Z) : 0 <= n -> (0 <= inject_Z n)%Q.
Proof. intros Hn. change 0%Q with (inject_Z 0). by rewrite <- Zle_Qle. Qed.

Lemma quarters_value (m : Z) : (m # 4 == inject_Z m / 4)%Q.
Proof. unfold Qeq, Qdiv, Qmult, Qinv, inject_Z; cbn. lia. Qed.

Lemma product_rounded (r : Q) (n : Z) :
  (0 <= r)%Q -> (r <= 1)%Q -> 0 <= n < 2 ^ 51 ->
  exists a, roundDouble (r * inject_Z n) = Finite a /\ (0 <= a)%Q /\ (a <= inject_Z n)%Q.
Proof.
  intros Hr0 Hr1 [Hn0 Hn1].
  pose proof (inject_Z_nonneg n Hn0) as Hn.
  pose proof (inject_Z_quarters n) as Hq.
  destruct (roundDouble_between (r * inject_Z n) 0 (4 * n)) as (a & Ha & _ & Ha0 & _ & Ha1).
  - nra.
  - assert (E : (0 # 4 == 0)%Q) by reflexivity. rewrite E. nra.
  - rewrite <- Hq. nra.
  - rewrite <- Hq. by rewrite <- Zlt_Qlt.
  - exists a. rewrite <- Hq in Ha1. auto.
Qed.

Lemma targetIndexCount_bounded (r : Q) (n : Z) :
  (0 <= r)%Q -> (r <= 1)%Q -> 0 <= n < 2 ^ 51 ->
  exists t, targetIndexCount (Some (Finite r)) n = Finite (inject_Z t) /\
            t mod 3 = 0 /\ 0 <= t <= n.
Proof.
  intros Hr0 Hr1 Hn.
  destruct (product_rounded r n Hr0 Hr1 Hn) as (a & Ha & Ha0 & Ha1).
  unfold targetIndexCount. cbn [toNumber ofCount nmul]. rewrite Ha. cbn [ndivPos].
  set (k := n / 3).
  assert (Hk : 3 * k <= n <= 3 * k + 2).
  { unfold k. pose proof (Z.div_mod n 3 ltac:(lia)). pose proof (Z.mod_pos_bound n 3). lia. }
  clearbody k.
  assert (Hn' : (inject_Z n <= 3 * inject_Z k + 2)%Q).
  { change 3%Q with (inject_Z 3). change 2%Q with (inject_Z 2).
    rewrite <- inject_Z_mult, <- inject_Z_plus, <- Zle_Qle. lia. }
  assert (Hcap : (4 * k + 3 # 4 == inject_Z k + (3 # 4))%Q).
  { rewrite quarters_value, inject_Z_plus, inject_Z_mult.
    change (inject_Z 4) with 4%Q. change (inject_Z 3) with 3%Q.
    assert (E : (3 # 4 == 3 / 4)%Q) by reflexivity. rewrite E. field. }
  assert (Hk51 : (inject_Z k + 1 <= inject_Z (2 ^ 51))%Q).
  { change 1%Q with (inject_Z 1). rewrite <- inject_Z_plus, <- Zle_Qle. lia. }
  destruct (roundDouble_between (a / inject_Z 3) 0 (4 * k + 3))
    as (b & Hb & _ & Hb0 & _ & Hb1).
  - change (inject_Z 3) with 3%Q. apply Qle_shift_div_l; lra.
  - assert (E : (0 # 4 == 0)%Q) by reflexivity. rewrite E.
    change (inject_Z 3) with 3%Q. apply Qle_shift_div_l; lra.
  - rewrite Hcap. change (inject_Z 3) with 3%Q. apply Qle_shift_div_r; lra.
  - rewrite Hcap. lra.
  - change (inject_Z (Z.pos 3)) with (inject_Z 3). rewrite Hb. cbn [nfloor nmul].
    assert (Ht0 : 0 <= Qfloor b).
    { change 0 with (Qfloor 0). by apply Qfloor_resp_le. }
    assert (Ht1 : Qfloor b <= k).
    { apply Z.le_trans with (Qfloor (4 * k + 3 # 4)); [by apply Qfloor_resp_le|].
      unfold Qfloor. assert ((4 * k + 3) / 4 < k + 1); [|lia].
      apply Z.div_lt_upper_bound; lia. }
    exists (Qfloor b * 3). split; [|split].
    + rewrite (roundDouble_comp _ (inject_Z (Qfloor b * 3))).
      * apply roundDouble_exact. lia.
      * rewrite inject_Z_mult. reflexivity.
    + apply Z_mod_mult.
    + lia.
Qed.

Lemma targetVertexCount_bounded (r : Q) (n : Z) :
  (0 <= r)%Q -> (r <= 1)%Q -> 0 <= n < 2 ^ 51 ->
  exists t, targetVertexCount (Some (Finite r)) n = Finite (inject_Z t) /\ 0 <= t <= n.
Proof.
  intros Hr0 Hr1 Hn.
  destruct (product_rounded r n Hr0 Hr1 Hn) as (a & Ha & Ha0 & Ha1).
  unfold targetVertexCount. cbn [toNumber ofCount nmul]. rewrite Ha. cbn [nfloor].
  exists (Qfloor a). split; [reflexivity|]. split.
  - change 0 with (Qfloor 0). by apply Qfloor_resp_le.
  - rewrite <- (Qfloor_Z n). by apply Qfloor_resp_le.
Qed.

Lemma targetIndexCount_zero (n : Z) : targetIndexCount (Some (Finite 0)) n = Finite 0.
Proof.
  unfold targetIndexCount. cbn [toNumber ofCount nmul].
  rewrite (roundDouble_comp _ 0) by ring. reflexivity.
Qed.

Lemma targetIndexCount_one (n : Z) :
  0 <= n < 2 ^ 51 -> n mod 3 = 0 ->
  targetIndexCount (Some (Finite 1)) n = Finite (inject_Z n).
Proof.
  intros Hn Hmod. unfold targetIndexCount. cbn [toNumber ofCount nmul].
  rewrite (roundDouble_comp _ (inject_Z n)) by ring.
  rewrite roundDouble_exact by exact Hn. cbn [ndivPos].
  apply Z.mod_divide in Hmod; [|lia]. destruct Hmod as [k ->].
  rewrite (roundDouble_comp _ (inject_Z k)).
  2:{ rewrite inject_Z_mult. change (inject_Z (Z.pos 3)) with 3%Q.
      change (inject_Z 3) with 3%Q. field. }
  rewrite roundDouble_exact by lia. cbn [nfloor nmul]. rewrite Qfloor_Z.
  rewrite (roundDouble_comp _ (inject_Z (k * 3))).
  - by apply roundDouble_exact.
  - rewrite inject_Z_mult. reflexivity.
Qed.

Lemma targetIndexCount_undefined (n : Z) : targetIndexCount None n = NaN.
Proof. reflexivity. Qed.

Lemma getCount_nonneg (a : Accessor) : 0 <= getCount a.
Proof. unfold getCount. destruct (accArray a); lia. Qed.

Lemma getCount_scalar (a : Accessor) :
  accType a = SCALAR ->
  getCount a = Z.of_nat (from_option arrayLength 0%nat (accArray a)).
Proof.
  intros H. unfold getCount, getElementSize. rewrite H. cbn [elementSize].
  destruct (accArray a); [|done]. by rewrite Nat.div_1_r.
Qed.

(** ** What the primitive looks like after the index write *)

Lemma references_setIndices (x : AccId) (prim : Primitive) :
  references (setIndices (Some x) prim) x = true.
Proof.
  unfold references, primRefs; simpl.
  by rewrite bool_decide_eq_true_2.
Qed.

Lemma replaceIndices_prim (A : PrimId) (src : AccId) (srcIndices : Accessor)
    (arr : TypedArray) (d : Document) (prim : Primitive) :
  docPrimitives d !! A = Some prim ->
  docPrimitives (replaceIndices A src srcIndices arr d) !! A
    = Some (setIndices (Some (docNextAccessor d)) prim) /\
  docAccessors (replaceIndices A src srcIndices arr d) !! docNextAccessor d
    = Some (setArray arr srcIndices).
Proof.
  intros Hprim. unfold replaceIndices, createAccessor.
  set (d2 := updatePrimitive _ _ _).
  assert (Hp2 : docPrimitives d2 !! A = Some (setIndices (Some (docNextAccessor d)) prim)).
  { unfold d2, updatePrimitive; simpl. rewrite lookup_alter_eq. by rewrite Hprim. }
  destruct (disposeIfUnused_fields src d2) as (_ & Hp & _).
  split; [by rewrite Hp|].
  destruct (disposeIfUnused_lookup src (docNextAccessor d) d2) as [E|(Heq & _ & Hu)].
  - rewrite E. unfold d2, updatePrimitive; simpl. apply lookup_insert_eq.
  - specialize (Hu A _ Hp2). rewrite <- Heq in Hu.
    by rewrite references_setIndices in Hu.
Qed.

Lemma evolves_prim_exists (p : PrimId) (d d' : Document) (prim : Primitive) :
  evolves p d d' -> docPrimitives d !! p = Some prim ->
  exists prim', docPrimitives d' !! p = Some prim' /\ primMode prim' = primMode prim.
Proof.
  intros (_ & _ & _ & Hmode & _) Hprim. rewrite Hprim in Hmode.
  destruct (docPrimitives d' !! p) as [prim'|]; simpl in Hmode; [|done].
  exists prim'. split; [done | congruence].
Qed.

Lemma triangleResult_indices (w : World) (A : PrimId) (options : RequiredOptions)
    (iid : AccId) (srcIndices position : Accessor) (positions : list F)
    (simplified dst remap : list Z) (unique : Z) (prim : Primitive) :
  docPrimitives (document w) !! A = Some prim ->
  exists prim' dstId,
    docPrimitives (document (triangleResult w A options iid srcIndices position
                                            positions simplified dst remap unique)) !! A
      = Some prim' /\
    primMode prim' = primMode prim /\
    getIndices (document (triangleResult w A options iid srcIndices position
                                         positions simplified dst remap unique)) prim'
      = Some (dstId, setArray (dstIndexArray (getCount position) dst) srcIndices).
Proof.
  intros Hprim. unfold triangleResult, triangleRemapped; cbn [document].
  destruct (evolves_prim_exists A _ _ prim
              (replaceAttributes_evolves (remapAttribute remap unique) A (document w))
              Hprim) as (prim1 & Hprim1 & Hmode1).
  destruct (replaceIndices_prim A iid srcIndices
              (dstIndexArray (getCount position) dst) _ prim1 Hprim1) as (Hp & Ha).
  eexists _, _. split; [exact Hp|]. split; [done|].
  unfold getIndices; simpl. by rewrite Ha.
Qed.

(** ** Index width (claim C1) *)

Lemma wrapUnsigned_small (bits v : Z) : 0 <= v < 2 ^ bits -> wrapUnsigned bits v = v.
Proof. intros H. unfold wrapUnsigned. by apply Z.mod_small. Qed.

Lemma new_Uint16Array_contents (xs : list Z) :
  Forall (fun i => 0 <= i < 65536) xs ->
  intContents (new_Uint16Array xs) = xs.
Proof.
  intros H. unfold new_Uint16Array, Uint16Array; simpl.
  induction H as [|x xs Hx _ IH]; simpl; [done|].
  rewrite IH. f_equal. by apply wrapUnsigned_small.
Qed.

(** C1, as amended: for a triangle primitive that [simplifyPrimitive]
    processes, the new index accessor holds a [Uint16Array] exactly when
    the vertex count of the source POSITION accessor, read before the
    decimator ran, is at most 65534, and otherwise the [Uint32Array] that
    the decimator produced, as it is. Either way the stored values are the
    compacted indices themselves, provided they are below 65536 when the
    narrow array is chosen. *)
Theorem index_width_follows_source_vertex_count (w : World) (A : PrimId)
    (_options : SimplifyOptions) (prim : Primitive) :
  docPrimitives (document w) !! A = Some prim ->
  primMode prim <> POINTS ->
  fst (simplifyPrimitive A _options w) = Ok tt ->
  exists pid position s simplified dst remap unique prim' dstId dstIndices,
    getAttribute (document w) prim "POSITION" = Some (pid, position) /\
    simplifier (withDefaults _options) = Some s /\
    msCompactMesh s (useExperimentalFeatures w) simplified = Ok (dst, remap, unique) /\
    docPrimitives (document (snd (simplifyPrimitive A _options w))) !! A = Some prim' /\
    getIndices (document (snd (simplifyPrimitive A _options w))) prim'
      = Some (dstId, dstIndices) /\
    (exists array, accArray dstIndices = Some array /\
       (isUint16Array array = true <-> getCount position <= 65534) /\
       (array = Uint32Array dst <-> 65534 < getCount position) /\
       (Forall (fun i => 0 <= i < 65536) dst -> intContents array = dst)).
Proof.
  intros Hprim Hmode Hok.
  destruct (simplifyPrimitive_triangles_inv w A _options prim Hprim Hmode Hok)
    as (iid & pid & srcIndices & position & positions & s & simplified & dst & remap
        & unique & Hidx & Hpos & Hfloats & Hs & Hsimp & Hcomp & Hloop & Hw).
  destruct (triangleResult_indices w A (withDefaults _options) iid srcIndices position
              positions (fst simplified) dst remap unique prim Hprim)
    as (prim' & dstId & Hprim' & _ & Hidx').
  rewrite Hw.
  exists pid, position, s, (fst simplified), dst, remap, unique, prim', dstId.
  eexists. split; [exact Hpos|]. split; [exact Hs|]. split; [exact Hcomp|].
  split; [exact Hprim'|]. split; [exact Hidx'|].
  eexists. split; [reflexivity|].
  unfold dstIndexArray.
  destruct (getCount position <=? 65534) eqn:Hle;
    [apply Z.leb_le in Hle | apply Z.leb_gt in Hle];
    unfold new_Uint16Array, Uint16Array, Uint32Array; simpl.
  - split; [done|]. split; [split; [discriminate | lia]|].
    intros Hsmall. by apply (new_Uint16Array_contents dst).
  - split; [split; [discriminate | lia]|]. split; done.
Qed.

(** ** Target index count (claim C4) *)

(** C4, as amended: for a triangle primitive with [N] indices and ratio
    [r], the decimator is called once, with the target that line 155
    computes in double arithmetic, [Math.floor((r * N) / 3) * 3], each
    operation rounding its result. When [r] is a number from 0 to 1 (and
    [N] is below [2 ^ 51]) that target is a whole number, a multiple of 3,
    not negative and at most [N]; the code does not check the ratio, and a
    larger one asks for more than [N]. When the decimator returns whole
    triangles, no more than it was given, the index accessor written back
    has a count that is a multiple of 3 and at most [N]. *)
Theorem target_index_count_whole_triangles (w : World) (A : PrimId)
    (_options : SimplifyOptions) (prim : Primitive) :
  docPrimitives (document w) !! A = Some prim ->
  primMode prim <> POINTS ->
  fst (simplifyPrimitive A _options w) = Ok tt ->
  exists iid srcIndices s idx pos err flags compacted delta,
    getIndices (document w) prim = Some (iid, srcIndices) /\
    simplifier (withDefaults _options) = Some s /\
    let r := ratio (withDefaults _options) in
    let N := getCount srcIndices in
    let target := nmul (nfloor (ndivPos (nmul (toNumber r) (ofCount N)) 3)) (Finite 3) in
    trace (snd (simplifyPrimitive A _options w))
      = trace w ++ [EvSimplify idx pos 3 target err flags;
                    EvCompactMesh compacted;
                    EvDebug delta] /\
    (forall q, r = Some (Finite q) -> (0 <= q)%Q -> (q <= 1)%Q -> N < 2 ^ 51 ->
       exists t, target = Finite (inject_Z t) /\ t mod 3 = 0 /\ 0 <= t <= N) /\
    (wholeTriangles s -> compactsInPlace s -> accType srcIndices = SCALAR ->
     exists prim' dstId dstIndices,
       docPrimitives (document (snd (simplifyPrimitive A _options w))) !! A = Some prim' /\
       getIndices (document (snd (simplifyPrimitive A _options w))) prim'
         = Some (dstId, dstIndices) /\
       getCount dstIndices mod 3 = 0 /\
       getCount dstIndices <= N).
Proof.
  intros Hprim Hmode Hok.
  destruct (simplifyPrimitive_triangles_inv w A _options prim Hprim Hmode Hok)
    as (iid & pid & srcIndices & position & positions & s & simplified & dst & remap
        & unique & Hidx & Hpos & Hfloats & Hs & Hsimp & Hcomp & Hloop & Hw).
  rewrite Hw.
  exists iid, srcIndices, s. do 6 eexists.
  split; [done|]. split; [done|]. cbv zeta.
  split; [reflexivity|].
  split.
  { intros q Hq Hq0 Hq1 HN. rewrite Hq.
    apply (targetIndexCount_bounded q (getCount srcIndices)); try done.
    split; [apply getCount_nonneg | done]. }
  intros Hwhole Hcompact Hscalar.
  destruct (triangleResult_indices w A (withDefaults _options) iid srcIndices position
              positions (fst simplified) dst remap unique prim Hprim)
    as (prim' & dstId & Hprim' & _ & Hidx').
  exists prim', dstId. eexists. split; [exact Hprim'|]. split; [exact Hidx'|].
  destruct (Hwhole _ _ _ _ _ _ _ _ Hsimp) as [Hmod Hlen].
  apply Hcompact in Hcomp.
  assert (Hsrc : length (indexUint32 srcIndices)
                 = from_option arrayLength 0%nat (accArray srcIndices)).
  { unfold indexUint32, intContents, new_Uint32Array.
    destruct (accArray srcIndices) as [[xs|[] xs]|]; simpl;
      rewrite ?length_map; reflexivity. }
  assert (Hdst : arrayLength (dstIndexArray (getCount position) dst) = length dst).
  { unfold dstIndexArray, new_Uint16Array.
    destruct (getCount position <=? 65534); simpl; rewrite ?length_map; reflexivity. }
  rewrite (getCount_scalar srcIndices) by done.
  rewrite (getCount_scalar (setArray _ srcIndices)) by done.
  cbn [setArray accArray from_option]. rewrite Hdst, Hcomp.
  split.
  - rewrite <- (Nat2Z.inj_mod _ 3). by rewrite Hmod.
  - lia.
Qed.

(** ** Unchecked dereferences (claim C10) *)

Lemma simplifyPrimitive_no_indices (w : World) (A : PrimId) (_options : SimplifyOptions)
    (prim : Primitive) :
  docPrimitives (document w) !! A = Some prim ->
  primMode prim <> POINTS ->
  getIndices (document w) prim = None ->
  simplifyPrimitive A _options w = (Throw (TypeError "srcIndices.getCount"), w).
Proof.
  intros Hprim Hmode Hidx. unfold simplifyPrimitive. run_monad.
  rewrite Hprim. rewrite bool_decide_eq_false_2 by done. by rewrite Hidx.
Qed.

Lemma simplifyPrimitive_no_position (w : World) (A : PrimId) (_options : SimplifyOptions)
    (prim : Primitive) (indices : AccId * Accessor) :
  docPrimitives (document w) !! A = Some prim ->
  primMode prim <> POINTS ->
  getIndices (document w) prim = Some indices ->
  getAttribute (document w) prim "POSITION" = None ->
  simplifyPrimitive A _options w = (Throw (TypeError "position.getCount"), w).
Proof.
  intros Hprim Hmode Hidx Hpos. unfold simplifyPrimitive. run_monad.
  rewrite Hprim. rewrite bool_decide_eq_false_2 by done.
  rewrite Hidx, Hpos. by destruct indices.
Qed.

(** The attribute loop of lines 173-178 throws nothing but the
    [TypeError] of [remapAttribute]. *)
Lemma remapLoop_throws (remap : list Z) (unique : Z) (p : PrimId) (l : list AccId)
    (d : Document) (e : Exn) :
  fst (attributeLoop (replaceAttribute (remapAttribute remap unique) p) l d) = Throw e ->
  e = TypeError "srcArray.slice".
Proof.
  revert d. induction l as [|x l IH]; intros d; simpl; [discriminate|].
  destruct (docAccessors d !! x) as [a|] eqn:Ha.
  - destruct (remapAttribute remap unique a) as [a'|e'] eqn:Hr.
    + rewrite (replaceAttribute_ok _ p d x a a') by done. apply IH.
    + rewrite (replaceAttribute_throw _ p d x a e') by done. simpl.
      unfold remapAttribute in Hr. destruct (accArray a); [discriminate|].
      congruence.
  - rewrite replaceAttribute_none by done. apply IH.
Qed.

Lemma replaceAttributes_throws (remap : list Z) (unique : Z) (p : PrimId)
    (d : Document) (e : Exn) :
  fst (replaceAttributes (remapAttribute remap unique) p d) = Throw e ->
  e = TypeError "srcArray.slice".
Proof.
  unfold replaceAttributes. destruct (docPrimitives d !! p); [|discriminate].
  apply remapLoop_throws.
Qed.

(** C10, as amended: on a primitive that is not in POINTS mode,
    [simplifyPrimitive] reads the index accessor and the POSITION
    attribute without a check. When both are there (and a decimator was
    given) the two reads succeed, and the call returns unless a later step
    throws: [dequantizeAttributeArray] on the positions, before anything
    is logged or written; the decimator's [simplify] or [compactMesh];
    or [remapAttribute], with a [TypeError], on an attribute without an
    array. When the indices are missing, or the POSITION attribute is, it
    throws a [TypeError] and returns no error value. A triangle primitive
    without indices, as the public function can be handed without the
    weld pre-pass, is such an input. *)
Theorem simplifyPrimitive_dereferences_unchecked :
  (forall w A _options prim iid pid srcIndices position s,
     docPrimitives (document w) !! A = Some prim ->
     primMode prim <> POINTS ->
     getIndices (document w) prim = Some (iid, srcIndices) ->
     getAttribute (document w) prim "POSITION" = Some (pid, position) ->
     simplifier (withDefaults _options) = Some s ->
     match positionFloats position with
     | Throw e => simplifyPrimitive A _options w = (Throw e, w)
     | Ok positions =>
       let call :=
         msSimplify s (useExperimentalFeatures w) (indexUint32 srcIndices) positions 3
           (targetIndexCount (ratio (withDefaults _options)) (getCount srcIndices))
           (error (withDefaults _options))
           (lockFlags (lockBorder (withDefaults _options))) in
       fst (simplifyPrimitive A _options w) = Ok tt
       \/ exists e,
            fst (simplifyPrimitive A _options w) = Throw e /\
            (call = Throw e
             \/ exists r,
                  call = Ok r /\
                  (msCompactMesh s (useExperimentalFeatures w) (fst r) = Throw e
                   \/ exists dst remap unique,
                        msCompactMesh s (useExperimentalFeatures w) (fst r)
                          = Ok (dst, remap, unique) /\
                        fst (replaceAttributes (remapAttribute remap unique) A
                                               (document w)) = Throw e /\
                        e = TypeError "srcArray.slice"))
     end) /\
  (forall w A _options prim,
     docPrimitives (document w) !! A = Some prim ->
     primMode prim <> POINTS ->
     getIndices (document w) prim = None
     \/ getAttribute (document w) prim "POSITION" = None ->
     isTypeError (fst (simplifyPrimitive A _options w)) = true /\
     snd (simplifyPrimitive A _options w) = w) /\
  (forall _options,
     docPrimitives (document unindexedWorld) !! 0%nat = Some unindexedTriangle /\
     simplifyPrimitive 0%nat _options unindexedWorld
       = (Throw (TypeError "srcIndices.getCount"), unindexedWorld)).
Proof.
  split; [|split].
  - intros w A _options prim iid pid srcIndices position s Hprim Hmode Hidx Hpos Hs.
    rewrite (simplifyPrimitive_triangles_run w A _options prim Hprim Hmode). cbv zeta.
    rewrite Hidx, Hpos.
    destruct (positionFloats position) as [positions|e]; [|done].
    rewrite Hs.
    destruct (msSimplify _ _ _ _ _ _ _ _) as [simplified|e] eqn:Hsimp.
    2:{ right. exists e. split; [done | by left]. }
    destruct (msCompactMesh _ _ _) as [[[dst remap] unique]|e] eqn:Hcomp.
    2:{ right. exists e. split; [done|]. right. exists simplified.
        split; [done | by left]. }
    destruct (fst (replaceAttributes _ _ _)) as [[]|e] eqn:Hloop; [by left|].
    right. exists e. split; [done|]. right. exists simplified. split; [done|].
    right. exists dst, remap, unique. split; [done|]. split; [done|].
    by apply (replaceAttributes_throws remap unique A (document w)).
  - intros w A _options prim Hprim Hmode Hmissing.
    destruct (getIndices (document w) prim) as [indices|] eqn:Hidx.
    + destruct Hmissing as [|Hpos]; [done|].
      by rewrite (simplifyPrimitive_no_position w A _options prim indices).
    + by rewrite (simplifyPrimitive_no_indices w A _options prim).
  - intros _options. split; [reflexivity|].
    by apply (simplifyPrimitive_no_indices unindexedWorld 0%nat _options unindexedTriangle).
Qed.

(** ** The configuration error (claim C7) *)

(** C7: without a decimator in the options, [simplify] throws its
    configuration error when the transform is built. No transform exists
    to run: the document, the decimator toggle and the record of passes
    and calls are those of before, so neither the weld pass nor any
    primitive was touched. *)
Theorem simplify_requires_simplifier (_options : SimplifyOptions)
    (context : option TransformContext) (w : World) :
  optSimplifier _options = None ->
  (exists msg, simplify _options = Throw (ConfigError msg)) /\
  (exists msg, fst (runSimplify _options context w) = Throw (ConfigError msg)) /\
  snd (runSimplify _options context w) = w.
Proof.
  intros Hnone. unfold runSimplify, simplify.
  replace (simplifier (withDefaults _options)) with (@None MeshoptSimplifier)
    by (symmetry; exact Hnone).
  repeat split; eauto.
Qed.

(** ** The point path of [simplifyPrimitive], step by step *)

(** The point path, one case for each place where it can stop. *)
Lemma simplifyPrimitive_points_run (w : World) (A : PrimId)
    (_options : SimplifyOptions) (prim : Primitive) :
  docPrimitives (document w) !! A = Some prim ->
  primMode prim = POINTS ->
  let options := withDefaults _options in
  let w1 := pointsUnwelded w A prim in
  simplifyPrimitive A _options w =
    match unweldOutcome w A prim with
    | Throw e => (Throw e, w1)
    | Ok _ =>
    match docPrimitives (document w1) !! A with
    | None => (Throw StaleHandle, w1)
    | Some prim1 =>
      match getAttribute (document w1) prim1 "POSITION" with
      | None => (Throw (TypeError "position.getCount"), w1)
      | Some (_, position) =>
        let color := getAttribute (document w1) prim1 "COLOR_0" in
        match colorStrideOf color with
        | None => (Throw (TypeError "color.getArray().BYTES_PER_ELEMENT"), w1)
        | Some colorStride =>
        match positionFloats position with
        | Throw e => (Throw e, w1)
        | Ok positions =>
        match colorArrayFloats position color with
        | Throw e => (Throw e, w1)
        | Ok colors =>
        match simplifier options with
        | None => (Throw (TypeError "simplifier.useExperimentalFeatures"), w1)
        | Some s =>
          match msSimplifyPoints s with
          | None =>
            (Throw (TypeError "simplifier.simplifyPoints"),
             {| document := document w1; useExperimentalFeatures := true;
                trace := trace w |})
          | Some simplifyPoints =>
            let entered :=
              pointsEntered w1 options position positions colors colorStride in
            match simplifyPoints true positions 3
                    (targetVertexCount (ratio options) (getCount position))
                    colors colorStride with
            | Throw e => (Throw e, entered)
            | Ok dstIndicesArray =>
              match msCompactMesh s false dstIndicesArray with
              | Throw e =>
                (Throw e,
                 {| document := document w1;
                    useExperimentalFeatures := false;
                    trace := trace entered ++ [EvCompactMesh dstIndicesArray] |})
              | Ok (_, remap, unique) =>
                (fst (replaceAttributes (remapAttribute remap unique) A (document w1)),
                 {| document :=
                      snd (replaceAttributes (remapAttribute remap unique) A
                                             (document w1));
                    useExperimentalFeatures := false;
                    trace := trace entered ++
                             [EvCompactMesh dstIndicesArray;
                              EvDebug (VerticesDelta (getCount position) unique)] |})
              end
            end
          end
        end
        end
        end
        end
      end
    end
    end.
Proof.
  intros Hprim Hmode options w1. subst options.
  assert (Hrun : (match getIndices (document w) prim with
                  | Some _ => updateDocument (unweldPrimitive A)
                  | None => ret tt
                  end) w = (unweldOutcome w A prim, w1)).
  { unfold w1, pointsUnwelded, unweldOutcome.
    destruct (getIndices (document w) prim); run_monad;
      [reflexivity | by destruct w]. }
  unfold simplifyPrimitive. run_monad.
  rewrite Hprim. rewrite bool_decide_eq_true_2 by done.
  unfold _simplifyPoints. run_monad. rewrite Hprim.
  unfold updateDocument, ret in Hrun. rewrite Hrun. clear Hrun.
  assert (Ht : trace w1 = trace w) by reflexivity.
  clearbody w1.
  destruct (unweldOutcome w A prim) as [[]|e]; [|done].
  destruct (docPrimitives (document w1) !! A) as [prim1|]; [|done].
  destruct (getAttribute (document w1) prim1 "POSITION") as [[pid position]|];
    run_monad; [|by destruct w1].
  unfold colorStrideOf, colorComponentSize.
  destruct (getAttribute (document w1) prim1 "COLOR_0") as [[cid color]|];
    run_monad; cbn [snd fmap option_fmap option_map].
  - destruct (getComponentSize color) as [size|]; run_monad;
      cbn [fmap option_fmap option_map]; [|by destruct w1].
    destruct (positionFloats position) as [positions|e]; run_monad; [|by destruct w1].
    unfold colorArrayFloats; cbn [snd].
    destruct (colorFloats position color) as [colors|e]; run_monad; [|by destruct w1].
    destruct (simplifier (withDefaults _options)) as [s|]; run_monad; [|by destruct w1].
    unfold callSimplifyPoints. run_monad.
    destruct (msSimplifyPoints s) as [simplifyPoints|]; run_monad; [|by rewrite Ht].
    unfold pointsEntered.
    destruct (simplifyPoints _ _ _ _ _ _) as [dst|e]; [|done]. run_monad.
    destruct (msCompactMesh _ _ _) as [[[out remap] unique]|e];
      run_monad; rewrite <- ?app_assoc; reflexivity.
  - destruct (positionFloats position) as [positions|e]; run_monad; [|by destruct w1].
    unfold colorArrayFloats.
    destruct (simplifier (withDefaults _options)) as [s|]; run_monad; [|by destruct w1].
    unfold callSimplifyPoints. run_monad.
    destruct (msSimplifyPoints s) as [simplifyPoints|]; run_monad; [|by rewrite Ht].
    unfold pointsEntered.
    destruct (simplifyPoints _ _ _ _ _ _) as [dst|e]; [|done]. run_monad.
    destruct (msCompactMesh _ _ _) as [[[out remap] unique]|e];
      run_monad; rewrite <- ?app_assoc; reflexivity.
Qed.

(** The point path on a primitive without indices, from the call of the
    decimator on: what happens depends on the decimator, and then on the
    attribute loop. *)
Lemma simplifyPrimitive_points (w : World) (A : PrimId) (_options : SimplifyOptions)
    (prim : Primitive) (pid : AccId) (position : Accessor) (positions : list F)
    (colors : option (list F)) (colorStride : option Z) (s : MeshoptSimplifier)
    (simplifyPoints : SimplifyPoints) :
  docPrimitives (document w) !! A = Some prim ->
  primMode prim = POINTS ->
  getIndices (document w) prim = None ->
  getAttribute (document w) prim "POSITION" = Some (pid, position) ->
  colorStrideOf (getAttribute (document w) prim "COLOR_0") = Some colorStride ->
  positionFloats position = Ok positions ->
  colorArrayFloats position (getAttribute (document w) prim "COLOR_0") = Ok colors ->
  simplifier (withDefaults _options) = Some s ->
  msSimplifyPoints s = Some simplifyPoints ->
  let options := withDefaults _options in
  let entered := pointsEntered w options position positions colors colorStride in
  simplifyPrimitive A _options w =
    match simplifyPoints true positions 3
            (targetVertexCount (ratio options) (getCount position))
            colors colorStride with
    | Throw e => (Throw e, entered)
    | Ok dstIndicesArray =>
      match msCompactMesh s false dstIndicesArray with
      | Throw e =>
        (Throw e,
         {| document := document w;
            useExperimentalFeatures := false;
            trace := trace entered ++ [EvCompactMesh dstIndicesArray] |})
      | Ok (_, remap, unique) =>
        (fst (replaceAttributes (remapAttribute remap unique) A (document w)),
         {| document := snd (replaceAttributes (remapAttribute remap unique) A
                                               (document w));
            useExperimentalFeatures := false;
            trace := trace entered ++
                     [EvCompactMesh dstIndicesArray;
                      EvDebug (VerticesDelta (getCount position) unique)] |})
      end
    end.
Proof.
  intros Hprim Hmode Hidx Hpos Hstride Hfloats Hcolors Hs Hsp options entered.
  subst options entered.
  rewrite (simplifyPrimitive_points_run w A _options prim Hprim Hmode). cbv zeta.
  unfold unweldOutcome, pointsUnwelded. rewrite Hidx.
  cbn [document useExperimentalFeatures trace].
  rewrite Hprim, Hpos, Hstride, Hfloats, Hcolors, Hs, Hsp.
  unfold pointsEntered. cbn [document useExperimentalFeatures trace].
  destruct (simplifyPoints _ _ _ _ _ _) as [dst|e]; [|done].
  by destruct (msCompactMesh _ _ _) as [[[out remap] unique]|e].
Qed.

(** When [simplifyPoints] throws, the toggle is left switched on. *)
Lemma simplifyPoints_throw_leaves_toggle (w : World) (A : PrimId)
    (_options : SimplifyOptions) (prim : Primitive) (pid : AccId) (position : Accessor)
    (positions : list F) (colors : option (list F)) (colorStride : option Z)
    (s : MeshoptSimplifier) (simplifyPoints : SimplifyPoints) (e : Exn) :
  docPrimitives (document w) !! A = Some prim ->
  primMode prim = POINTS ->
  getIndices (document w) prim = None ->
  getAttribute (document w) prim "POSITION" = Some (pid, position) ->
  colorStrideOf (getAttribute (document w) prim "COLOR_0") = Some colorStride ->
  positionFloats position = Ok positions ->
  colorArrayFloats position (getAttribute (document w) prim "COLOR_0") = Ok colors ->
  simplifier (withDefaults _options) = Some s ->
  msSimplifyPoints s = Some simplifyPoints ->
  (forall positions stride target colors colorStride,
     simplifyPoints true positions stride target colors colorStride = Throw e) ->
  fst (simplifyPrimitive A _options w) = Throw e /\
  useExperimentalFeatures (snd (simplifyPrimitive A _options w)) = true.
Proof.
  intros Hprim Hmode Hidx Hpos Hstride Hfloats Hcolors Hs Hsp Hthrow.
  rewrite (simplifyPrimitive_points w A _options prim pid position positions colors
             colorStride s simplifyPoints) by done.
  cbv zeta. by rewrite Hthrow.
Qed.

(** The colors handed to the decimator: a COLOR_0 array that is not a
    [Float32Array] goes through [dequantizeAttributeArray] with the
    component type and the normalized flag of POSITION. *)
Lemma simplifyPoints_color_arguments (w : World) (A : PrimId)
    (_options : SimplifyOptions) (prim : Primitive) (pid cid : AccId)
    (position color : Accessor) (positions : list F) (colorArray : TypedArray)
    (s : MeshoptSimplifier) (simplifyPoints : SimplifyPoints) :
  docPrimitives (document w) !! A = Some prim ->
  primMode prim = POINTS ->
  getIndices (document w) prim = None ->
  getAttribute (document w) prim "POSITION" = Some (pid, position) ->
  getAttribute (document w) prim "COLOR_0" = Some (cid, color) ->
  accArray color = Some colorArray ->
  isFloat32Array colorArray = false ->
  positionFloats position = Ok positions ->
  simplifier (withDefaults _options) = Some s ->
  msSimplifyPoints s = Some simplifyPoints ->
  match dequantizeAttributeArray (Some colorArray) (getComponentType position)
          (getNormalized position) with
  | Throw e => simplifyPrimitive A _options w = (Throw e, w)
  | Ok colors =>
    exists rest,
      trace (snd (simplifyPrimitive A _options w)) =
        (trace w ++
         EvSimplifyPoints true positions 3
           (targetVertexCount (ratio (withDefaults _options)) (getCount position))
           (Some colors) (getComponentSize color) :: rest)%list
  end.
Proof.
  intros Hprim Hmode Hidx Hpos Hcol Harr Hfloat Hfloats Hs Hsp.
  assert (Hstride : colorStrideOf (getAttribute (document w) prim "COLOR_0")
                    = Some (getComponentSize color)).
  { rewrite Hcol. unfold colorStrideOf, getComponentSize; cbn [snd]. rewrite Harr.
    by destruct colorArray. }
  assert (Hc : colorFloats position color =
               match dequantizeAttributeArray (Some colorArray)
                       (getComponentType position) (getNormalized position) with
               | Ok xs => Ok (Some xs)
               | Throw e => Throw e
               end).
  { unfold colorFloats. rewrite Harr. by destruct colorArray. }
  destruct (dequantizeAttributeArray _ _ _) as [colors|e] eqn:Hdeq.
  - rewrite (simplifyPrimitive_points w A _options prim pid position positions
               (Some colors) (getComponentSize color) s simplifyPoints); try done.
    2:{ by rewrite Hcol. }
    cbv zeta. unfold pointsEntered.
    destruct (simplifyPoints _ _ _ _ _ _) as [dst|e]; [|by exists []].
    destruct (msCompactMesh _ _ _) as [[[out remap] unique]|e];
      cbn [snd trace]; rewrite <- app_assoc; eexists; reflexivity.
  - rewrite (simplifyPrimitive_points_run w A _options prim Hprim Hmode). cbv zeta.
    unfold unweldOutcome, pointsUnwelded. rewrite Hidx.
    cbn [document useExperimentalFeatures trace].
    rewrite Hprim, Hpos, Hstride, Hfloats, Hcol. cbn [colorArrayFloats snd].
    rewrite Hc. by destruct w.
Qed.

(** ** The attribute loop swaps every slot to a fresh accessor *)

Lemma elem_of_dedupe (seen l : list nat) (x : nat) :
  x ∈ dedupe seen l <-> x ∈ l /\ x ∉ seen.
Proof.
  revert seen. induction l as [|y l IH]; intros seen; simpl.
  - rewrite elem_of_nil. tauto.
  - case_bool_decide as Hy.
    + rewrite IH, elem_of_cons. split; [tauto|].
      intros [[->|Hx] Hn]; tauto.
    + rewrite !elem_of_cons, IH, elem_of_cons. split.
      * intros [->|[Hx Hn]]; tauto.
      * intros [[->|Hx] Hn]; [tauto|].
        destruct (decide (x = y)); tauto.
Qed.

Lemma NoDup_dedupe (seen l : list nat) : NoDup (dedupe seen l).
Proof.
  revert seen. induction l as [|y l IH]; intros seen; simpl; [constructor|].
  case_bool_decide; [apply IH|].
  constructor; [|apply IH].
  rewrite elem_of_dedupe, elem_of_cons. tauto.
Qed.

Lemma slotsMap_compose (sigma tau : AccId -> AccId) (l : list (string * AccId)) :
  slotsMap sigma (slotsMap tau l) = slotsMap (sigma ∘ tau) l.
Proof. unfold slotsMap. rewrite map_map. reflexivity. Qed.

Lemma mapSlots_compose (sigma tau : AccId -> AccId) (prim : Primitive) :
  mapSlots sigma (mapSlots tau prim) = mapSlots (sigma ∘ tau) prim.
Proof.
  unfold mapSlots; simpl. f_equal; [apply slotsMap_compose|].
  rewrite map_map. apply map_ext. intros l. apply slotsMap_compose.
Qed.

Lemma slotsMap_id (l : list (string * AccId)) : slotsMap id l = l.
Proof.
  unfold slotsMap. induction l as [|[k v] l IH]; simpl in *; [done|].
  unfold id in *. congruence.
Qed.

Lemma mapSlots_id (prim : Primitive) : mapSlots id prim = prim.
Proof.
  destruct prim as [m i a t]. unfold mapSlots; simpl. rewrite slotsMap_id.
  f_equal. induction t as [|l t IH]; simpl; [done|]. by rewrite slotsMap_id, IH.
Qed.

Lemma lookupAttribute_slotsMap (sigma : AccId -> AccId) (semantic : string)
    (l : list (string * AccId)) :
  lookupAttribute semantic (slotsMap sigma l) = sigma <$> lookupAttribute semantic l.
Proof.
  unfold lookupAttribute, slotsMap.
  induction l as [|[k v] l IH]; simpl; [done|].
  case_bool_decide; [done | exact IH].
Qed.

(** After the swap no attribute slot of the primitive holds the source. *)
Lemma slotsRef_swapSlots (src dst : AccId) (l : list (string * AccId)) :
  dst <> src -> slotsRef src (swapSlots src dst l) = false.
Proof.
  intros Hne. unfold slotsRef, swapSlots. apply bool_decide_eq_false_2.
  rewrite list_elem_of_fmap. intros ([k v] & Hv & Hin). simpl in Hv.
  apply list_elem_of_In, in_map_iff in Hin as ([k0 v0] & Heq & _). simpl in Heq.
  injection Heq as _ Hv0. subst v. case_bool_decide; congruence.
Qed.

Lemma references_deepSwapAttribute (src dst : AccId) (prim : Primitive) :
  dst <> src ->
  references (deepSwapAttribute src dst prim) src
  = bool_decide (primIndices prim = Some src).
Proof.
  intros Hne. unfold references, primRefs, deepSwapAttribute; simpl.
  rewrite slotsRef_swapSlots by done. rewrite orb_false_r.
  assert (Ht : existsb (slotsRef src) (map (swapSlots src dst) (primTargets prim))
               = false).
  { induction (primTargets prim) as [|t ts IH]; simpl; [done|].
    by rewrite slotsRef_swapSlots, IH. }
  by rewrite Ht, orb_false_r.
Qed.

(** One round of the loop on a live source that is rewritten. *)
Lemma replaceAttribute_step (rewrite : Accessor -> result Accessor) (p : PrimId)
    (d : Document) (src : AccId) (a a' : Accessor) :
  freshOk d ->
  docAccessors d !! src = Some a ->
  rewrite a = Ok a' ->
  let d1 := snd (replaceAttribute rewrite p d src) in
  freshOk d1 /\
  docNextAccessor d1 = S (docNextAccessor d) /\
  docPrimitives d1 !! p
    = deepSwapAttribute src (docNextAccessor d) <$> docPrimitives d !! p /\
  (forall q, q <> p -> docPrimitives d1 !! q = docPrimitives d !! q) /\
  docAccessors d1 !! docNextAccessor d = Some a' /\
  (forall y, y <> src -> y <> docNextAccessor d ->
     docAccessors d1 !! y = docAccessors d !! y) /\
  (forall prim, docPrimitives d !! p = Some prim ->
     (docAccessors d1 !! src = None
      <-> unshared d p src /\ primIndices prim <> Some src)).
Proof.
  intros Hf Ha Hr d1.
  assert (Hlt : (src < docNextAccessor d)%nat) by (apply Hf; eauto).
  pose proof (replaceAttribute_evolves rewrite p d src) as (_ & _ & _ & _ & He).
  destruct (He Hf) as [Hf1 _]. fold d1 in Hf1.
  subst d1. rewrite (replaceAttribute_ok rewrite p d src a a') in * by done.
  cbn [snd] in *. unfold swapAttribute, createAccessor in *. cbn [snd] in *.
  set (d2 := updatePrimitive _ _ _) in *.
  destruct (disposeIfUnused_fields src d2) as (Hn & Hp & _).
  assert (Hother : forall q, q <> p -> docPrimitives d2 !! q = docPrimitives d !! q).
  { intros q Hq. unfold d2, updatePrimitive; simpl. by apply lookup_alter_ne. }
  assert (Hself : docPrimitives d2 !! p
                  = deepSwapAttribute src (docNextAccessor d) <$> docPrimitives d !! p).
  { unfold d2, updatePrimitive; simpl. by rewrite lookup_alter_eq. }
  split; [done|]. split; [by rewrite Hn|]. split; [by rewrite Hp|].
  split; [intros q Hq; rewrite Hp; by apply Hother|].
  split.
  { destruct (disposeIfUnused_lookup src (docNextAccessor d) d2) as [E|(Heq & _)]; [|lia].
    rewrite E. unfold d2, updatePrimitive; simpl. apply lookup_insert_eq. }
  split.
  { intros y Hy1 Hy2.
    destruct (disposeIfUnused_lookup src y d2) as [E|(Heq & _)]; [|done].
    rewrite E. unfold d2, updatePrimitive; simpl. by apply lookup_insert_ne. }
  intros prim Hprim.
  assert (Hsrc2 : docAccessors d2 !! src = Some a).
  { unfold d2, updatePrimitive; simpl. rewrite lookup_insert_ne by lia. done. }
  assert (Hdisp : docAccessors (disposeIfUnused src d2) !! src = None
                  <-> length (listParents d2 src) = 1%nat).
  { unfold disposeIfUnused. case_bool_decide as Hlen.
    - simpl. rewrite lookup_delete_eq. tauto.
    - rewrite Hsrc2. split; [discriminate | done]. }
  rewrite Hdisp, listParents_root_only.
  assert (Hrefs : references (deepSwapAttribute src (docNextAccessor d) prim) src
                  = bool_decide (primIndices prim = Some src)).
  { apply references_deepSwapAttribute. lia. }
  split.
  - intros Hall. split.
    + intros q primq Hq Hprimq. apply (Hall q). by rewrite Hother.
    + intros Hidx. specialize (Hall p (deepSwapAttribute src (docNextAccessor d) prim)).
      rewrite Hself, Hprim in Hall. specialize (Hall eq_refl).
      rewrite Hrefs in Hall. by apply bool_decide_eq_false_1 in Hall.
  - intros [Hun Hidx] q primq Hprimq.
    destruct (decide (q = p)) as [->|Hq].
    + rewrite Hself, Hprim in Hprimq. injection Hprimq as <-.
      rewrite Hrefs. by apply bool_decide_eq_false_2.
    + apply (Hun q); [done|]. by rewrite <- Hother.
Qed.

Lemma attributeLoop_other (rewrite : Accessor -> result Accessor) (p : PrimId)
    (L : list AccId) (d : Document) (y : AccId) :
  freshOk d -> (y < docNextAccessor d)%nat -> y ∉ L ->
  docAccessors (snd (attributeLoop (replaceAttribute rewrite p) L d)) !! y
  = docAccessors d !! y.
Proof.
  revert d. induction L as [|src L IH]; intros d Hf Hy Hin; simpl; [done|].
  rewrite elem_of_cons in Hin.
  destruct (docAccessors d !! src) as [a|] eqn:Ha.
  - destruct (rewrite a) as [a'|e] eqn:Hr.
    + destruct (replaceAttribute_step rewrite p d src a a' Hf Ha Hr)
        as (Hf1 & Hn1 & _ & _ & _ & Ho & _).
      rewrite (replaceAttribute_ok rewrite p d src a a') in * by done.
      cbn [snd] in *.
      rewrite IH; [|done|lia|tauto]. apply Ho; [tauto | lia].
    + rewrite (replaceAttribute_throw rewrite p d src a e) by done. cbn [snd].
      unfold createAccessor; simpl. apply lookup_insert_ne. lia.
  - rewrite replaceAttribute_none by done. apply IH; tauto.
Qed.

(** The attribute loop, when it returns, has renamed every slot of the
    primitive to an accessor made in the loop, which holds the rewritten
    source; and a source is gone exactly when nothing but the attribute
    slots of the primitive held it. *)
Lemma attributeLoop_slots (rewrite : Accessor -> result Accessor) (p : PrimId)
    (L : list AccId) :
  forall (d : Document) (prim : Primitive),
    NoDup L -> freshOk d ->
    docPrimitives d !! p = Some prim ->
    (forall x, x ∈ L -> is_Some (docAccessors d !! x)) ->
    fst (attributeLoop (replaceAttribute rewrite p) L d) = Ok tt ->
    let d' := snd (attributeLoop (replaceAttribute rewrite p) L d) in
    exists sigma,
      docPrimitives d' !! p = Some (mapSlots sigma prim) /\
      (forall x, x ∉ L -> sigma x = x) /\
      (forall x a, x ∈ L -> docAccessors d !! x = Some a ->
         (docNextAccessor d <= sigma x)%nat /\
         exists a', rewrite a = Ok a' /\ docAccessors d' !! sigma x = Some a') /\
      (forall x, x ∈ L ->
         (docAccessors d' !! x = None
          <-> unshared d p x /\ primIndices prim <> Some x)).
Proof.
  induction L as [|src L IH]; intros d prim Hnd Hf Hprim Hlive Hok; simpl.
  - exists id. split; [by rewrite mapSlots_id|].
    split; [done|]. split; intros x; [intros a Hx|intros Hx]; by apply elem_of_nil in Hx.
  - apply NoDup_cons in Hnd as [Hsrc Hnd].
    destruct (Hlive src) as [a Ha]; [apply elem_of_cons; by left|].
    destruct (rewrite a) as [a'|e] eqn:Hr.
    2:{ simpl in Hok. by rewrite (replaceAttribute_throw rewrite p d src a e) in Hok. }
    destruct (replaceAttribute_step rewrite p d src a a' Hf Ha Hr)
      as (Hf1 & Hn1 & Hp1 & Hq1 & Hdst & Ho & Hdisp).
    simpl in Hok.
    rewrite (replaceAttribute_ok rewrite p d src a a') in * by done.
    cbn [snd] in *.
    set (d1 := swapAttribute p src (docNextAccessor d) (createAccessor a' d).2) in *.
    set (dst := docNextAccessor d) in *.
    rewrite Hprim in Hp1; simpl in Hp1.
    assert (Hlt : forall x, x ∈ src :: L -> (x < dst)%nat).
    { intros x Hx. apply Hf. by apply Hlive. }
    assert (Hlive1 : forall x, x ∈ L -> is_Some (docAccessors d1 !! x)).
    { intros x Hx. rewrite Ho.
      - apply Hlive. apply elem_of_cons. by right.
      - intros ->. done.
      - assert (x < dst)%nat by (apply Hlt; apply elem_of_cons; by right). lia. }
    destruct (IH d1 _ Hnd Hf1 Hp1 Hlive1 Hok) as (sigma' & Hps & Hid & Hfresh & Hgone).
    set (tau := fun v : AccId => if bool_decide (v = src) then dst else v).
    exists (sigma' ∘ tau).
    assert (HdstL : dst ∉ L).
    { intros Hin. assert (dst < dst)%nat; [|lia].
      apply Hlt. apply elem_of_cons. by right. }
    assert (Hun : forall x, unshared d1 p x <-> unshared d p x).
    { intros x. split; intros Hu q primq Hq Hprimq; apply (Hu q primq Hq).
      - by rewrite Hq1.
      - by rewrite <- Hq1. }
    split; [|split; [|split]].
    + rewrite Hps. f_equal. apply (mapSlots_compose sigma' tau).
    + intros x Hx. rewrite elem_of_cons in Hx. unfold compose, tau.
      rewrite bool_decide_eq_false_2 by tauto. apply Hid. tauto.
    + intros x ax Hx Hax. rewrite elem_of_cons in Hx. unfold compose, tau.
      destruct Hx as [->|Hx].
      * rewrite bool_decide_eq_true_2 by done. rewrite (Hid dst HdstL).
        split; [done|].
        assert (ax = a) as -> by congruence.
        exists a'. split; [done|].
        rewrite attributeLoop_other; [done | done | lia | done].
      * assert (x <> src) by (intros ->; done).
        rewrite bool_decide_eq_false_2 by done.
        assert (Hx1 : docAccessors d1 !! x = Some ax).
        { rewrite Ho; [done | done |].
          assert (x < dst)%nat by (apply Hlt; apply elem_of_cons; by right). lia. }
        destruct (Hfresh x ax Hx Hx1) as [Hle Hacc].
        split; [lia | done].
    + intros x Hx. rewrite elem_of_cons in Hx. destruct Hx as [->|Hx].
      * rewrite attributeLoop_other; [by apply Hdisp | done | | done].
        assert (src < dst)%nat by (apply Hlt; apply elem_of_cons; by left). lia.
      * rewrite (Hgone x Hx), (Hun x). done.
Qed.

Lemma elem_of_deepListAttributes (prim : Primitive) (x : AccId) :
  x ∈ deepListAttributes prim <-> x ∈ allSlotIds prim.
Proof.
  unfold deepListAttributes, allSlotIds. rewrite elem_of_dedupe.
  rewrite elem_of_nil. tauto.
Qed.

Lemma replaceAttributes_slots (rewrite : Accessor -> result Accessor) (p : PrimId)
    (d : Document) (prim : Primitive) :
  freshOk d ->
  docPrimitives d !! p = Some prim ->
  (forall x, x ∈ allSlotIds prim -> is_Some (docAccessors d !! x)) ->
  fst (replaceAttributes rewrite p d) = Ok tt ->
  let d' := snd (replaceAttributes rewrite p d) in
  exists sigma,
    docPrimitives d' !! p = Some (mapSlots sigma prim) /\
    (forall x a, x ∈ allSlotIds prim -> docAccessors d !! x = Some a ->
       (docNextAccessor d <= sigma x)%nat /\
       exists a', rewrite a = Ok a' /\ docAccessors d' !! sigma x = Some a') /\
    (forall x, x ∈ allSlotIds prim ->
       (docAccessors d' !! x = None
        <-> unshared d p x /\ primIndices prim <> Some x)).
Proof.
  intros Hf Hprim Hlive. unfold replaceAttributes. rewrite Hprim. intros Hok.
  destruct (attributeLoop_slots rewrite p (deepListAttributes prim) d prim)
    as (sigma & Hp & _ & Hfresh & Hgone).
  - apply NoDup_dedupe.
  - done.
  - done.
  - intros x Hx. apply Hlive. by apply elem_of_deepListAttributes.
  - done.
  - exists sigma. split; [done|]. split.
    + intros x a Hx. apply Hfresh. by apply elem_of_deepListAttributes.
    + intros x Hx. apply Hgone. by apply elem_of_deepListAttributes.
Qed.

Lemma lookupAttribute_elem (semantic : string) (l : list (string * AccId)) (x : AccId) :
  lookupAttribute semantic l = Some x -> x ∈ l.*2.
Proof.
  unfold lookupAttribute. induction l as [|[k v] l IH]; simpl; [done|].
  case_bool_decide as Hk; simpl.
  - intros [= ->]. apply elem_of_cons. by left.
  - intros Hl. apply elem_of_cons. right. by apply IH.
Qed.

Lemma getIndices_live (d : Document) (prim : Primitive) (i : AccId) (a : Accessor) :
  getIndices d prim = Some (i, a) ->
  primIndices prim = Some i /\ docAccessors d !! i = Some a.
Proof.
  unfold getIndices. destruct (primIndices prim) as [j|]; [|done].
  destruct (docAccessors d !! j) eqn:E; [|done].
  intros [= -> ->]. done.
Qed.

Lemma getAttribute_live (d : Document) (prim : Primitive) (semantic : string)
    (i : AccId) (a : Accessor) :
  getAttribute d prim semantic = Some (i, a) ->
  lookupAttribute semantic (primAttributes prim) = Some i /\
  docAccessors d !! i = Some a.
Proof.
  unfold getAttribute. destruct (lookupAttribute _ _) as [j|]; [|done].
  destruct (docAccessors d !! j) eqn:E; [|done].
  intros [= -> ->]. done.
Qed.

Lemma replaceIndices_other (A : PrimId) (src : AccId) (srcIndices : Accessor)
    (arr : TypedArray) (d : Document) (y : AccId) :
  y <> src -> y <> docNextAccessor d ->
  docAccessors (replaceIndices A src srcIndices arr d) !! y = docAccessors d !! y.
Proof.
  intros Hy1 Hy2. unfold replaceIndices, createAccessor.
  set (d2 := updatePrimitive _ _ _).
  destruct (disposeIfUnused_lookup src y d2) as [E|(Heq & _)]; [|done].
  rewrite E. unfold d2, updatePrimitive; simpl. by apply lookup_insert_ne.
Qed.

(** A slot of the primitive holds [x]: its index slot, or an attribute
    slot of the primitive or of a morph target. *)
Lemma references_true_iff (prim : Primitive) (x : AccId) :
  references prim x = true <-> primIndices prim = Some x \/ x ∈ allSlotIds prim.
Proof.
  unfold references, primRefs, allSlotIds, slotsRef.
  rewrite !orb_true_iff, bool_decide_eq_true, elem_of_app.
  assert (Ht : forall ts : list (list (string * AccId)),
            existsb (fun l => bool_decide (x ∈ l.*2)) ts = true
            <-> x ∈ concat (map (fun t => t.*2) ts)).
  { induction ts as [|t ts IH]; simpl.
    - rewrite elem_of_nil. split; [discriminate | done].
    - rewrite orb_true_iff, bool_decide_eq_true, elem_of_app, IH. done. }
  rewrite Ht, bool_decide_eq_true. tauto.
Qed.

Lemma allSlotIds_mapSlots (sigma : AccId -> AccId) (prim : Primitive) :
  allSlotIds (mapSlots sigma prim) = sigma <$> allSlotIds prim.
Proof.
  assert (Hl : forall l : list (string * AccId), (slotsMap sigma l).*2 = sigma <$> l.*2).
  { intros l. unfold slotsMap. induction l as [|[k v] l IH]; simpl; [done|].
    f_equal. exact IH. }
  unfold allSlotIds, mapSlots; simpl. rewrite fmap_app, Hl. f_equal.
  induction (primTargets prim) as [|t ts IH]; simpl; [done|].
  by rewrite fmap_app, Hl, IH.
Qed.

(** The index write disposes the old index accessor exactly when nothing
    holds it any more. *)
Lemma replaceIndices_disposes (A : PrimId) (src : AccId) (srcIndices : Accessor)
    (arr : TypedArray) (d : Document) (prim : Primitive) :
  freshOk d ->
  docPrimitives d !! A = Some prim ->
  is_Some (docAccessors d !! src) ->
  (docAccessors (replaceIndices A src srcIndices arr d) !! src = None
   <-> unshared d A src /\
       references (setIndices (Some (docNextAccessor d)) prim) src = false).
Proof.
  intros Hf Hprim [a Ha].
  assert (Hlt : (src < docNextAccessor d)%nat) by (apply Hf; eauto).
  unfold replaceIndices, createAccessor.
  set (d2 := updatePrimitive _ _ _).
  assert (Hother : forall q, q <> A -> docPrimitives d2 !! q = docPrimitives d !! q).
  { intros q Hq. unfold d2, updatePrimitive; simpl. by apply lookup_alter_ne. }
  assert (Hself : docPrimitives d2 !! A
                  = Some (setIndices (Some (docNextAccessor d)) prim)).
  { unfold d2, updatePrimitive; simpl. by rewrite lookup_alter_eq, Hprim. }
  assert (Hsrc2 : docAccessors d2 !! src = Some a).
  { unfold d2, updatePrimitive; simpl. rewrite lookup_insert_ne by lia. done. }
  assert (Hdisp : docAccessors (disposeIfUnused src d2) !! src = None
                  <-> length (listParents d2 src) = 1%nat).
  { unfold disposeIfUnused. case_bool_decide as Hlen.
    - simpl. rewrite lookup_delete_eq. tauto.
    - rewrite Hsrc2. split; [discriminate | done]. }
  rewrite Hdisp, listParents_root_only. split.
  - intros Hall. split.
    + intros q primq Hq Hprimq. apply (Hall q). by rewrite Hother.
    + by apply (Hall A).
  - intros [Hun Hself'] q primq Hprimq.
    destruct (decide (q = A)) as [->|Hq].
    + rewrite Hself in Hprimq. by injection Hprimq as <-.
    + apply (Hun q); [done|]. by rewrite <- Hother.
Qed.

(** ** Copy-on-write isolation (claim C5) *)

(** C5: let primitives [A] and [B] be distinct and let [A] be simplified.
    Then [B] is the primitive it was and every accessor it points at,
    through any slot, holds the data it held. No accessor of the document
    is rewritten: each is as before, or disposed, and it is disposed only
    if no primitive other than [A] held it, that is, when the root was its
    one remaining parent at the time of the check. When the call returns
    on a triangle primitive [A], the primitive is what it was with its
    index slot and every attribute slot, those of its morph targets
    included, swapped to an accessor that did not exist before; the new
    attribute accessors hold what [remapAttribute] makes of the sources
    with the table and the count that [compactMesh] returned for the
    result of [simplify]; and a source, like the old index accessor, is
    gone exactly when no primitive other than [A] held it. *)
Theorem simplifyPrimitive_copy_on_write (w : World) (A B : PrimId)
    (_options : SimplifyOptions) (primB : Primitive) :
  freshOk (document w) ->
  A <> B ->
  docPrimitives (document w) !! B = Some primB ->
  let d := document w in
  let d' := document (snd (simplifyPrimitive A _options w)) in
  docPrimitives d' !! B = Some primB /\
  (forall x a, references primB x = true -> docAccessors d !! x = Some a ->
     docAccessors d' !! x = Some a) /\
  (forall x a, docAccessors d !! x = Some a ->
     docAccessors d' !! x = Some a
     \/ (docAccessors d' !! x = None /\
         forall q prim, q <> A -> docPrimitives d !! q = Some prim ->
                        references prim x = false)) /\
  (forall primA,
     docPrimitives d !! A = Some primA ->
     primMode primA <> POINTS ->
     (forall x, x ∈ allSlotIds primA -> is_Some (docAccessors d !! x)) ->
     fst (simplifyPrimitive A _options w) = Ok tt ->
     exists iid srcIndices pid position positions s simplified dst remap unique
            sigma dstId,
       getIndices d primA = Some (iid, srcIndices) /\
       getAttribute d primA "POSITION" = Some (pid, position) /\
       positionFloats position = Ok positions /\
       simplifier (withDefaults _options) = Some s /\
       msSimplify s (useExperimentalFeatures w) (indexUint32 srcIndices) positions 3
         (targetIndexCount (ratio (withDefaults _options)) (getCount srcIndices))
         (error (withDefaults _options))
         (lockFlags (lockBorder (withDefaults _options))) = Ok simplified /\
       msCompactMesh s (useExperimentalFeatures w) (fst simplified)
         = Ok (dst, remap, unique) /\
       docPrimitives d' !! A = Some (setIndices (Some dstId) (mapSlots sigma primA)) /\
       docAccessors d !! dstId = None /\
       docAccessors d' !! dstId
         = Some (setArray (dstIndexArray (getCount position) dst) srcIndices) /\
       (forall x a, x ∈ allSlotIds primA -> docAccessors d !! x = Some a ->
          docAccessors d !! sigma x = None /\
          exists a', remapAttribute remap unique a = Ok a' /\
                     docAccessors d' !! sigma x = Some a') /\
       (forall x, x ∈ allSlotIds primA \/ x = iid ->
          (docAccessors d' !! x = None
           <-> forall q prim, q <> A -> docPrimitives d !! q = Some prim ->
                              references prim x = false))).
Proof.
  intros Hf HAB HB. cbv zeta.
  pose proof (simplifyPrimitive_evolves A _options w) as (Hn & Hm & Hp & Hmode & He).
  destruct (He Hf) as (Hf' & Ha).
  assert (Hkeep : forall x a, docAccessors (document w) !! x = Some a ->
            docAccessors (document (snd (simplifyPrimitive A _options w))) !! x = Some a
            \/ (docAccessors (document (snd (simplifyPrimitive A _options w))) !! x = None
                /\ unshared (document w) A x)).
  { intros x a Hx. assert (x < docNextAccessor (document w))%nat by (apply Hf; eauto).
    destruct (Ha x) as [E|[E U]]; [done | left; congruence | right; done]. }
  split; [by rewrite Hp|]. split; [|split; [exact Hkeep|]].
  - intros x a Hr Hx. destruct (Hkeep x a Hx) as [E|[_ U]]; [done|].
    rewrite (U B primB) in Hr; [discriminate | done | done].
  - intros primA HA HmodeA Hlive Hok.
    destruct (simplifyPrimitive_triangles_inv w A _options primA HA HmodeA Hok)
      as (iid & pid & srcIndices & position & positions & s & simplified & dst & remap
          & unique & Hidx & Hpos & Hfloats & Hs & Hsimp & Hcomp & Hloop & Hw).
    rewrite Hw. unfold triangleResult, triangleRemapped. cbn [document].
    destruct (replaceAttributes_slots (remapAttribute remap unique) A (document w)
                primA Hf HA Hlive Hloop) as (sigma & Hp1 & Hfresh & Hgone).
    set (d1 := snd (replaceAttributes (remapAttribute remap unique) A (document w))) in *.
    destruct (replaceIndices_prim A iid srcIndices
                (dstIndexArray (getCount position) dst) d1 _ Hp1) as (Hp2 & Hdst2).
    pose proof (replaceAttributes_evolves (remapAttribute remap unique) A (document w))
      as (Hn1 & _ & Hq1 & _ & He1).
    fold d1 in Hn1, Hq1, He1.
    destruct (He1 Hf) as (Hf1 & Ha1).
    destruct (getIndices_live _ _ _ _ Hidx) as [Hpi Hiid].
    assert (Hiidlt : (iid < docNextAccessor (document w))%nat) by (apply Hf; eauto).
    assert (Hslotlt : forall x, x ∈ allSlotIds primA ->
              (x < docNextAccessor (document w))%nat).
    { intros x Hx. apply Hf. by apply Hlive. }
    assert (Hun : forall x, unshared d1 A x <-> unshared (document w) A x).
    { intros x. split; intros Hu q primq Hq Hprimq; apply (Hu q primq Hq).
      - by rewrite Hq1.
      - by rewrite <- Hq1. }
    assert (Hnew : forall x, (x < docNextAccessor (document w))%nat ->
              references (setIndices (Some (docNextAccessor d1)) (mapSlots sigma primA)) x
              = false).
    { intros x Hx. apply not_true_is_false. rewrite references_true_iff.
      cbn [setIndices primIndices]. intros [[= Heq]|Hin]; [lia|].
      change (allSlotIds (setIndices _ (mapSlots sigma primA)))
        with (allSlotIds (mapSlots sigma primA)) in Hin.
      rewrite allSlotIds_mapSlots in Hin.
      apply list_elem_of_fmap in Hin as (y & -> & Hy).
      destruct (Hlive y Hy) as [ay Hay].
      destruct (Hfresh y ay Hy Hay) as [Hle _]. lia. }
    exists iid, srcIndices, pid, position, positions, s, simplified, dst, remap, unique,
      sigma, (docNextAccessor d1).
    split; [done|]. split; [done|]. split; [done|]. split; [done|].
    split; [done|]. split; [done|]. split; [exact Hp2|].
    split.
    { destruct (docAccessors (document w) !! docNextAccessor d1) eqn:E; [|done].
      assert (docNextAccessor d1 < docNextAccessor (document w))%nat
        by (apply Hf; eauto). lia. }
    split; [exact Hdst2|].
    split.
    + intros x a Hx Hxa.
      destruct (Hfresh x a Hx Hxa) as [Hle (a' & Hr & Hacc)].
      split.
      * destruct (docAccessors (document w) !! sigma x) eqn:E; [|done].
        assert (sigma x < docNextAccessor (document w))%nat by (apply Hf; eauto). lia.
      * exists a'. split; [done|].
        rewrite replaceIndices_other; [done | lia |].
        assert (sigma x < docNextAccessor d1)%nat; [|lia].
        apply Hf1. eauto.
    + intros x Hx.
      destruct (decide (x = iid)) as [->|Hne].
      * assert (Hlive1 : is_Some (docAccessors d1 !! iid)).
        { destruct (Ha1 iid Hiidlt) as [E|[E U]]; [rewrite E; eauto|].
          destruct (decide (iid ∈ allSlotIds primA)) as [Hin|Hout].
          - apply (Hgone iid Hin) in E as [_ Hcontra]. done.
          - exfalso. revert E. unfold d1, replaceAttributes. rewrite HA.
            rewrite attributeLoop_other; [by rewrite Hiid | done | done |].
            by rewrite elem_of_deepListAttributes. }
        rewrite (replaceIndices_disposes A iid srcIndices _ d1 _ Hf1 Hp1 Hlive1).
        rewrite (Hun iid), (Hnew iid Hiidlt). unfold unshared. tauto.
      * destruct Hx as [Hx|Hx]; [|done].
        rewrite replaceIndices_other; [|done|].
        2:{ specialize (Hslotlt x Hx). lia. }
        rewrite (Hgone x Hx), Hpi. unfold unshared. split; [tauto|].
        intros Hu. split; [done | congruence].
Qed.

(** ** What a computation adds to the trace *)

Section Emits.

Variable P : Event -> Prop.

Lemma emits_silent {A} (m : M A) :
  (forall w, trace (snd (m w)) = trace w) -> emits P m.
Proof. intros H w. exists []. rewrite H, app_nil_r. by split. Qed.

Lemma emits_ret {A} (a : A) : emits P (ret a).
Proof. by apply emits_silent. Qed.

Lemma emits_throw {A} (e : Exn) : emits P (throw (A := A) e).
Proof. by apply emits_silent. Qed.

Lemma emits_liftResult {A} (r : result A) : emits P (liftResult r).
Proof. by apply emits_silent. Qed.

Lemma emits_gets {A} (f : World -> A) : emits P (gets f).
Proof. by apply emits_silent. Qed.

Lemma emits_setExperimental (b : bool) : emits P (setExperimental b).
Proof. by apply emits_silent. Qed.

Lemma emits_modifyDocument (f : Document -> Document) : emits P (modifyDocument f).
Proof. by apply emits_silent. Qed.

Lemma emits_updateDocument (f : Document -> result unit * Document) :
  emits P (updateDocument f).
Proof. by apply emits_silent. Qed.

Lemma emits_nonNull {A} (what : string) (o : option A) : emits P (nonNull what o).
Proof. destruct o; [apply emits_ret | apply emits_throw]. Qed.

Lemma emits_getPrimitive (p : PrimId) : emits P (getPrimitive p).
Proof. apply emits_silent. intros w. unfold getPrimitive. by destruct (_ !! _). Qed.

Lemma emits_emit (e : Event) : P e -> emits P (emit e).
Proof. intros He w. exists [e]. split; [done | by constructor]. Qed.

Lemma emits_bind {A B} (m : M A) (k : A -> M B) :
  emits P m -> (forall a, emits P (k a)) -> emits P (bind m k).
Proof.
  intros Hm Hk w. unfold bind.
  destruct (Hm w) as (t1 & Ht1 & HP1).
  destruct (m w) as [[a|e] w1]; simpl in *; [|by exists t1].
  destruct (Hk a w1) as (t2 & Ht2 & HP2).
  exists (t1 ++ t2). rewrite Ht2, Ht1, app_assoc. split; [done|].
  by apply Forall_app.
Qed.

Lemma emits_forEach {A} (l : list A) (body : A -> M unit) :
  (forall x, emits P (body x)) -> emits P (forEach l body).
Proof.
  intros Hbody. induction l as [|x l IH]; simpl.
  - apply emits_ret.
  - apply emits_bind; [apply Hbody | intros _; apply IH].
Qed.

End Emits.

Ltac emits_walk :=
  repeat match goal with
  | |- forall _, _ => intro
  | |- emits _ (bind _ _) => apply emits_bind
  | |- emits _ (ret _) => apply emits_ret
  | |- emits _ (throw _) => apply emits_throw
  | |- emits _ (nonNull _ _) => apply emits_nonNull
  | |- emits _ (gets _) => apply emits_gets
  | |- emits _ (liftResult _) => apply emits_liftResult
  | |- emits _ (setExperimental _) => apply emits_setExperimental
  | |- emits _ (getPrimitive _) => apply emits_getPrimitive
  | |- emits _ (modifyDocument _) => apply emits_modifyDocument
  | |- emits _ (updateDocument _) => apply emits_updateDocument
  | |- emits _ (colorComponentSize _) => unfold colorComponentSize
  | |- emits _ (emit _) => apply emits_emit; exact I
  | |- emits _ (forEach _ _) => apply emits_forEach
  | |- emits _ (match ?x with _ => _ end) => destruct x
  end.

Lemma simplifyPrimitive_emits (p : PrimId) (_options : SimplifyOptions) :
  emits primitiveEvent (simplifyPrimitive p _options).
Proof.
  unfold simplifyPrimitive, _simplifyPoints, callSimplify, callCompactMesh,
    callSimplifyPoints.
  emits_walk.
Qed.

Lemma simplifyMeshPrimitive_emits (options : RequiredOptions) (s : MeshoptSimplifier)
    (mesh : MeshId) (p : PrimId) :
  emits primitiveEvent (simplifyMeshPrimitive options s mesh p).
Proof.
  unfold simplifyMeshPrimitive.
  emits_walk; apply simplifyPrimitive_emits.
Qed.

Lemma simplifyMesh_emits (options : RequiredOptions) (s : MeshoptSimplifier)
    (mesh : MeshId) :
  emits primitiveEvent (simplifyMesh options s mesh).
Proof.
  unfold simplifyMesh. emits_walk. apply simplifyMeshPrimitive_emits.
Qed.

Lemma simplifyMeshes_emits (options : RequiredOptions) (s : MeshoptSimplifier) :
  emits primitiveEvent (simplifyMeshes options s).
Proof.
  unfold simplifyMeshes. emits_walk. apply simplifyMesh_emits.
Qed.

(** ** Pending passes *)

Lemma lastIndexFrom_app (i found : Z) (name : string) (l1 l2 : list string) :
  lastIndexFrom i found name (l1 ++ l2)
  = lastIndexFrom (i + Z.of_nat (length l1)) (lastIndexFrom i found name l1) name l2.
Proof.
  revert i found. induction l1 as [|x l1 IH]; intros i found; simpl.
  - by rewrite Z.add_0_r.
  - rewrite IH. f_equal. lia.
Qed.

Lemma lastIndexFrom_absent (i found : Z) (name : string) (l : list string) :
  name ∉ l -> lastIndexFrom i found name l = found.
Proof.
  revert i found. induction l as [|x l IH]; intros i found Hno; simpl; [done|].
  rewrite not_elem_of_cons in Hno. destruct Hno as [Hne Hno].
  rewrite bool_decide_eq_false_2 by done. by apply IH.
Qed.

Lemma lastIndexFrom_present (i found : Z) (name : string) (l : list string) :
  name ∈ l -> i <= lastIndexFrom i found name l < i + Z.of_nat (length l).
Proof.
  revert i found. induction l as [|x l IH]; intros i found Hin; simpl.
  - by apply elem_of_nil in Hin.
  - destruct (decide (name ∈ l)) as [Hl|Hl].
    + specialize (IH (i + 1) (if bool_decide (x = name) then i else found) Hl). lia.
    + apply elem_of_cons in Hin. destruct Hin as [->|Hin]; [|done].
      rewrite lastIndexFrom_absent by done.
      rewrite bool_decide_eq_true_2 by done. lia.
Qed.

Lemma lastIndexOf_last (name : string) (pre post : list string) :
  name ∉ post -> lastIndexOf name (pre ++ name :: post) = Z.of_nat (length pre).
Proof.
  intros Hno. unfold lastIndexOf. rewrite lastIndexFrom_app. simpl.
  rewrite bool_decide_eq_true_2 by done. by rewrite lastIndexFrom_absent.
Qed.

Lemma lastIndexOf_before (name : string) (pre post : list string) :
  name ∉ post -> lastIndexOf name (pre ++ post) < Z.of_nat (length pre).
Proof.
  intros Hno. unfold lastIndexOf. rewrite lastIndexFrom_app.
  rewrite lastIndexFrom_absent by done.
  destruct (decide (name ∈ pre)) as [Hin|Hin].
  - pose proof (lastIndexFrom_present 0 (-1) name pre Hin). lia.
  - rewrite lastIndexFrom_absent by done. lia.
Qed.

Lemma lastIndexOf_after (name : string) (pre post : list string) :
  name ∈ post -> Z.of_nat (length pre) <= lastIndexOf name (pre ++ post).
Proof.
  intros Hin. unfold lastIndexOf. rewrite lastIndexFrom_app.
  pose proof (lastIndexFrom_present (0 + Z.of_nat (length pre))
                (lastIndexFrom 0 (-1) name pre) name post Hin). lia.
Qed.

Lemma lastIndexOf_lt (initial pending : string) (l : list string) :
  lastIndexOf initial l < lastIndexOf pending l
  <-> exists pre post,
        l = pre ++ pending :: post /\ (pending ∉ post) /\ (initial ∉ pending :: post).
Proof.
  split.
  - intros Hlt.
    assert (Hin : pending ∈ l).
    { destruct (decide (pending ∈ l)) as [|Hno]; [done|]. exfalso.
      unfold lastIndexOf in Hlt. rewrite (lastIndexFrom_absent _ _ pending) in Hlt by done.
      destruct (decide (initial ∈ l)) as [Hi|Hi].
      - pose proof (lastIndexFrom_present 0 (-1) initial l Hi). lia.
      - rewrite lastIndexFrom_absent in Hlt by done. lia. }
    apply list_elem_of_split_r in Hin. destruct Hin as (pre & post & -> & Hno).
    exists pre, post. split; [done|]. split; [done|].
    intros Hi. rewrite lastIndexOf_last in Hlt by done.
    pose proof (lastIndexOf_after initial pre (pending :: post) Hi). lia.
  - intros (pre & post & -> & Hno & Hi).
    rewrite lastIndexOf_last by done. by apply lastIndexOf_before.
Qed.

Lemma isTransformPending_stack (context : option TransformContext)
    (initial pending : string) :
  isTransformPending context initial pending = true
  <-> exists c pre post,
        context = Some c /\ stack c = pre ++ pending :: post
        /\ (pending ∉ post) /\ (initial ∉ pending :: post).
Proof.
  unfold isTransformPending. destruct context as [c|].
  - rewrite Z.ltb_lt, lastIndexOf_lt. split.
    + intros (pre & post & H). by exists c, pre, post.
    + intros (c' & pre & post & [= <-] & H). by exists pre, post.
  - split; [done|]. by intros (c & pre & post & [=] & _).
Qed.

(** ** Order of the phases (claim C9) *)

Lemma transform_run (ev : Event) (pass : Pass) (w : World) :
  transform ev pass w =
    (fst (pass (document w)),
     {| document := snd (pass (document w));
        useExperimentalFeatures := useExperimentalFeatures w;
        trace := trace w ++ [ev] |}).
Proof. unfold transform. run_monad. by destruct (pass (document w)). Qed.

(** A run of the transform, one case for each phase where it can stop. *)
Lemma simplifyTransform_run (options : RequiredOptions) (s : MeshoptSimplifier)
    (context : option TransformContext) (w : World) :
  simplifyTransform options s context w =
    match msReady s with
    | Throw e =>
      (Throw e, {| document := document w;
                   useExperimentalFeatures := useExperimentalFeatures w;
                   trace := trace w ++ [EvReady] |})
    | Ok _ =>
      match fst (weld {| overwrite := false |} (document w)) with
      | Throw e => (Throw e, afterWeld w)
      | Ok _ =>
        match fst (simplifyMeshes options s (afterWeld w)) with
        | Throw e => (Throw e, afterLoop options s w)
        | Ok _ =>
          match fst (prune pruneOptions (document (afterLoop options s w))) with
          | Throw e => (Throw e, afterPrune options s w)
          | Ok _ =>
            if isTransformPending context NAME "dedup"
            then (Ok tt, afterReport (afterPrune options s w))
            else
              match fst (dedup dedupOptions (document (afterPrune options s w))) with
              | Throw e => (Throw e, afterDedup options s w)
              | Ok _ => (Ok tt, afterReport (afterDedup options s w))
              end
          end
        end
      end
    end.
Proof.
  unfold simplifyTransform.
  unfold bind at 1. unfold emit at 1.
  unfold bind at 1. unfold liftResult at 1.
  destruct (msReady s) as [[]|e]; [|done].
  unfold bind at 1. rewrite transform_run. cbn [document trace useExperimentalFeatures].
  rewrite <- app_assoc. cbn [app]. fold (afterWeld w).
  destruct (fst (weld {| overwrite := false |} (document w))) as [[]|e]; [|done].
  unfold bind at 1. unfold afterDedup, afterPrune, afterLoop.
  destruct (simplifyMeshes options s (afterWeld w)) as [[[]|e] w2]; cbn [fst snd];
    [|done].
  unfold bind at 1. rewrite transform_run.
  destruct (fst (prune pruneOptions (document w2))) as [[]|e]; [|done].
  unfold bind at 1.
  destruct (isTransformPending context NAME "dedup"); cbn [negb].
  - reflexivity.
  - rewrite transform_run. cbn [document trace useExperimentalFeatures].
    by destruct (fst (dedup dedupOptions _)) as [[]|e].
Qed.

Lemma primitiveEvent_not_dedup (mid : list Event) (o : DedupOptions) :
  Forall primitiveEvent mid -> EvDedup o ∉ mid.
Proof.
  intros H Hin. rewrite Forall_forall in H. by apply H in Hin.
Qed.

(** What a run adds to the trace: a prefix of its phases, all of them
    when it returns, and a dedup event only when no dedup pass is
    pending. *)
Lemma simplifyTransform_trace (options : RequiredOptions) (s : MeshoptSimplifier)
    (context : option TransformContext) (w : World) :
  exists mid t,
    Forall primitiveEvent mid /\
    trace (afterLoop options s w) = trace (afterWeld w) ++ mid /\
    trace (snd (simplifyTransform options s context w)) = trace w ++ t /\
    (exists rest, phases context mid = t ++ rest) /\
    (fst (simplifyTransform options s context w) = Ok tt -> t = phases context mid) /\
    ((exists o, EvDedup o ∈ t) -> isTransformPending context NAME "dedup" = false).
Proof.
  destruct (simplifyMeshes_emits options s (afterWeld w)) as (mid & Hmid & HP).
  fold (afterLoop options s w) in Hmid.
  pose proof (fun o => primitiveEvent_not_dedup mid o HP) as Hno.
  assert (Hloop : trace (afterLoop options s w)
                  = trace w ++ [EvReady; EvWeld {| overwrite := false |}] ++ mid).
  { rewrite Hmid. unfold afterWeld; cbn [trace]. by rewrite <- app_assoc. }
  exists mid. rewrite simplifyTransform_run. unfold phases, dedupPhase.
  destruct (msReady s) as [[]|e].
  2:{ exists [EvReady]. split; [done|]. split; [done|]. split; [done|].
      split; [by eexists|]. split; [discriminate|].
      intros [o Hin]. rewrite elem_of_cons, elem_of_nil in Hin.
      by destruct Hin as [|[]]. }
  destruct (fst (weld _ _)) as [[]|e].
  2:{ exists [EvReady; EvWeld {| overwrite := false |}].
      split; [done|]. split; [done|]. split; [done|].
      split; [by eexists|]. split; [discriminate|].
      intros [o Hin]. rewrite !elem_of_cons, elem_of_nil in Hin.
      by destruct Hin as [|[|[]]]. }
  destruct (fst (simplifyMeshes _ _ _)) as [[]|e].
  2:{ exists ([EvReady; EvWeld {| overwrite := false |}] ++ mid).
      split; [done|]. split; [done|]. split; [done|].
      split; [by eexists|]. split; [discriminate|].
      intros [o Hin]. rewrite elem_of_app, !elem_of_cons, elem_of_nil in Hin.
      destruct Hin as [[|[|[]]]|Hin]; try discriminate. by apply Hno in Hin. }
  destruct (fst (prune _ _)) as [[]|e].
  2:{ exists ([EvReady; EvWeld {| overwrite := false |}] ++ mid ++ [EvPrune pruneOptions]).
      split; [done|]. split; [done|].
      split; [cbn [snd afterPrune trace]; by rewrite Hloop, <- !app_assoc|].
      split; [eexists; by rewrite <- !app_assoc|]. split; [discriminate|].
      intros [o Hin]. rewrite !elem_of_app, !elem_of_cons, elem_of_nil in Hin.
      destruct Hin as [[|[|[]]]|[Hin|[|[]]]]; try discriminate. by apply Hno in Hin. }
  destruct (isTransformPending context NAME "dedup").
  - exists ([EvReady; EvWeld {| overwrite := false |}] ++ mid
            ++ [EvPrune pruneOptions] ++ [] ++ [EvDebug Complete]).
    split; [done|]. split; [done|].
    split; [cbn [snd afterReport afterPrune trace]; by rewrite Hloop, <- !app_assoc|].
    split; [exists []; by rewrite app_nil_r|]. split; [done|].
    intros [o Hin]. rewrite !elem_of_app, !elem_of_cons, !elem_of_nil in Hin.
    destruct Hin as [[|[|[]]]|[Hin|[[|[]]|[[]|[|[]]]]]]; try discriminate.
    by apply Hno in Hin.
  - destruct (fst (dedup _ _)) as [[]|e].
    + exists ([EvReady; EvWeld {| overwrite := false |}] ++ mid
              ++ [EvPrune pruneOptions] ++ [EvDedup dedupOptions] ++ [EvDebug Complete]).
      split; [done|]. split; [done|].
      split; [cbn [snd afterReport afterDedup afterPrune trace];
              by rewrite Hloop, <- !app_assoc|].
      split; [exists []; by rewrite app_nil_r|]. by split.
    + exists ([EvReady; EvWeld {| overwrite := false |}] ++ mid
              ++ [EvPrune pruneOptions] ++ [EvDedup dedupOptions]).
      split; [done|]. split; [done|].
      split; [cbn [snd afterDedup afterPrune trace]; by rewrite Hloop, <- !app_assoc|].
      split; [eexists; by rewrite <- !app_assoc|]. by split.
Qed.

(** C9: a run of the transform goes through its phases in one order:
    wait for the decimator, weld without overwriting, simplify the
    primitives of every mesh, prune, dedup, report. A run that returns
    went through all of them, each returning, and each on the document
    that the one before left: the world at the end is that of the last
    phase, with the report logged. What a run adds to the trace is a
    prefix of the sequence of phases, and all of it when the run returns;
    between the weld and the prune events there are only events of the
    per-primitive phase. The dedup pass is run exactly when no [dedup]
    pass is pending: when one is pending the document is the one that
    [prune] left and no run logs a dedup event; and one is pending exactly
    when the context's stack of pass names lists [dedup] after the last
    [simplify]. *)
Theorem simplify_phase_order (options : RequiredOptions) (s : MeshoptSimplifier)
    (context : option TransformContext) (w : World) :
  let run := simplifyTransform options s context w in
  (fst run = Ok tt ->
   msReady s = Ok tt /\
   fst (weld {| overwrite := false |} (document w)) = Ok tt /\
   fst (simplifyMeshes options s (afterWeld w)) = Ok tt /\
   fst (prune pruneOptions (document (afterLoop options s w))) = Ok tt /\
   (if isTransformPending context NAME "dedup"
    then snd run = afterReport (afterPrune options s w)
    else fst (dedup dedupOptions (document (afterPrune options s w))) = Ok tt /\
         snd run = afterReport (afterDedup options s w))) /\
  (exists mid,
     Forall primitiveEvent mid /\
     trace (afterLoop options s w) = trace (afterWeld w) ++ mid /\
     (exists rest, trace w ++ phases context mid = trace (snd run) ++ rest) /\
     (fst run = Ok tt -> trace (snd run) = trace w ++ phases context mid) /\
     (forall t, trace (snd run) = trace w ++ t ->
        ((exists o, EvDedup o ∈ t) -> isTransformPending context NAME "dedup" = false) /\
        (fst run = Ok tt -> isTransformPending context NAME "dedup" = false ->
         EvDedup dedupOptions ∈ t))) /\
  (isTransformPending context NAME "dedup" = true
   <-> exists c pre post,
         context = Some c /\ stack c = pre ++ "dedup" :: post
         /\ ("dedup" ∉ post) /\ (NAME ∉ post)).
Proof.
  cbv zeta. split; [|split].
  - rewrite simplifyTransform_run.
    destruct (msReady s) as [[]|e]; [|discriminate].
    destruct (fst (weld _ _)) as [[]|e]; [|discriminate].
    destruct (fst (simplifyMeshes _ _ _)) as [[]|e]; [|discriminate].
    destruct (fst (prune _ _)) as [[]|e]; [|discriminate].
    destruct (isTransformPending context NAME "dedup"); [done|].
    by destruct (fst (dedup _ _)) as [[]|e].
  - destruct (simplifyTransform_trace options s context w)
      as (mid & t & HP & Hloop & Ht & [rest Hrest] & Hall & Hdedup).
    exists mid. split; [done|]. split; [done|].
    split; [exists rest; by rewrite Ht, Hrest, app_assoc|].
    split; [intros Hok; by rewrite Ht, (Hall Hok)|].
    intros t' Ht'. rewrite Ht in Ht'. apply app_inv_head in Ht'. subst t'.
    split; [done|]. intros Hok Hpending. rewrite (Hall Hok).
    unfold phases, dedupPhase. rewrite Hpending.
    rewrite !elem_of_app, !elem_of_cons. right. right. right. left. by left.
  - rewrite isTransformPending_stack.
    split; intros (c & pre & post & Hc & Hstack & Hlast & Hself); exists c, pre, post;
      (split; [exact Hc|]); (split; [exact Hstack|]); (split; [exact Hlast|]).
    + rewrite not_elem_of_cons in Hself. by destruct Hself.
    + rewrite not_elem_of_cons. split; [discriminate|exact Hself].
Qed.

(** ** Loops with an invariant *)

Lemma forEach_stable {A} (I Q : World -> Prop) (l : list A) (body : A -> M unit) :
  (forall y w, y ∈ l -> I w -> I (snd (body y w))) ->
  (forall y w, y ∈ l -> I w -> Q w -> fst (body y w) = Ok tt -> Q (snd (body y w))) ->
  forall w, I w -> Q w ->
    I (snd (forEach l body w)) /\
    (fst (forEach l body w) = Ok tt -> Q (snd (forEach l body w))).
Proof.
  induction l as [|x l IH]; intros HI HQ w Hw Hq; simpl; [done|].
  unfold bind.
  assert (Hx : x ∈ x :: l) by (apply elem_of_cons; by left).
  pose proof (HI x w Hx Hw) as HI1. pose proof (HQ x w Hx Hw Hq) as HQ1.
  destruct (body x w) as [[[]|e] w1]; simpl in *; [|done].
  apply IH; [| |done|by apply HQ1].
  - intros y w' Hy. apply HI. apply elem_of_cons. by right.
  - intros y w' Hy. apply HQ. apply elem_of_cons. by right.
Qed.

(** An invariant [I] kept by every round, and for every element a fact
    [E] that its round establishes when it returns and that the rounds
    that return keep: after the loop the invariant holds, and so does
    every [E] when the loop returned. *)
Lemma forEach_invariant {A} (I : World -> Prop) (E : A -> World -> Prop) (l : list A)
    (body : A -> M unit) :
  (forall y w, y ∈ l -> I w -> I (snd (body y w))) ->
  (forall y w, y ∈ l -> I w -> fst (body y w) = Ok tt -> E y (snd (body y w))) ->
  (forall x y w, y ∈ l -> I w -> E x w -> fst (body y w) = Ok tt ->
     E x (snd (body y w))) ->
  forall w, I w ->
    I (snd (forEach l body w)) /\
    (fst (forEach l body w) = Ok tt -> forall x, x ∈ l -> E x (snd (forEach l body w))).
Proof.
  induction l as [|x l IH]; intros HI HE HS w Hw; simpl.
  - split; [done|]. intros _ y Hy. by apply elem_of_nil in Hy.
  - unfold bind.
    assert (Hx : x ∈ x :: l) by (apply elem_of_cons; by left).
    pose proof (HI x w Hx Hw) as HI1. pose proof (HE x w Hx Hw) as HE1.
    destruct (body x w) as [[[]|e] w1]; simpl in *; [|done].
    assert (HIl : forall y w', y ∈ l -> I w' -> I (snd (body y w'))).
    { intros y w' Hy. apply HI. apply elem_of_cons. by right. }
    destruct (IH HIl) with (w := w1) as [HIend HEend]; [| |done|].
    { intros y w' Hy. apply HE. apply elem_of_cons. by right. }
    { intros z y w' Hy. apply HS. apply elem_of_cons. by right. }
    split; [done|]. intros Hok y Hy. apply elem_of_cons in Hy as [->|Hy].
    + apply (forEach_stable I (E x) l body); [done| |done|by apply HE1|done].
      intros z w' Hz. apply HS. apply elem_of_cons. by right.
    + by apply HEend.
Qed.



(** One primitive of the loop stays within any preorder that contains
    the operations on that primitive and its disposal. *)
Lemma simplifyMeshPrimitive_preserves_rel (R : Document -> Document -> Prop)
    (options : RequiredOptions) (s : MeshoptSimplifier) (mesh : MeshId) (q : PrimId) :
  (forall d, R d d) ->
  (forall d1 d2 d3, R d1 d2 -> R d2 d3 -> R d1 d3) ->
  (forall d d', evolves q d d' -> R d d') ->
  (forall d, R d (disposePrimitive q d)) ->
  preserves R (simplifyMeshPrimitive options s mesh q).
Proof.
  intros Hrefl Htrans Hev Hdis.
  assert (Hsimp : forall o, preserves R (simplifyPrimitive q o)).
  { intros o. eapply preserves_mono; [|apply simplifyPrimitive_evolves]. exact Hev. }
  unfold simplifyMeshPrimitive.
  preserves_walk Hrefl Htrans; auto.
Qed.

(** The same for a property of documents. *)
Lemma simplifyMeshPrimitive_preserves (I : Document -> Prop) (options : RequiredOptions)
    (s : MeshoptSimplifier) (mesh : MeshId) (q : PrimId) :
  (forall d d', evolves q d d' -> I d -> I d') ->
  (forall d, I d -> I (disposePrimitive q d)) ->
  preserves (fun d d' => I d -> I d') (simplifyMeshPrimitive options s mesh q).
Proof.
  intros Hev Hdis. apply simplifyMeshPrimitive_preserves_rel; auto.
Qed.

(** ** Unsupported primitives (claim C8) *)




(** The round of the skipped primitive itself: a warning and nothing
    else. *)
Lemma simplifyMeshPrimitive_skips (options : RequiredOptions) (s : MeshoptSimplifier)
    (mesh : MeshId) (p : PrimId) (prim : Primitive) (w : World) :
  docPrimitives (document w) !! p = Some prim ->
  unsupported s prim ->
  simplifyMeshPrimitive options s mesh p w =
    (Ok tt, {| document := document w;
               useExperimentalFeatures := useExperimentalFeatures w;
               trace := trace w ++ [EvWarn (SkippingPrimitive (getName mesh (document w)))] |}).
Proof.
  intros Hprim [Htri Hpts]. unfold simplifyMeshPrimitive. run_monad.
  rewrite Hprim. rewrite bool_decide_eq_false_2 by done.
  assert (Hcond : bool_decide (primMode prim = POINTS)
                  && bool_decide (is_Some (msSimplifyPoints s)) = false).
  { destruct Hpts as [Hp|Hp].
    - by rewrite bool_decide_eq_false_2.
    - rewrite Hp. rewrite (bool_decide_eq_false_2 (is_Some None)).
      + apply andb_false_r.
      + by intros [? ?]. }
  rewrite Hcond. reflexivity.
Qed.

Lemma simplifyMesh_run (options : RequiredOptions) (s : MeshoptSimplifier)
    (mesh : MeshId) (w : World) :
  simplifyMesh options s mesh w =
    match forEach (listPrimitives mesh (document w))
                  (simplifyMeshPrimitive options s mesh) w with
    | (Throw e, w1) => (Throw e, w1)
    | (Ok _, w1) =>
      if bool_decide (length (listPrimitives mesh (document w1)) = 0%nat)
      then (Ok tt, {| document := disposeMesh mesh (document w1);
                      useExperimentalFeatures := useExperimentalFeatures w1;
                      trace := trace w1 |})
      else (Ok tt, w1)
    end.
Proof.
  unfold simplifyMesh. run_monad.
  destruct (forEach _ _ w) as [[[]|e] w1]; [|done].
  by case_bool_decide.
Qed.

Lemma elem_of_listMeshes (d : Document) (m : MeshId) :
  m ∈ listMeshes d <-> is_Some (docMeshes d !! m).
Proof.
  unfold listMeshes. rewrite merge_sort_Permutation, list_elem_of_fmap. split.
  - intros ([m' me] & -> & Hin). apply elem_of_map_to_list in Hin. eauto.
  - intros [me Hme]. exists (m, me). split; [done|]. by apply elem_of_map_to_list.
Qed.

Lemma simplifyMeshes_run (options : RequiredOptions) (s : MeshoptSimplifier) (w : World) :
  simplifyMeshes options s w
    = forEach (listMeshes (document w)) (simplifyMesh options s) w.
Proof. reflexivity. Qed.

Section Untouched.

Variables (options : RequiredOptions) (s : MeshoptSimplifier).
Variables (w0 : World) (p : PrimId) (prim : Primitive) (m : MeshId) (name : string).
Hypothesis Hunsupported : unsupported s prim.

(** The invariant of both loops, and the fact to establish. *)
Let inv (w : World) : Prop :=
  untouched p prim m name (document w0) (document w) /\
  exists t, trace w = trace w0 ++ t.






End Untouched.


(** ** Degenerate results (claim C6) *)

Lemma simplifyMeshPrimitive_run (options : RequiredOptions) (s : MeshoptSimplifier)
    (mesh : MeshId) (q : PrimId) (w : World) (prim : Primitive) :
  docPrimitives (document w) !! q = Some prim ->
  simplifyMeshPrimitive options s mesh q w =
    if bool_decide (primMode prim = TRIANGLES) then
      disposeIfEmpty getIndices "prim.getIndices().getCount" q
        (simplifyPrimitive q (asOptions options) w)
    else if bool_decide (primMode prim = POINTS)
            && bool_decide (is_Some (msSimplifyPoints s)) then
      disposeIfEmpty (fun d p => getAttribute d p "POSITION")
        "prim.getAttribute('POSITION').getCount" q
        (simplifyPrimitive q (asOptions options) w)
    else
      (Ok tt, {| document := document w;
                 useExperimentalFeatures := useExperimentalFeatures w;
                 trace := trace w ++ [EvWarn (SkippingPrimitive (getName mesh (document w)))] |}).
Proof.
  intros Hprim. unfold simplifyMeshPrimitive, disposeIfEmpty. run_monad. rewrite Hprim.
  case_bool_decide.
  - destruct (simplifyPrimitive q (asOptions options) w) as [[[]|e] w1]; [|done].
    destruct (docPrimitives (document w1) !! q) as [prim1|]; [|done].
    destruct (getIndices (document w1) prim1) as [ia|]; [|done].
    by destruct (getCount (snd ia) =? 0).
  - destruct (bool_decide (primMode prim = POINTS)
              && bool_decide (is_Some (msSimplifyPoints s))); [|done].
    destruct (simplifyPrimitive q (asOptions options) w) as [[[]|e] w1]; [|done].
    destruct (docPrimitives (document w1) !! q) as [prim1|]; [|done].
    destruct (getAttribute (document w1) prim1 "POSITION") as [ia|]; [|done].
    by destruct (getCount (snd ia) =? 0).
Qed.

Lemma simplifyMeshPrimitive_stale (options : RequiredOptions) (s : MeshoptSimplifier)
    (mesh : MeshId) (q : PrimId) (w : World) :
  docPrimitives (document w) !! q = None ->
  simplifyMeshPrimitive options s mesh q w = (Throw StaleHandle, w).
Proof.
  intros Hprim. unfold simplifyMeshPrimitive. run_monad. by rewrite Hprim.
Qed.

Lemma references_indices (prim : Primitive) (i : AccId) :
  primIndices prim = Some i -> references prim i = true.
Proof.
  intros H. unfold references, primRefs. rewrite H.
  by rewrite bool_decide_eq_true_2.
Qed.

Lemma references_attribute (prim : Primitive) (semantic : string) (i : AccId) :
  lookupAttribute semantic (primAttributes prim) = Some i -> references prim i = true.
Proof.
  intros H. apply lookupAttribute_elem in H. unfold references, primRefs, slotsRef.
  rewrite (bool_decide_eq_true_2 _ H). by rewrite orb_true_r.
Qed.

Lemma settled_kept (s : MeshoptSimplifier) (d d' : Document) (p : PrimId) :
  docPrimitives d' !! p = docPrimitives d !! p ->
  (forall prim x a, docPrimitives d !! p = Some prim -> references prim x = true ->
     docAccessors d !! x = Some a -> docAccessors d' !! x = Some a) ->
  settled s d p -> settled s d' p.
Proof.
  intros Hp Ha (prim & Hprim & Htri & Hpts).
  exists prim. split; [congruence|]. split.
  - intros Hmode. destruct (Htri Hmode) as (i & a & Hg & Hc). exists i, a.
    split; [|done]. apply getIndices_live in Hg as [Hi Hx].
    unfold getIndices. rewrite Hi.
    by rewrite (Ha prim i a Hprim (references_indices prim i Hi) Hx).
  - intros Hmode Hsup. destruct (Hpts Hmode Hsup) as (i & a & Hg & Hc). exists i, a.
    split; [|done]. apply getAttribute_live in Hg as [Hi Hx].
    unfold getAttribute. rewrite Hi.
    by rewrite (Ha prim i a Hprim (references_attribute prim _ i Hi) Hx).
Qed.

Lemma frame_settled (s : MeshoptSimplifier) (d d' : Document) (p : PrimId) :
  freshOk d -> frame p d d' -> settled s d p -> settled s d' p.
Proof.
  intros Hf Hfr. destruct (Hfr Hf) as (_ & Hp & Ha). by apply settled_kept.
Qed.

Lemma disposePrimitive_settled (s : MeshoptSimplifier) (d : Document) (p q : PrimId) :
  q <> p -> settled s d p -> settled s (disposePrimitive q d) p.
Proof.
  intros Hqp. apply settled_kept; [|done].
  unfold disposePrimitive; simpl. by apply lookup_delete_ne.
Qed.

Lemma disposeMesh_settled (s : MeshoptSimplifier) (d : Document) (p : PrimId) (m : MeshId) :
  settled s d p -> settled s (disposeMesh m d) p.
Proof. by apply settled_kept. Qed.

Lemma listPrimitives_disposePrimitive (d : Document) (q p : PrimId) (m : MeshId) :
  p ∈ listPrimitives m (disposePrimitive q d) <-> p <> q /\ p ∈ listPrimitives m d.
Proof.
  unfold listPrimitives, disposePrimitive; simpl. rewrite lookup_fmap.
  destruct (docMeshes d !! m) as [me|]; simpl.
  - unfold detachPrimitive; simpl. by rewrite list_elem_of_filter.
  - rewrite elem_of_nil. tauto.
Qed.

(** A round that returns leaves its primitive settled, or disposed. *)
Lemma simplifyMeshPrimitive_settles (options : RequiredOptions) (s : MeshoptSimplifier)
    (mesh : MeshId) (q : PrimId) (w : World) :
  fst (simplifyMeshPrimitive options s mesh q w) = Ok tt ->
  settled s (document (snd (simplifyMeshPrimitive options s mesh q w))) q
  \/ forall m, q ∉ listPrimitives m (document (snd (simplifyMeshPrimitive options s mesh q w))).
Proof.
  destruct (docPrimitives (document w) !! q) as [prim|] eqn:Hprim.
  2:{ by rewrite simplifyMeshPrimitive_stale. }
  rewrite (simplifyMeshPrimitive_run options s mesh q w prim Hprim).
  pose proof (simplifyPrimitive_evolves q (asOptions options) w) as (_ & _ & _ & Hmode & _).
  rewrite Hprim in Hmode. unfold disposeIfEmpty.
  case_bool_decide as Htri.
  - destruct (simplifyPrimitive q (asOptions options) w) as [[[]|e] w1];
      cbn [fst snd] in *; [|done].
    destruct (docPrimitives (document w1) !! q) as [prim1|] eqn:Hprim1; [|done].
    destruct (getIndices (document w1) prim1) as [[i a]|] eqn:Hidx; [|done].
    destruct (getCount (snd (i, a)) =? 0) eqn:Hc; cbn [fst snd document]; intros _.
    + right. intros m Hin. apply listPrimitives_disposePrimitive in Hin. tauto.
    + left. exists prim1. split; [done|]. injection Hmode as Hmode. split.
      * intros _. exists i, a. split; [done|]. by apply Z.eqb_neq in Hc.
      * intros Hpts. congruence.
  - destruct (bool_decide (primMode prim = POINTS)
              && bool_decide (is_Some (msSimplifyPoints s))) eqn:Hcond.
    + apply andb_true_iff in Hcond as [Hpts _]. apply bool_decide_eq_true_1 in Hpts.
      destruct (simplifyPrimitive q (asOptions options) w) as [[[]|e] w1];
        cbn [fst snd] in *; [|done].
      destruct (docPrimitives (document w1) !! q) as [prim1|] eqn:Hprim1; [|done].
      destruct (getAttribute (document w1) prim1 "POSITION") as [[i a]|] eqn:Hpos; [|done].
      destruct (getCount (snd (i, a)) =? 0) eqn:Hc; cbn [fst snd document]; intros _.
      * right. intros m Hin. apply listPrimitives_disposePrimitive in Hin. tauto.
      * left. exists prim1. split; [done|]. injection Hmode as Hmode. split.
        -- intros Ht. congruence.
        -- intros _ _. exists i, a. split; [done|]. by apply Z.eqb_neq in Hc.
    + cbn [fst snd document]. intros _. left. exists prim. split; [done|]. split; [done|].
      intros Hpts Hsup. apply andb_false_iff in Hcond as [Hc|Hc];
        apply bool_decide_eq_false_1 in Hc; done.
Qed.

Lemma shrinks_refl (d : Document) : shrinks d d.
Proof. intros m mesh Hm. by exists mesh. Qed.

Lemma shrinks_trans (d1 d2 d3 : Document) :
  shrinks d1 d2 -> shrinks d2 d3 -> shrinks d1 d3.
Proof.
  intros H12 H23 m mesh3 Hm3.
  destruct (H23 m mesh3 Hm3) as (mesh2 & Hm2 & Hsub23).
  destruct (H12 m mesh2 Hm2) as (mesh1 & Hm1 & Hsub12).
  exists mesh1. split; [done|]. auto.
Qed.

Lemma disposePrimitive_shrinks (q : PrimId) (d : Document) :
  shrinks d (disposePrimitive q d).
Proof.
  intros m mesh'. unfold disposePrimitive; simpl. rewrite lookup_fmap.
  destruct (docMeshes d !! m) as [me|]; simpl; [|done].
  intros [= <-]. exists me. split; [done|]. intros p.
  unfold detachPrimitive; simpl. rewrite list_elem_of_filter. tauto.
Qed.

Lemma disposeMesh_shrinks (m0 : MeshId) (d : Document) : shrinks d (disposeMesh m0 d).
Proof.
  intros m mesh'. unfold disposeMesh; simpl.
  destruct (decide (m0 = m)) as [->|Hne].
  - by rewrite lookup_delete_eq.
  - rewrite lookup_delete_ne by done. intros Hm. by exists mesh'.
Qed.

Lemma singleParent_shrinks (d d' : Document) :
  shrinks d d' -> singleParent d -> singleParent d'.
Proof.
  intros Hs Hsp m1 m2 mesh1 mesh2 q Hm1 Hm2 Hq1 Hq2.
  destruct (Hs m1 mesh1 Hm1) as (me1 & Hme1 & Hsub1).
  destruct (Hs m2 mesh2 Hm2) as (me2 & Hme2 & Hsub2).
  apply (Hsp m1 m2 me1 me2 q); auto.
Qed.

Lemma loopStep_refl (d : Document) : loopStep d d.
Proof. split; [done | apply shrinks_refl]. Qed.

Lemma loopStep_trans (d1 d2 d3 : Document) :
  loopStep d1 d2 -> loopStep d2 d3 -> loopStep d1 d3.
Proof.
  intros [Hf12 Hs12] [Hf23 Hs23]. split; [auto|]. by apply (shrinks_trans d1 d2 d3).
Qed.

Lemma evolves_loopStep (q : PrimId) (d d' : Document) : evolves q d d' -> loopStep d d'.
Proof.
  intros (_ & Hm & _ & _ & He). split; [intros Hf; by destruct (He Hf)|].
  intros m mesh. rewrite Hm. intros Hmesh. by exists mesh.
Qed.

Lemma simplifyMeshPrimitive_loopStep (options : RequiredOptions) (s : MeshoptSimplifier)
    (mesh : MeshId) (q : PrimId) :
  preserves loopStep (simplifyMeshPrimitive options s mesh q).
Proof.
  apply simplifyMeshPrimitive_preserves_rel.
  - apply loopStep_refl.
  - apply loopStep_trans.
  - apply evolves_loopStep.
  - intros d. split; [done | apply disposePrimitive_shrinks].
Qed.

Lemma simplifyMesh_loopStep (options : RequiredOptions) (s : MeshoptSimplifier)
    (mesh : MeshId) :
  preserves loopStep (simplifyMesh options s mesh).
Proof.
  unfold simplifyMesh.
  preserves_walk loopStep_refl loopStep_trans.
  - apply simplifyMeshPrimitive_loopStep.
  - split; [done | apply disposeMesh_shrinks].
Qed.

Section Settled.

Variables (options : RequiredOptions) (s : MeshoptSimplifier).

(** One mesh of the loop: when its round returns, the mesh is settled
    or gone. *)
Lemma simplifyMesh_settles (m : MeshId) (w : World) :
  freshOk (document w) ->
  fst (simplifyMesh options s m w) = Ok tt ->
  meshSettled s (document (snd (simplifyMesh options s m w))) m.
Proof.
  intros Hf. rewrite simplifyMesh_run.
  set (l2 := listPrimitives m (document w)).
  set (Id := fun d : Document =>
               freshOk d /\ forall q, q ∈ listPrimitives m d -> q ∈ l2).
  destruct (forEach_invariant (fun w' => Id (document w'))
              (fun q w' => q ∈ listPrimitives m (document w') ->
                           settled s (document w') q)
              l2 (simplifyMeshPrimitive options s m)) with (w := w)
    as [Hinv Hset].
  { intros y w' _. apply (simplifyMeshPrimitive_preserves Id).
    - intros d d' Hev [Hfd Hsub]. destruct Hev as (_ & Hm & _ & _ & He).
      split; [by destruct (He Hfd)|]. unfold listPrimitives. by rewrite Hm.
    - intros d [Hfd Hsub]. split; [done|]. intros q Hq.
      apply listPrimitives_disposePrimitive in Hq. apply Hsub. tauto. }
  { intros y w' _ _ Hok Hin.
    destruct (simplifyMeshPrimitive_settles options s m y w' Hok) as [Hs|Hgone];
      [done | by destruct (Hgone m)]. }
  { intros x y w' _ [Hfd _] Hx Hok.
    destruct (decide (x = y)) as [->|Hxy].
    - intros Hin.
      destruct (simplifyMeshPrimitive_settles options s m y w' Hok) as [Hs|Hgone];
        [done | by destruct (Hgone m)].
    - assert (Hkeep : freshOk (document w') /\
                (x ∈ listPrimitives m (document w') -> settled s (document w') x))
        by done.
      assert (Hpres : preserves
                (fun d d' =>
                   freshOk d /\ (x ∈ listPrimitives m d -> settled s d x) ->
                   freshOk d' /\ (x ∈ listPrimitives m d' -> settled s d' x))
                (simplifyMeshPrimitive options s m y));
        [|by destruct (Hpres w' Hkeep)].
      apply (simplifyMeshPrimitive_preserves
               (fun d => freshOk d /\ (x ∈ listPrimitives m d -> settled s d x))).
      + intros d d' Hev [Hfd' Hsx].
        pose proof (evolves_frame y x d d' Hxy Hev) as Hfr.
        destruct Hev as (_ & Hm & _ & _ & He).
        split; [by destruct (He Hfd')|].
        assert (Hlist : listPrimitives m d' = listPrimitives m d)
          by (unfold listPrimitives; by rewrite Hm).
        rewrite Hlist. intros Hin.
        apply (frame_settled s d d' x Hfd' Hfr). by apply Hsx.
      + intros d [Hfd' Hsx]. split; [done|]. intros Hin.
        apply listPrimitives_disposePrimitive in Hin as [_ Hin].
        apply disposePrimitive_settled; auto. }
  { split; [done | auto]. }
  destruct (forEach l2 _ w) as [[[]|e] w1]; cbn [fst snd] in *; [|done].
  case_bool_decide as Hlen; cbn [fst snd document]; intros _ mesh Hmesh.
  - unfold disposeMesh in Hmesh; simpl in Hmesh. by rewrite lookup_delete_eq in Hmesh.
  - assert (Hl : listPrimitives m (document w1) = meshPrimitives mesh)
      by (unfold listPrimitives; by rewrite Hmesh).
    rewrite Hl in Hlen. split.
    + intros Hnil. by rewrite Hnil in Hlen.
    + intros q Hq. destruct Hinv as [_ Hsub].
      apply (Hset eq_refl q); [apply Hsub|]; by rewrite Hl.
Qed.

(** A settled mesh stays settled while another mesh is gone through. *)
Lemma simplifyMesh_keeps_settled (m m2 : MeshId) (w : World) :
  m <> m2 ->
  freshOk (document w) ->
  singleParent (document w) ->
  meshSettled s (document w) m ->
  meshSettled s (document (snd (simplifyMesh options s m2 w))) m.
Proof.
  intros Hne Hf Hsp Hms. rewrite simplifyMesh_run.
  set (l2 := listPrimitives m2 (document w)).
  set (J := fun d : Document =>
              freshOk d /\ (forall q, q ∈ l2 -> q ∉ listPrimitives m d) /\
              meshSettled s d m).
  assert (HJ : J (document w)).
  { split; [done|]. split; [|done]. intros q Hq2 Hq. subst l2.
    unfold listPrimitives in Hq2, Hq.
    destruct (docMeshes (document w) !! m2) as [mesh2|] eqn:Hm2;
      [|by apply elem_of_nil in Hq2].
    destruct (docMeshes (document w) !! m) as [mesh|] eqn:Hm;
      [|by apply elem_of_nil in Hq].
    apply Hne. by apply (Hsp m m2 mesh mesh2 q). }
  assert (Hloop : preserves (fun d d' => J d -> J d')
                    (forEach l2 (simplifyMeshPrimitive options s m2))).
  { apply preserves_forEach; [auto | auto |].
    intros q Hq. apply (simplifyMeshPrimitive_preserves J).
    - intros d d' Hev (Hfd & Hown & Hset).
      assert (Hlist : listPrimitives m d' = listPrimitives m d).
      { destruct Hev as (_ & Hm & _). unfold listPrimitives. by rewrite Hm. }
      split; [destruct Hev as (_ & _ & _ & _ & He); by destruct (He Hfd)|].
      split; [intros q' Hq'; rewrite Hlist; by apply Hown|].
      intros mesh Hmesh.
      assert (Hmesh' : docMeshes d !! m = Some mesh).
      { destruct Hev as (_ & Hm & _). by rewrite <- Hm. }
      destruct (Hset mesh Hmesh') as [Hnil Hall]. split; [done|].
      intros p Hp. apply (frame_settled s d d' p); [done| |by apply Hall].
      apply (evolves_frame q p); [|done].
      intros ->. apply (Hown q Hq). unfold listPrimitives. by rewrite Hmesh'.
    - intros d (Hfd & Hown & Hset). split; [done|]. split.
      + intros q' Hq' Hin. apply listPrimitives_disposePrimitive in Hin as [_ Hin].
        by apply (Hown q').
      + intros mesh Hmesh. unfold disposePrimitive in Hmesh; simpl in Hmesh.
        rewrite lookup_fmap in Hmesh.
        destruct (docMeshes d !! m) as [me|] eqn:Hme; simpl in Hmesh; [|done].
        injection Hmesh as <-. destruct (Hset me Hme) as [Hnil Hall].
        assert (Hqme : q ∉ meshPrimitives me).
        { intros Hin. apply (Hown q Hq). unfold listPrimitives. by rewrite Hme. }
        unfold detachPrimitive; simpl. split.
        * destruct (meshPrimitives me) as [|p0 rest] eqn:Hlist; [done|].
          intros Hfil.
          assert (Hp0 : p0 ∈ filter (fun q0 : nat => q0 <> q) (p0 :: rest)).
          { apply list_elem_of_filter. split.
            - intros ->. apply Hqme. apply elem_of_cons. by left.
            - apply elem_of_cons. by left. }
          rewrite Hfil in Hp0. by apply elem_of_nil in Hp0.
        * intros p Hp. apply list_elem_of_filter in Hp as [Hpq Hp].
          apply disposePrimitive_settled; auto. }
  specialize (Hloop w HJ).
  destruct (forEach l2 _ w) as [[[]|e] w1]; cbn [fst snd] in *.
  - case_bool_decide; cbn [fst snd document].
    + destruct Hloop as (_ & _ & Hset). intros mesh Hmesh.
      unfold disposeMesh in Hmesh; simpl in Hmesh.
      rewrite lookup_delete_ne in Hmesh by done.
      destruct (Hset mesh Hmesh) as [Hnil Hall]. split; [done|].
      intros p Hp. apply disposeMesh_settled. by apply Hall.
    + by destruct Hloop as (_ & _ & Hset).
  - by destruct Hloop as (_ & _ & Hset).
Qed.

End Settled.

(** When the loop returns on a document in which no primitive is listed
    by two meshes, every mesh left has been through it and kept. *)
Lemma simplifyMeshes_settles (options : RequiredOptions) (s : MeshoptSimplifier)
    (w : World) :
  freshOk (document w) ->
  singleParent (document w) ->
  fst (simplifyMeshes options s w) = Ok tt ->
  forall m, meshSettled s (document (snd (simplifyMeshes options s w))) m.
Proof.
  intros Hf Hsp. rewrite simplifyMeshes_run.
  set (d0 := document w).
  set (Iout := fun w' : World =>
                 freshOk (document w') /\ singleParent (document w') /\
                 shrinks d0 (document w')).
  destruct (forEach_invariant Iout (fun m w' => meshSettled s (document w') m)
              (listMeshes d0) (simplifyMesh options s)) with (w := w)
    as [Hinv Hset].
  { intros m w' _ (Hf' & Hsp' & Hsh').
    destruct (simplifyMesh_loopStep options s m w') as [Hfresh Hshrink].
    split; [auto|]. split; [by apply (singleParent_shrinks (document w'))|].
    by apply (shrinks_trans d0 (document w')). }
  { intros m w' _ (Hf' & _) Hok. by apply simplifyMesh_settles. }
  { intros x m w' _ (Hf' & Hsp' & _) Hx Hok.
    destruct (decide (x = m)) as [->|Hxm].
    - by apply simplifyMesh_settles.
    - by apply simplifyMesh_keeps_settled. }
  { split; [done|]. split; [done | apply shrinks_refl]. }
  intros Hok m mesh Hmesh. apply (Hset Hok m); [|done].
  apply elem_of_listMeshes. destruct Hinv as (_ & _ & Hsh).
  destruct (Hsh m mesh Hmesh) as (me & Hme & _). eauto.
Qed.

(** C6, as amended: in the loop of the transform, a triangle primitive
    whose index count is 0 after [simplifyPrimitive], and a point
    primitive whose POSITION count is 0 when the decimator supports
    points, is disposed: its round returns, and the primitive is gone from
    the document and from every mesh. When a run of the transform returns
    and no primitive is listed by two meshes in the document that the weld
    pass leaves, then in the document that the loop hands to the prune
    pass every mesh lists at least one primitive, and every primitive
    listed has a count that is not 0 if it is in a supported mode: the
    meshes that came out empty have been disposed. The same is true of
    the document at the end of the run when the prune and dedup passes,
    which are not part of this file, keep it so. *)
Theorem degenerate_primitives_removed (options : RequiredOptions)
    (s : MeshoptSimplifier) (context : option TransformContext) (w : World) :
  (forall w0 mesh q prim w1 prim1,
     docPrimitives (document w0) !! q = Some prim ->
     simplifyPrimitive q (asOptions options) w0 = (Ok tt, w1) ->
     docPrimitives (document w1) !! q = Some prim1 ->
     (primMode prim = TRIANGLES /\
      exists i a, getIndices (document w1) prim1 = Some (i, a) /\ getCount a = 0)
     \/ (primMode prim = POINTS /\ is_Some (msSimplifyPoints s) /\
         exists i a, getAttribute (document w1) prim1 "POSITION" = Some (i, a) /\
                     getCount a = 0) ->
     fst (simplifyMeshPrimitive options s mesh q w0) = Ok tt /\
     docPrimitives (document (snd (simplifyMeshPrimitive options s mesh q w0))) !! q = None /\
     forall m, q ∉ listPrimitives m (document (snd (simplifyMeshPrimitive options s mesh q w0)))) /\
  (freshOk (document (afterWeld w)) ->
   singleParent (document (afterWeld w)) ->
   fst (simplifyTransform options s context w) = Ok tt ->
   (forall m mesh,
      docMeshes (document (afterLoop options s w)) !! m = Some mesh ->
      meshPrimitives mesh <> [] /\
      forall p, p ∈ meshPrimitives mesh ->
                settled s (document (afterLoop options s w)) p) /\
   (passKeeps (fun d => forall m, meshSettled s d m) (prune pruneOptions) ->
    passKeeps (fun d => forall m, meshSettled s d m) (dedup dedupOptions) ->
    forall m mesh,
      docMeshes (document (snd (simplifyTransform options s context w))) !! m
        = Some mesh ->
      meshPrimitives mesh <> [] /\
      forall p, p ∈ meshPrimitives mesh ->
                settled s (document (snd (simplifyTransform options s context w))) p)).
Proof.
  split.
  - intros w0 mesh q prim w1 prim1 Hprim Hsimp Hprim1 Hzero.
    rewrite (simplifyMeshPrimitive_run options s mesh q w0 prim Hprim).
    rewrite Hsimp. unfold disposeIfEmpty. rewrite Hprim1.
    assert (Hgone : forall (d : Document) m, q ∉ listPrimitives m (disposePrimitive q d)).
    { intros d m Hin. apply listPrimitives_disposePrimitive in Hin. tauto. }
    destruct Hzero as [(Hmode & i & a & Hidx & Hc)|(Hmode & Hsup & i & a & Hpos & Hc)].
    + rewrite bool_decide_eq_true_2 by done. rewrite Hidx. cbn [snd].
      rewrite Hc. cbn [Z.eqb fst snd document].
      split; [done|]. split; [|by apply Hgone].
      unfold disposePrimitive; simpl. apply lookup_delete_eq.
    + rewrite (bool_decide_eq_false_2 (primMode prim = TRIANGLES)) by congruence.
      rewrite (bool_decide_eq_true_2 (primMode prim = POINTS)) by done.
      rewrite (bool_decide_eq_true_2 (is_Some (msSimplifyPoints s))) by done.
      cbn [andb]. rewrite Hpos. cbn [snd]. rewrite Hc. cbn [Z.eqb fst snd document].
      split; [done|]. split; [|by apply Hgone].
      unfold disposePrimitive; simpl. apply lookup_delete_eq.
  - intros Hf Hsp Hok.
    assert (Hloop : fst (simplifyMeshes options s (afterWeld w)) = Ok tt
                    /\ (document (snd (simplifyTransform options s context w))
                        = document (afterPrune options s w)
                        \/ document (snd (simplifyTransform options s context w))
                           = document (afterDedup options s w))).
    { revert Hok. rewrite simplifyTransform_run.
      destruct (msReady s) as [[]|e]; [|discriminate].
      destruct (fst (weld _ _)) as [[]|e]; [|discriminate].
      destruct (fst (simplifyMeshes _ _ _)) as [[]|e]; [|discriminate].
      destruct (fst (prune _ _)) as [[]|e]; [|discriminate].
      destruct (isTransformPending context NAME "dedup"); [by split; [|left]|].
      destruct (fst (dedup _ _)) as [[]|e]; [|discriminate]. by split; [|right]. }
    destruct Hloop as [Hloop Hend].
    pose proof (simplifyMeshes_settles options s (afterWeld w) Hf Hsp Hloop) as Hset.
    fold (afterLoop options s w) in Hset.
    split; [exact Hset|].
    intros Hprune Hdedup.
    assert (H3 : forall m, meshSettled s (document (afterPrune options s w)) m)
      by (by apply Hprune).
    assert (H4 : forall m, meshSettled s (document (afterDedup options s w)) m)
      by (by apply Hdedup).
    destruct Hend as [-> | ->]; [exact H3 | exact H4].
Qed.

(** ** Further properties of [simplifyPrimitive] *)

(** The attribute loop of lines 173-178 returns when every accessor it
    comes to has an array. *)
Lemma remapLoop_returns (remap : list Z) (unique : Z) (p : PrimId) (L : list AccId)
    (d : Document) :
  NoDup L ->
  (forall x a, x ∈ L -> docAccessors d !! x = Some a -> is_Some (accArray a)) ->
  fst (attributeLoop (replaceAttribute (remapAttribute remap unique) p) L d) = Ok tt.
Proof.
  revert d. induction L as [|src L IH]; intros d Hnd Harr; simpl; [done|].
  apply NoDup_cons in Hnd as [Hsrc Hnd].
  destruct (docAccessors d !! src) as [a|] eqn:Ha.
  2:{ rewrite replaceAttribute_none by done. apply IH; [done|].
      intros x b Hx. apply Harr. apply elem_of_cons. by right. }
  destruct (Harr src a) as [arr Hsome]; [apply elem_of_cons; by left | done |].
  assert (Hr : remapAttribute remap unique a
               = Ok (setArray (mapContents
                                 (fun A => remapList (getElementSize a) remap unique)
                                 arr) a)).
  { unfold remapAttribute. by rewrite Hsome. }
  rewrite (replaceAttribute_ok _ p d src a _ Ha Hr).
  apply IH; [done|].
  intros x b Hx Hb.
  assert (Hne : x <> src) by (intros ->; done).
  unfold swapAttribute in Hb.
  destruct (disposeIfUnused_lookup src x
              (updatePrimitive (deepSwapAttribute src (docNextAccessor d)) p
                 (snd (createAccessor
                         (setArray (mapContents
                                      (fun A => remapList (getElementSize a) remap unique)
                                      arr) a) d))))
    as [E|(Heq & _)]; [|done].
  rewrite E in Hb. unfold updatePrimitive, createAccessor in Hb; simpl in Hb.
  apply lookup_insert_Some in Hb as [[_ <-]|[_ Hb]]; [by eexists|].
  apply (Harr x b); [apply elem_of_cons; by right | done].
Qed.

Lemma replaceAttributes_returns (remap : list Z) (unique : Z) (p : PrimId)
    (d : Document) (prim : Primitive) :
  docPrimitives d !! p = Some prim ->
  attributesHaveArrays d prim ->
  fst (replaceAttributes (remapAttribute remap unique) p d) = Ok tt.
Proof.
  intros Hprim Harr. unfold replaceAttributes. rewrite Hprim.
  apply remapLoop_returns; [apply NoDup_dedupe|].
  intros x a Hx. apply Harr. by apply elem_of_deepListAttributes.
Qed.

(** The outcome of the triangle path, one case for each place where it can
    stop. Nothing is written to the document before both calls of the
    decimator have returned; a throw after that is one of
    [remapAttribute], in the middle of the attribute loop. *)
Lemma simplifyPrimitive_triangle_cases (w : World) (A : PrimId)
    (_options : SimplifyOptions) (prim : Primitive) :
  docPrimitives (document w) !! A = Some prim ->
  primMode prim <> POINTS ->
  (exists e t,
     simplifyPrimitive A _options w =
       (Throw e, {| document := document w;
                    useExperimentalFeatures := useExperimentalFeatures w;
                    trace := trace w ++ t |}))
  \/ (exists e srcIndices position positions simplified remap unique,
        fst (replaceAttributes (remapAttribute remap unique) A (document w)) = Throw e /\
        simplifyPrimitive A _options w =
          (Throw e, triangleRemapped w A (withDefaults _options) srcIndices position
                                     positions simplified remap unique))
  \/ (exists iid srcIndices position positions simplified dst remap unique,
        simplifyPrimitive A _options w =
          (Ok tt, triangleResult w A (withDefaults _options) iid srcIndices position
                                 positions simplified dst remap unique)).
Proof.
  intros Hprim Hmode.
  rewrite (simplifyPrimitive_triangles_run w A _options prim Hprim Hmode). cbv zeta.
  assert (Hsame : forall e, (Throw e, w) =
            (@Throw unit e, {| document := document w;
                         useExperimentalFeatures := useExperimentalFeatures w;
                         trace := trace w ++ [] |})).
  { intros e. rewrite app_nil_r. by destruct w. }
  destruct (getIndices (document w) prim) as [[iid srcIndices]|].
  2:{ left. eexists _, []. apply Hsame. }
  destruct (getAttribute (document w) prim "POSITION") as [[pid position]|].
  2:{ left. eexists _, []. apply Hsame. }
  destruct (positionFloats position) as [positions|e].
  2:{ left. eexists _, []. apply Hsame. }
  destruct (simplifier (withDefaults _options)) as [s|].
  2:{ left. eexists _, []. apply Hsame. }
  destruct (msSimplify _ _ _ _ _ _ _ _) as [simplified|e].
  2:{ left. by eexists _, [_]. }
  destruct (msCompactMesh _ _ _) as [[[dst remap] unique]|e].
  2:{ left. eexists _, [_; _]. cbn [trace]. by rewrite <- app_assoc. }
  destruct (fst (replaceAttributes _ _ _)) as [[]|e] eqn:Hloop.
  - right. right. by eexists _, _, _, _, _, _, _, _.
  - right. left. by eexists _, _, _, _, _, _, _.
Qed.

(** The attribute loop of lines 173-178 throws only when it comes to an
    accessor that has no array. *)
Lemma remapLoop_stops (remap : list Z) (unique : Z) (p : PrimId) (L : list AccId)
    (d : Document) (e : Exn) :
  NoDup L ->
  fst (attributeLoop (replaceAttribute (remapAttribute remap unique) p) L d) = Throw e ->
  exists x a, x ∈ L /\ docAccessors d !! x = Some a /\ accArray a = None.
Proof.
  revert d. induction L as [|src L IH]; intros d Hnd; simpl; [discriminate|].
  apply NoDup_cons in Hnd as [Hsrc Hnd].
  destruct (docAccessors d !! src) as [a|] eqn:Ha.
  2:{ rewrite replaceAttribute_none by done. intros Hthrow.
      destruct (IH d Hnd Hthrow) as (x & b & Hx & Hb & Hnone).
      exists x, b. split; [apply elem_of_cons; by right | done]. }
  destruct (accArray a) as [arr|] eqn:Harr.
  2:{ intros _. exists src, a. split; [apply elem_of_cons; by left | done]. }
  assert (Hr : remapAttribute remap unique a
               = Ok (setArray (mapContents
                                 (fun A => remapList (getElementSize a) remap unique)
                                 arr) a)).
  { unfold remapAttribute. by rewrite Harr. }
  rewrite (replaceAttribute_ok _ p d src a _ Ha Hr).
  intros Hthrow. destruct (IH _ Hnd Hthrow) as (x & b & Hx & Hb & Hnone).
  exists x, b. split; [apply elem_of_cons; by right|]. split; [|done].
  assert (Hne : x <> src) by (intros ->; done).
  unfold swapAttribute in Hb.
  destruct (disposeIfUnused_lookup src x
              (updatePrimitive (deepSwapAttribute src (docNextAccessor d)) p
                 (snd (createAccessor
                         (setArray (mapContents
                                      (fun A => remapList (getElementSize a) remap unique)
                                      arr) a) d))))
    as [E|(Heq & _)]; [|done].
  rewrite E in Hb. unfold updatePrimitive, createAccessor in Hb; simpl in Hb.
  apply lookup_insert_Some in Hb as [[_ <-]|[_ Hb]]; [discriminate | done].
Qed.

(** X1: when [simplifyPrimitive] throws on a primitive that is not in
    POINTS mode, the document is as it was before the call, with one
    exception. The accessors and the primitive are written only after
    [simplify] and [compactMesh] have both returned (lines 136-167 read,
    lines 173-185 write), so that whatever throws up to there leaves the
    document alone. The exception is the [TypeError] of [remapAttribute]
    in the loop of lines 173-178, after earlier rounds may have written:
    then one of the attribute accessors of the primitive, those of its
    morph targets included, has no array. *)
Theorem triangle_failure_leaves_document (w : World) (A : PrimId)
    (_options : SimplifyOptions) (prim : Primitive) (e : Exn) :
  docPrimitives (document w) !! A = Some prim ->
  primMode prim <> POINTS ->
  fst (simplifyPrimitive A _options w) = Throw e ->
  document (snd (simplifyPrimitive A _options w)) = document w
  \/ (e = TypeError "srcArray.slice" /\
      exists x a, x ∈ allSlotIds prim /\ docAccessors (document w) !! x = Some a /\
                  accArray a = None).
Proof.
  intros Hprim Hmode Hthrow.
  destruct (simplifyPrimitive_triangle_cases w A _options prim Hprim Hmode)
    as [(e' & t & Hrun)|[(e' & srcIndices & position & positions & simplified & remap
                          & unique & Hloop & Hrun)
                        |(iid & srcIndices & position & positions & simplified & dst
                          & remap & unique & Hrun)]];
    rewrite Hrun in *; [by left | | discriminate].
  right. cbn [fst] in Hthrow. injection Hthrow as <-.
  split; [by apply (replaceAttributes_throws remap unique A (document w))|].
  unfold replaceAttributes in Hloop. rewrite Hprim in Hloop.
  destruct (remapLoop_stops remap unique A (deepListAttributes prim) (document w) e'
              (NoDup_dedupe _ _) Hloop) as (x & a & Hx & Ha & Hnone).
  exists x, a. split; [by apply elem_of_deepListAttributes | done].
Qed.

(** X2: on a primitive that is not in POINTS mode [simplifyPrimitive]
    never writes the decimator's [useExperimentalFeatures]: it has the
    value it had, whether the call returns or throws. *)
Theorem triangle_path_keeps_toggle (w : World) (A : PrimId)
    (_options : SimplifyOptions) (prim : Primitive) :
  docPrimitives (document w) !! A = Some prim ->
  primMode prim <> POINTS ->
  useExperimentalFeatures (snd (simplifyPrimitive A _options w))
    = useExperimentalFeatures w.
Proof.
  intros Hprim Hmode.
  destruct (simplifyPrimitive_triangle_cases w A _options prim Hprim Hmode)
    as [(e' & t & Hrun)|[(e' & srcIndices & position & positions & simplified & remap
                          & unique & Hloop & Hrun)
                        |(iid & srcIndices & position & positions & simplified & dst
                          & remap & unique & Hrun)]];
    by rewrite Hrun.
Qed.

(** X3: [simplifyPrimitive] disposes no primitive and no mesh, whatever
    the outcome and whatever count is left: the meshes of the document are
    the same, every primitive is still there in the draw mode it had, and
    no primitive is created. Removing a primitive that came out empty is
    left to the loop of the transform (lines 95 and 98). *)
Theorem simplifyPrimitive_keeps_primitives (w : World) (A : PrimId)
    (_options : SimplifyOptions) :
  let d := document w in
  let d' := document (snd (simplifyPrimitive A _options w)) in
  docMeshes d' = docMeshes d /\
  (forall q prim, docPrimitives d !! q = Some prim ->
     exists prim', docPrimitives d' !! q = Some prim' /\ primMode prim' = primMode prim) /\
  (forall q, docPrimitives d !! q = None -> docPrimitives d' !! q = None).
Proof.
  cbv zeta.
  pose proof (simplifyPrimitive_evolves A _options w) as Hev.
  pose proof Hev as (_ & Hmeshes & Hother & Hmode & _).
  split; [exact Hmeshes|]. split.
  - intros q prim Hq. destruct (decide (q = A)) as [->|Hne].
    + by apply (evolves_prim_exists A (document w)).
    + exists prim. by rewrite Hother.
  - intros q Hq. destruct (decide (q = A)) as [->|Hne].
    + rewrite Hq in Hmode.
      by destruct (docPrimitives (document (snd (simplifyPrimitive A _options w))) !! A).
    + by rewrite Hother.
Qed.

(** Unwelding keeps the primitive in the document. *)
Lemma pointsUnwelded_prim (w : World) (A : PrimId) (prim : Primitive) :
  docPrimitives (document w) !! A = Some prim ->
  exists prim1, docPrimitives (document (pointsUnwelded w A prim)) !! A = Some prim1 /\
                primMode prim1 = primMode prim.
Proof.
  intros Hprim. unfold pointsUnwelded; cbn [document].
  destruct (getIndices (document w) prim); [|by exists prim].
  apply (evolves_prim_exists A (document w)); [apply unweldPrimitive_evolves | exact Hprim].
Qed.

(** [unweldPrimitive] throws nothing but a [TypeError]. *)
Lemma unweldPrimitive_throws (p : PrimId) (d : Document) (e : Exn) :
  fst (unweldPrimitive p d) = Throw e -> isTypeError (@Throw unit e) = true.
Proof.
  unfold unweldPrimitive.
  destruct (docPrimitives d !! p) as [prim|]; [|discriminate].
  destruct (getIndices d prim) as [[iid indices]|]; [|discriminate].
  destruct (getAttribute d prim "POSITION"); [|by intros [= <-]].
  assert (Hloop : forall l d0,
            fst (attributeLoop (unweldRound indices p) l d0) = Throw e ->
            isTypeError (@Throw unit e) = true).
  { induction l as [|x l IH]; intros d0; simpl; [discriminate|].
    unfold unweldRound at 1.
    destruct (docAccessors d0 !! x) as [a|]; [|apply IH].
    unfold unweldAttribute at 1.
    destruct (accArray a); [apply IH | by intros [= <-]]. }
  specialize (Hloop (deepListAttributes prim) d).
  destruct (attributeLoop _ _ _) as [[[]|e'] d1]; [discriminate|].
  simpl in *. exact Hloop.
Qed.

(** What [positionFloats] and [colorArrayFloats] throw is what
    [dequantizeAttributeArray] threw. *)
Lemma positionFloats_throws (position : Accessor) (e : Exn) :
  positionFloats position = Throw e ->
  exists array componentType normalized,
    dequantizeAttributeArray array componentType normalized = Throw e.
Proof.
  unfold positionFloats. destruct (accArray position) as [[xs|k xs]|];
    [discriminate | eauto | eauto].
Qed.

Lemma colorArrayFloats_throws (position : Accessor) (color : option (AccId * Accessor))
    (e : Exn) :
  colorArrayFloats position color = Throw e ->
  exists array componentType normalized,
    dequantizeAttributeArray array componentType normalized = Throw e.
Proof.
  unfold colorArrayFloats, colorFloats. destruct color as [[cid c]|]; [|discriminate].
  cbn [snd]. destruct (accArray c) as [[xs|k xs]|]; [discriminate| |discriminate].
  destruct (dequantizeAttributeArray _ _ _) as [ys|e'] eqn:Hd; [discriminate|].
  intros [= <-]. eauto.
Qed.

(** X4: in point mode the toggle is not restored but set: when
    [simplifyPrimitive] returns on a POINTS primitive,
    [useExperimentalFeatures] is [false], also when it was [true] before
    the call (line 219); [simplifyPoints] was called with it [true] (line
    216). *)
Theorem points_success_clears_toggle (w : World) (A : PrimId)
    (_options : SimplifyOptions) (prim : Primitive) :
  docPrimitives (document w) !! A = Some prim ->
  primMode prim = POINTS ->
  fst (simplifyPrimitive A _options w) = Ok tt ->
  useExperimentalFeatures (snd (simplifyPrimitive A _options w)) = false /\
  exists before positions target colors colorStride rest,
    trace (snd (simplifyPrimitive A _options w))
    = before ++ EvSimplifyPoints true positions 3 target colors colorStride :: rest.
Proof.
  intros Hprim Hmode.
  rewrite (simplifyPrimitive_points_run w A _options prim Hprim Hmode). cbv zeta.
  generalize (pointsUnwelded w A prim). intros w1.
  destruct (unweldOutcome w A prim) as [[]|e]; [|discriminate].
  destruct (docPrimitives (document w1) !! A) as [prim1|]; [|discriminate].
  destruct (getAttribute _ prim1 "POSITION") as [[pid position]|]; [|discriminate].
  destruct (colorStrideOf _) as [colorStride|]; [|discriminate].
  destruct (positionFloats position) as [positions|e]; [|discriminate].
  destruct (colorArrayFloats _ _) as [colors|e]; [|discriminate].
  destruct (simplifier (withDefaults _options)) as [s|]; [|discriminate].
  destruct (msSimplifyPoints s) as [simplifyPoints|]; [|discriminate].
  destruct (simplifyPoints _ _ _ _ _ _) as [dst|e]; [|discriminate].
  destruct (msCompactMesh _ _ _) as [[[out remap] unique]|e]; [|discriminate].
  intros _. split; [reflexivity|].
  unfold pointsEntered; cbn [snd trace]. do 6 eexists.
  rewrite <- app_assoc. reflexivity.
Qed.

(** X5: [simplifyPrimitive] called on a POINTS primitive with a decimator
    that has no [simplifyPoints] throws a [TypeError] at the call of line
    218, after line 216 has switched the toggle on: the toggle is left
    [true]. This is when lines 197-212 go through: the primitive has a
    POSITION attribute, a COLOR_0 attribute, if any, has an array, and
    [dequantizeAttributeArray] returns where it is called. The transform
    does not get there, as line 96 checks for the entry point; the
    exported function does not check. *)
Theorem points_without_entry_point (w : World) (A : PrimId)
    (_options : SimplifyOptions) (prim : Primitive) (pid : AccId) (position : Accessor)
    (positions : list F) (colors : option (list F)) (colorStride : option Z)
    (s : MeshoptSimplifier) :
  docPrimitives (document w) !! A = Some prim ->
  primMode prim = POINTS ->
  getIndices (document w) prim = None ->
  getAttribute (document w) prim "POSITION" = Some (pid, position) ->
  colorStrideOf (getAttribute (document w) prim "COLOR_0") = Some colorStride ->
  positionFloats position = Ok positions ->
  colorArrayFloats position (getAttribute (document w) prim "COLOR_0") = Ok colors ->
  simplifier (withDefaults _options) = Some s ->
  msSimplifyPoints s = None ->
  simplifyPrimitive A _options w =
    (Throw (TypeError "simplifier.simplifyPoints"),
     {| document := document w; useExperimentalFeatures := true; trace := trace w |}).
Proof.
  intros Hprim Hmode Hidx Hpos Hstride Hfloats Hcolors Hs Hsp.
  rewrite (simplifyPrimitive_points_run w A _options prim Hprim Hmode). cbv zeta.
  unfold unweldOutcome, pointsUnwelded. rewrite Hidx. cbn [document trace].
  by rewrite Hprim, Hpos, Hstride, Hfloats, Hcolors, Hs, Hsp.
Qed.

(** X6: in point mode the POSITION attribute is read without a check
    (lines 197-199): on a POINTS primitive that has no indices and no
    POSITION attribute, [simplifyPrimitive] throws a [TypeError] and
    leaves the document, the toggle and the log as they were. *)
Theorem points_without_position (w : World) (A : PrimId)
    (_options : SimplifyOptions) (prim : Primitive) :
  docPrimitives (document w) !! A = Some prim ->
  primMode prim = POINTS ->
  getIndices (document w) prim = None ->
  getAttribute (document w) prim "POSITION" = None ->
  simplifyPrimitive A _options w = (Throw (TypeError "position.getCount"), w).
Proof.
  intros Hprim Hmode Hidx Hpos.
  rewrite (simplifyPrimitive_points_run w A _options prim Hprim Hmode). cbv zeta.
  unfold unweldOutcome, pointsUnwelded. rewrite Hidx. cbn [document].
  rewrite Hprim, Hpos. by destruct w.
Qed.

(** X7: the exported [simplifyPrimitive] does not check that the options
    carry a decimator, as [simplify] does at line 80. Called without one
    on a primitive of the document, in any draw mode, it never returns:
    it throws before anything is logged, and what it throws is a
    [TypeError] of one of the unchecked reads (of the missing decimator
    at the latest), or what [dequantizeAttributeArray] threw before the
    decimator was needed. *)
Theorem simplifyPrimitive_without_simplifier (w : World) (A : PrimId)
    (_options : SimplifyOptions) (prim : Primitive) :
  docPrimitives (document w) !! A = Some prim ->
  optSimplifier _options = None ->
  exists e,
    fst (simplifyPrimitive A _options w) = Throw e /\
    (isTypeError (@Throw unit e) = true
     \/ exists array componentType normalized,
          dequantizeAttributeArray array componentType normalized = Throw e) /\
    trace (snd (simplifyPrimitive A _options w)) = trace w.
Proof.
  intros Hprim Hnone.
  assert (Hs : simplifier (withDefaults _options) = None) by exact Hnone.
  destruct (decide (primMode prim = POINTS)) as [Hmode|Hmode].
  - rewrite (simplifyPrimitive_points_run w A _options prim Hprim Hmode). cbv zeta.
    destruct (pointsUnwelded_prim w A prim Hprim) as (prim1 & Hprim1 & _).
    rewrite Hprim1, Hs.
    destruct (unweldOutcome w A prim) as [[]|e] eqn:Hun.
    2:{ exists e. split; [done|]. split; [|done]. left.
        unfold unweldOutcome in Hun.
        destruct (getIndices (document w) prim); [|discriminate].
        by apply (unweldPrimitive_throws A (document w)). }
    destruct (getAttribute _ prim1 "POSITION") as [[pid position]|].
    2:{ eexists. split; [reflexivity|]. split; [by left | done]. }
    destruct (colorStrideOf _) as [colorStride|].
    2:{ eexists. split; [reflexivity|]. split; [by left | done]. }
    destruct (positionFloats position) as [positions|e] eqn:Hfloats.
    2:{ exists e. split; [done|]. split; [|done]. right.
        by apply (positionFloats_throws position). }
    destruct (colorArrayFloats _ _) as [colors|e] eqn:Hcolors.
    2:{ exists e. split; [done|]. split; [|done]. right.
        by apply (colorArrayFloats_throws position _ e Hcolors). }
    eexists. split; [reflexivity|]. split; [by left | done].
  - rewrite (simplifyPrimitive_triangles_run w A _options prim Hprim Hmode). cbv zeta.
    destruct (getIndices (document w) prim) as [[iid srcIndices]|].
    2:{ eexists. split; [reflexivity|]. split; [by left | done]. }
    destruct (getAttribute (document w) prim "POSITION") as [[pid position]|].
    2:{ eexists. split; [reflexivity|]. split; [by left | done]. }
    destruct (positionFloats position) as [positions|e] eqn:Hfloats.
    2:{ exists e. split; [done|]. split; [|done]. right.
        by apply (positionFloats_throws position). }
    rewrite Hs. eexists. split; [reflexivity|]. split; [by left | done].
Qed.

(** ** Further properties: what the decimator is asked for *)

(** X8: on a POINTS primitive without indices, when lines 197-212 go
    through, the decimator's [simplifyPoints] is asked for
    [Math.floor(ratio * V)] vertices, [V] being the count of the POSITION
    accessor (line 217), in double arithmetic: a whole number from 0 to
    [V] when the ratio is a number from 0 to 1 (and [V] is below
    [2 ^ 51]), and [NaN] when the ratio is [undefined]. The positions go
    with stride 3; colors go only when there is a COLOR_0 attribute, and
    the color stride is the size in bytes of one component of the color
    array as it is stored (line 203). *)
Theorem points_target_vertex_count (w : World) (A : PrimId)
    (_options : SimplifyOptions) (prim : Primitive) (pid : AccId) (position : Accessor)
    (positions : list F) (colors : option (list F)) (colorStride : option Z)
    (s : MeshoptSimplifier) (simplifyPoints : SimplifyPoints) :
  docPrimitives (document w) !! A = Some prim ->
  primMode prim = POINTS ->
  getIndices (document w) prim = None ->
  getAttribute (document w) prim "POSITION" = Some (pid, position) ->
  colorStrideOf (getAttribute (document w) prim "COLOR_0") = Some colorStride ->
  positionFloats position = Ok positions ->
  colorArrayFloats position (getAttribute (document w) prim "COLOR_0") = Ok colors ->
  simplifier (withDefaults _options) = Some s ->
  msSimplifyPoints s = Some simplifyPoints ->
  let r := ratio (withDefaults _options) in
  let V := getCount position in
  let target := nfloor (nmul (toNumber r) (ofCount V)) in
  let color := getAttribute (document w) prim "COLOR_0" in
  (exists rest,
     trace (snd (simplifyPrimitive A _options w))
     = trace w ++ EvSimplifyPoints true positions 3 target colors colorStride :: rest) /\
  (forall q, r = Some (Finite q) -> (0 <= q)%Q -> (q <= 1)%Q -> V < 2 ^ 51 ->
     exists t, target = Finite (inject_Z t) /\ 0 <= t <= V) /\
  (r = None -> target = NaN) /\
  (color = None -> colors = None /\ colorStride = None) /\
  (forall cid c, color = Some (cid, c) ->
     exists array,
       accArray c = Some array /\
       is_Some colors /\
       colorStride = Some (match array with
                           | Float32Array _ => 4
                           | IntArray (Int8 | Uint8) _ => 1
                           | IntArray (Int16 | Uint16) _ => 2
                           | IntArray Uint32 _ => 4
                           end)).
Proof.
  intros Hprim Hmode Hidx Hpos Hstride Hfloats Hcolors Hs Hsp. cbv zeta.
  split; [|split; [|split; [|split]]].
  - rewrite (simplifyPrimitive_points w A _options prim pid position positions colors
               colorStride s simplifyPoints Hprim Hmode Hidx Hpos Hstride Hfloats
               Hcolors Hs Hsp). cbv zeta.
    unfold pointsEntered, targetVertexCount.
    destruct (simplifyPoints _ _ _ _ _ _) as [dst|e]; cbn [snd trace].
    + destruct (msCompactMesh _ _ _) as [[[out remap] unique]|e]; cbn [snd trace];
        rewrite <- app_assoc; eexists; reflexivity.
    + by exists [].
  - intros q Hq Hq0 Hq1 HV. rewrite Hq.
    apply (targetVertexCount_bounded q (getCount position)); try done.
    split; [apply getCount_nonneg | done].
  - by intros ->.
  - intros Hnone. rewrite Hnone in Hstride, Hcolors. simpl in *. split; congruence.
  - intros cid c Hc. rewrite Hc in Hstride, Hcolors.
    unfold colorStrideOf, colorArrayFloats, colorFloats, getComponentSize in *.
    cbn [snd] in *.
    destruct (accArray c) as [array|]; [|discriminate].
    exists array. split; [done|]. split.
    + destruct array as [xs|k xs].
      * injection Hcolors as <-. eauto.
      * destruct (dequantizeAttributeArray _ _ _); [|discriminate].
        injection Hcolors as <-. eauto.
    + destruct array as [xs|[] xs]; simpl in Hstride; congruence.
Qed.

(** X9: on a primitive that is not in POINTS mode and has indices and a
    POSITION attribute, when the positions come out as floats (taken as
    they are from a [Float32Array], else what [dequantizeAttributeArray]
    returns for the array, or for its absence, with the component type
    and the normalized flag of the POSITION accessor itself), the
    decimator's [simplify] is called with the indices as a [Uint32Array],
    these positions, stride 3, the target of line 155, the error bound of
    the options (0.0001 when the key is left out, [undefined] when it is
    given so) and the flag [LockBorder] exactly when the options ask for
    it (lines 144-165). This is logged whether the call then returns or
    throws. *)
Theorem simplify_call_arguments (w : World) (A : PrimId)
    (_options : SimplifyOptions) (prim : Primitive) (iid pid : AccId)
    (srcIndices position : Accessor) (positions : list F) (s : MeshoptSimplifier) :
  docPrimitives (document w) !! A = Some prim ->
  primMode prim <> POINTS ->
  getIndices (document w) prim = Some (iid, srcIndices) ->
  getAttribute (document w) prim "POSITION" = Some (pid, position) ->
  positionFloats position = Ok positions ->
  optSimplifier _options = Some s ->
  (exists rest,
     trace (snd (simplifyPrimitive A _options w))
     = trace w ++
       EvSimplify
         (match accArray srcIndices with
          | None => []
          | Some array =>
            if isUint32Array array then intContents array else new_Uint32Array array
          end)
         positions
         3
         (nmul (nfloor (ndivPos
                          (nmul (toNumber match optRatio _options with
                                          | Missing => Some (roundDouble 0)
                                          | Given v => v
                                          end)
                                (ofCount (getCount srcIndices))) 3))
               (Finite 3))
         (match optError _options with
          | Missing => Some (roundDouble (1 # 10000))
          | Given v => v
          end)
         (match optLockBorder _options with
          | Given (Some true) => [LockBorder]
          | _ => []
          end) :: rest) /\
  match accArray position with
  | Some (Float32Array xs) => positions = xs
  | Some (IntArray k xs) =>
    dequantizeAttributeArray (Some (IntArray k xs)) (kindComponentType k)
                             (accNormalized position) = Ok positions
  | None =>
    dequantizeAttributeArray None FLOAT (accNormalized position) = Ok positions
  end.
Proof.
  intros Hprim Hmode Hidx Hpos Hfloats Hs.
  assert (Hs' : simplifier (withDefaults _options) = Some s) by exact Hs.
  split.
  - assert (Hflags :
      lockFlags (lockBorder (withDefaults _options))
      = match optLockBorder _options with Given (Some true) => [LockBorder] | _ => [] end).
    { unfold withDefaults, lockFlags; cbn [lockBorder].
      by destruct (optLockBorder _options) as [|[[]|]]. }
    rewrite <- Hflags.
    rewrite (simplifyPrimitive_triangles_run w A _options prim Hprim Hmode). cbv zeta.
    rewrite Hidx, Hpos, Hfloats, Hs'.
    destruct (msSimplify _ _ _ _ _ _ _ _) as [simplified|e]; [|by exists []].
    destruct (msCompactMesh _ _ _) as [[[dst remap] unique]|e].
    2:{ cbn [snd trace]. rewrite <- app_assoc. eexists. reflexivity. }
    destruct (fst (replaceAttributes _ _ _)) as [[]|e];
      unfold triangleResult, triangleRemapped; cbn [snd trace];
      eexists; reflexivity.
  - unfold positionFloats, getComponentType, getNormalized in Hfloats.
    destruct (accArray position) as [[xs|k xs]|]; [congruence | done | done].
Qed.

(** X10: the target index count of line 155 follows the ratio, in double
    arithmetic. It is 0 at ratio 0, which is the default when the key is
    left out; it is the index count itself at ratio 1 when that count is
    a number of whole triangles; for a ratio from 0 to 1 it is a whole
    number of triangles from 0 to the index count. The ratio is not
    checked: [undefined], as when the key is given so, and [NaN] give
    [NaN], an infinite ratio gives an infinite target, and ratio 2 asks
    for 12 indices of 6. Each operation rounds: at ratio 0.7 and 30
    indices the target is 21, not the 18 of exact arithmetic on the
    double 0.7. *)
Theorem target_index_count_follows_ratio (n : Z) :
  0 <= n < 2 ^ 51 ->
  targetIndexCount (Some (Finite 0)) n = Finite 0 /\
  targetIndexCount (ratio (withDefaults
     {| optSimplifier := None; optRatio := Missing;
        optError := Missing; optLockBorder := Missing |})) n = Finite 0 /\
  (n mod 3 = 0 -> targetIndexCount (Some (Finite 1)) n = Finite (inject_Z n)) /\
  (forall r, (0 <= r)%Q -> (r <= 1)%Q ->
     exists t, targetIndexCount (Some (Finite r)) n = Finite (inject_Z t) /\
               t mod 3 = 0 /\ 0 <= t <= n) /\
  targetIndexCount None n = NaN /\
  targetIndexCount (ratio (withDefaults
     {| optSimplifier := None; optRatio := Given None;
        optError := Missing; optLockBorder := Missing |})) n = NaN /\
  targetIndexCount (Some NaN) n = NaN /\
  (0 < n -> targetIndexCount (Some PosInfinity) n = PosInfinity) /\
  targetIndexCount (Some (Finite 2)) 6 = Finite 12 /\
  targetIndexCount (Some (roundDouble (7 # 10))) 30 = Finite 21 /\
  Qfloor ((7 # 10) * 30 / 3)%Q * 3 = 21 /\
  (forall q, roundDouble (7 # 10) = Finite q -> Qfloor (q * 30 / 3)%Q * 3 = 18).
Proof.
  intros Hn.
  split; [apply targetIndexCount_zero|].
  split; [apply targetIndexCount_zero|].
  split; [intros Hmod; by apply targetIndexCount_one|].
  split; [intros r Hr0 Hr1; by apply targetIndexCount_bounded|].
  split; [reflexivity|]. split; [reflexivity|]. split; [reflexivity|].
  split.
  { intros Hpos. unfold targetIndexCount. cbn [toNumber ofCount nmul].
    assert (Hz : Qeq_bool (inject_Z n) 0 = false).
    { apply not_true_is_false. intros Heq. apply Qeq_bool_eq in Heq.
      unfold Qeq in Heq. simpl in Heq. lia. }
    assert (Hle : Qle_bool 0 (inject_Z n) = true).
    { apply Qle_bool_iff. by apply inject_Z_nonneg; lia. }
    by rewrite Hz, Hle. }
  split; [by vm_compute|]. split; [by vm_compute|]. split; [by vm_compute|].
  intros q Hq. vm_compute in Hq. injection Hq as <-. by vm_compute.
Qed.

(** X11: an index array that is not a [Uint32Array] is widened without
    loss (lines 149-151): when its entries are unsigned 32-bit values, as
    those of a [Uint8Array] or a [Uint16Array] are, the decimator is
    handed the same numbers. *)
Theorem index_widening_lossless (srcIndices : Accessor) (k : ArrayKind) (xs : list Z) :
  accArray srcIndices = Some (IntArray k xs) ->
  Forall (fun x => 0 <= x < 2 ^ 32) xs ->
  indexUint32 srcIndices = xs.
Proof.
  intros Harr Hrange. unfold indexUint32, isUint32Array, intContents, new_Uint32Array.
  rewrite Harr.
  assert (Hmap : map (wrapUnsigned 32) xs = xs).
  { clear Harr. induction Hrange as [|x l Hx Hl IH]; simpl; [done|].
    rewrite IH. unfold wrapUnsigned. by rewrite Z.mod_small. }
  by destruct k.
Qed.

(** ** Further properties of the transform *)

(** X12: in the loop of the transform the round of a TRIANGLES primitive
    fails only if [simplifyPrimitive] does, and then with its error and
    its world: after a call that returned, the primitive is still in the
    document and has the index accessor that lines 182-184 gave it, so
    that the unchecked [prim.getIndices()!] of line 95 finds one. *)
Theorem triangle_round_fails_with_simplifyPrimitive (options : RequiredOptions)
    (s : MeshoptSimplifier) (mesh : MeshId) (q : PrimId) (w : World)
    (prim : Primitive) :
  docPrimitives (document w) !! q = Some prim ->
  primMode prim = TRIANGLES ->
  fst (simplifyMeshPrimitive options s mesh q w) = Ok tt
  \/ (exists e,
        fst (simplifyPrimitive q (asOptions options) w) = Throw e /\
        simplifyMeshPrimitive options s mesh q w
          = simplifyPrimitive q (asOptions options) w).
Proof.
  intros Hprim Hmode.
  assert (Hnp : primMode prim <> POINTS) by (rewrite Hmode; discriminate).
  rewrite (simplifyMeshPrimitive_run options s mesh q w prim Hprim).
  rewrite bool_decide_eq_true_2 by done.
  destruct (simplifyPrimitive_triangle_cases w q (asOptions options) prim Hprim Hnp)
    as [(e & t & Hrun)|[(e & srcIndices & position & positions & simplified & remap
                         & unique & Hloop & Hrun)
                       |(iid & srcIndices & position & positions & simplified & dst
                         & remap & unique & Hrun)]];
    rewrite Hrun; unfold disposeIfEmpty.
  - right. by exists e.
  - right. by exists e.
  - left.
    destruct (triangleResult_indices w q (withDefaults (asOptions options)) iid
                srcIndices position positions simplified dst remap unique prim Hprim)
      as (prim' & dstId & Hprim' & _ & Hidx').
    rewrite Hprim', Hidx'. cbn [snd].
    by destruct (getCount _ =? 0).
Qed.

(** X13: a mesh that lists no primitive when its round starts is disposed
    (line 104), though nothing was simplified: no call of the decimator,
    no warning, and the rest of the document as it was. *)
Theorem empty_mesh_disposed (options : RequiredOptions) (s : MeshoptSimplifier)
    (m : MeshId) (mesh : Mesh) (w : World) :
  docMeshes (document w) !! m = Some mesh ->
  meshPrimitives mesh = [] ->
  simplifyMesh options s m w =
    (Ok tt, {| document := disposeMesh m (document w);
               useExperimentalFeatures := useExperimentalFeatures w;
               trace := trace w |}) /\
  docMeshes (disposeMesh m (document w)) !! m = None /\
  (forall m', m' <> m ->
     docMeshes (disposeMesh m (document w)) !! m' = docMeshes (document w) !! m') /\
  docPrimitives (disposeMesh m (document w)) = docPrimitives (document w) /\
  docAccessors (disposeMesh m (document w)) = docAccessors (document w).
Proof.
  intros Hmesh Hempty.
  assert (Hlist : listPrimitives m (document w) = []).
  { unfold listPrimitives. by rewrite Hmesh. }
  split.
  - rewrite simplifyMesh_run. rewrite Hlist. cbn [forEach]. unfold ret.
    rewrite Hlist. by rewrite bool_decide_eq_true_2.
  - unfold disposeMesh; cbn [docMeshes docPrimitives docAccessors].
    split; [apply lookup_delete_eq|]. split; [|done].
    intros m' Hne. by apply lookup_delete_ne.
Qed.

(** X14: the transform stops at the first phase that fails, with that
    phase's error, and undoes nothing. If the decimator is not ready, no
    pass runs and the document is untouched. If the weld pass fails, no
    primitive is simplified. If the loop over the primitives fails, the
    run ends as the loop ended: what was simplified stays simplified, and
    neither [prune] nor [dedup] runs. If the prune pass fails, [dedup]
    does not run. *)
Theorem transform_stops_at_first_failure (options : RequiredOptions)
    (s : MeshoptSimplifier) (context : option TransformContext) (w : World) (e : Exn) :
  let welded :=
    {| document := snd (weld {| overwrite := false |} (document w));
       useExperimentalFeatures := useExperimentalFeatures w;
       trace := trace w ++ [EvReady; EvWeld {| overwrite := false |}] |} in
  let looped := snd (simplifyMeshes options s welded) in
  (msReady s = Throw e ->
   simplifyTransform options s context w =
     (Throw e, {| document := document w;
                  useExperimentalFeatures := useExperimentalFeatures w;
                  trace := trace w ++ [EvReady] |})) /\
  (msReady s = Ok tt ->
   fst (weld {| overwrite := false |} (document w)) = Throw e ->
   simplifyTransform options s context w = (Throw e, welded)) /\
  (msReady s = Ok tt ->
   fst (weld {| overwrite := false |} (document w)) = Ok tt ->
   fst (simplifyMeshes options s welded) = Throw e ->
   simplifyTransform options s context w = (Throw e, looped)) /\
  (msReady s = Ok tt ->
   fst (weld {| overwrite := false |} (document w)) = Ok tt ->
   fst (simplifyMeshes options s welded) = Ok tt ->
   fst (prune pruneOptions (document looped)) = Throw e ->
   simplifyTransform options s context w =
     (Throw e, {| document := snd (prune pruneOptions (document looped));
                  useExperimentalFeatures := useExperimentalFeatures looped;
                  trace := trace looped ++ [EvPrune pruneOptions] |})).
Proof.
  cbv zeta. unfold simplifyTransform.
  split; [|split; [|split]].
  - intros Hready. unfold bind at 1. unfold emit at 1.
    unfold bind at 1. unfold liftResult at 1. by rewrite Hready.
  - intros Hready Hweld. unfold bind at 1. unfold emit at 1.
    unfold bind at 1. unfold liftResult at 1. rewrite Hready.
    unfold bind at 1. rewrite transform_run. cbn [document trace useExperimentalFeatures].
    rewrite Hweld. by rewrite <- app_assoc.
  - intros Hready Hweld Hloop. unfold bind at 1. unfold emit at 1.
    unfold bind at 1. unfold liftResult at 1. rewrite Hready.
    unfold bind at 1. rewrite transform_run. cbn [document trace useExperimentalFeatures].
    rewrite Hweld. rewrite <- app_assoc. cbn [app].
    unfold bind at 1.
    destruct (simplifyMeshes options s _) as [[[]|e'] w2]; cbn [fst snd] in *;
      [discriminate | congruence].
  - intros Hready Hweld Hloop Hprune. unfold bind at 1. unfold emit at 1.
    unfold bind at 1. unfold liftResult at 1. rewrite Hready.
    unfold bind at 1. rewrite transform_run. cbn [document trace useExperimentalFeatures].
    rewrite Hweld. rewrite <- app_assoc. cbn [app].
    unfold bind at 1.
    destruct (simplifyMeshes options s _) as [[[]|e'] w2]; cbn [fst snd] in *;
      [|discriminate].
    unfold bind at 1. rewrite transform_run. by rewrite Hprune.
Qed.

Lemma noPointsToSimplify_evolves (s : MeshoptSimplifier) (q : PrimId)
    (d d' : Document) :
  evolves q d d' -> noPointsToSimplify s d -> noPointsToSimplify s d'.
Proof.
  intros (_ & _ & Hother & Hmode & _) Hno p prim' Hp.
  destruct (decide (p = q)) as [->|Hne].
  - rewrite Hp in Hmode.
    destruct (docPrimitives d !! q) as [prim|] eqn:Hq; [|discriminate].
    injection Hmode as Hmode. rewrite Hmode. by apply (Hno q).
  - rewrite Hother in Hp by done. by apply (Hno p).
Qed.

Lemma noPointsToSimplify_dispose (s : MeshoptSimplifier) (q : PrimId) (d : Document) :
  noPointsToSimplify s d -> noPointsToSimplify s (disposePrimitive q d).
Proof.
  intros Hno p prim Hp. unfold disposePrimitive in Hp; cbn [docPrimitives] in Hp.
  apply lookup_delete_Some in Hp as [_ Hp]. by apply (Hno p).
Qed.

Lemma disposeIfEmpty_toggle (read : Document -> Primitive -> option (AccId * Accessor))
    (what : string) (q : PrimId) (r : result unit * World) :
  useExperimentalFeatures (snd (disposeIfEmpty read what q r))
    = useExperimentalFeatures (snd r).
Proof.
  unfold disposeIfEmpty. destruct r as [[[]|e] w1]; [|done].
  destruct (docPrimitives (document w1) !! q) as [prim1|]; [|done].
  destruct (read (document w1) prim1) as [ia|]; [|done].
  by destruct (getCount (snd ia) =? 0).
Qed.

Lemma simplifyMeshPrimitive_keeps_toggle (options : RequiredOptions)
    (s : MeshoptSimplifier) (mesh : MeshId) (q : PrimId) (w : World) :
  noPointsToSimplify s (document w) ->
  noPointsToSimplify s (document (snd (simplifyMeshPrimitive options s mesh q w))) /\
  useExperimentalFeatures (snd (simplifyMeshPrimitive options s mesh q w))
    = useExperimentalFeatures w.
Proof.
  intros Hno. split.
  - revert Hno. apply (simplifyMeshPrimitive_preserves (noPointsToSimplify s)).
    + apply noPointsToSimplify_evolves.
    + apply noPointsToSimplify_dispose.
  - destruct (docPrimitives (document w) !! q) as [prim|] eqn:Hprim.
    2:{ by rewrite simplifyMeshPrimitive_stale. }
    rewrite (simplifyMeshPrimitive_run options s mesh q w prim Hprim).
    case_bool_decide as Htri.
    + rewrite disposeIfEmpty_toggle.
      assert (Hnp : primMode prim <> POINTS) by (rewrite Htri; discriminate).
      destruct (simplifyPrimitive_triangle_cases w q (asOptions options) prim Hprim Hnp)
        as [(e' & t & Hrun)|[(e' & srcIndices & position & positions & simplified
                              & remap & unique & Hloop & Hrun)
                            |(iid & srcIndices & position & positions & simplified & dst
                              & remap & unique & Hrun)]];
        by rewrite Hrun.
    + destruct (Hno q prim Hprim) as [Hmode|Hsp].
      * by rewrite (bool_decide_eq_false_2 (primMode prim = POINTS)).
      * rewrite Hsp. rewrite (bool_decide_eq_false_2 (is_Some None)); [|by intros [? ?]].
        by rewrite andb_false_r.
Qed.

(** X15: the loop of the transform writes the decimator's
    [useExperimentalFeatures] only when it simplifies a POINTS primitive.
    On a document that has no primitive in POINTS mode, or with a
    decimator that has no [simplifyPoints], the toggle has after the loop
    the value it had before, whether the loop completes or throws. *)
Theorem loop_keeps_toggle_without_points (options : RequiredOptions)
    (s : MeshoptSimplifier) (w : World) :
  noPointsToSimplify s (document w) ->
  useExperimentalFeatures (snd (simplifyMeshes options s w)) = useExperimentalFeatures w.
Proof.
  intros Hno. rewrite simplifyMeshes_run.
  set (I := fun w' : World =>
              noPointsToSimplify s (document w') /\
              useExperimentalFeatures w' = useExperimentalFeatures w).
  assert (Hmesh : forall m w', I w' -> I (snd (simplifyMesh options s m w'))).
  { intros m w' Hw'. rewrite simplifyMesh_run.
    destruct (forEach_stable I (fun _ => True) (listPrimitives m (document w'))
                (simplifyMeshPrimitive options s m)) with (w := w') as [Hinner _];
      [| done | done | done |].
    { intros q w2 _ [Hno2 Ht2].
      destruct (simplifyMeshPrimitive_keeps_toggle options s m q w2 Hno2) as [Hno3 Ht3].
      split; [done | congruence]. }
    destruct (forEach _ _ w') as [[[]|e] w1]; cbn [snd] in *; [|done].
    case_bool_decide; cbn [snd]; [|done].
    destruct Hinner as [Hno1 Ht1]. split; [|done].
    intros p prim Hp. by apply (Hno1 p). }
  destruct (forEach_stable I (fun _ => True) (listMeshes (document w))
              (simplifyMesh options s)) with (w := w) as [[_ Ht] _]; try done.
  intros m w' _ Hw'. by apply Hmesh.
Qed.

(** ** The loop completes *)

Lemma roundReady_kept (s : MeshoptSimplifier) (d d' : Document) (p : PrimId) :
  docPrimitives d' !! p = docPrimitives d !! p ->
  (forall prim x a, docPrimitives d !! p = Some prim -> references prim x = true ->
     docAccessors d !! x = Some a -> docAccessors d' !! x = Some a) ->
  roundReady s d p -> roundReady s d' p.
Proof.
  intros Hp Ha (prim & Hprim & Hready). exists prim. split; [by rewrite Hp|].
  destruct Hready as [Hun|(Hmode & [[i a] Hidx] & (j & b & positions & Hpos & Hfloats)
                           & Harr)]; [by left|].
  right. split; [done|].
  apply getIndices_live in Hidx as [Hi Hia].
  apply getAttribute_live in Hpos as [Hj Hjb].
  split; [|split].
  - unfold getIndices. rewrite Hi.
    rewrite (Ha prim i a Hprim (references_indices prim i Hi) Hia). eauto.
  - exists j, b, positions. split; [|done]. unfold getAttribute. rewrite Hj.
    by rewrite (Ha prim j b Hprim (references_attribute prim "POSITION" j Hj) Hjb).
  - intros x Hx. destruct (Harr x Hx) as (c & Hc & Hsome). exists c. split; [|done].
    apply (Ha prim x c Hprim); [|done].
    apply references_true_iff. by right.
Qed.

Lemma simplifyMeshPrimitive_returns (options : RequiredOptions) (s : MeshoptSimplifier)
    (mesh : MeshId) (q : PrimId) (w : World) :
  simplifier options = Some s ->
  neverThrows s ->
  roundReady s (document w) q ->
  fst (simplifyMeshPrimitive options s mesh q w) = Ok tt.
Proof.
  intros Hs [Hsimp Hcomp] (prim & Hprim & Hready).
  destruct Hready as [Hun|(Hmode & [[iid srcIndices] Hidx]
                           & (pid & position & positions & Hpos & Hfloats) & Harr)].
  - by rewrite (simplifyMeshPrimitive_skips options s mesh q prim w Hprim Hun).
  - assert (Hnp : primMode prim <> POINTS) by (rewrite Hmode; discriminate).
    rewrite (simplifyMeshPrimitive_run options s mesh q w prim Hprim).
    rewrite bool_decide_eq_true_2 by done.
    destruct (Hsimp (useExperimentalFeatures w) (indexUint32 srcIndices)
                positions 3
                (targetIndexCount (ratio (withDefaults (asOptions options)))
                                  (getCount srcIndices))
                (error (withDefaults (asOptions options)))
                (lockFlags (lockBorder (withDefaults (asOptions options)))))
      as [simplified Hsimplified].
    destruct (Hcomp (useExperimentalFeatures w) (fst simplified))
      as [[[dst remap] unique] Hcompacted].
    assert (Hloop : fst (replaceAttributes (remapAttribute remap unique) q (document w))
                    = Ok tt).
    { apply (replaceAttributes_returns remap unique q (document w) prim Hprim).
      intros x a Hx Ha. destruct (Harr x Hx) as (c & Hc & Hsome). congruence. }
    rewrite (simplifyPrimitive_triangles w q (asOptions options) prim iid pid srcIndices
               position positions s simplified dst remap unique Hprim Hnp Hidx Hpos
               Hfloats Hs Hsimplified Hcompacted Hloop).
    unfold disposeIfEmpty.
    destruct (triangleResult_indices w q (withDefaults (asOptions options)) iid
                srcIndices position positions (fst simplified) dst remap unique prim
                Hprim)
      as (prim' & dstId & Hprim' & _ & Hidx').
    rewrite Hprim', Hidx'. cbn [snd].
    by destruct (getCount _ =? 0).
Qed.

Lemma simplifyMeshPrimitive_keeps_ready (options : RequiredOptions)
    (s : MeshoptSimplifier) (mesh : MeshId) (p q : PrimId) (w : World) :
  p <> q ->
  freshOk (document w) ->
  roundReady s (document w) p ->
  roundReady s (document (snd (simplifyMeshPrimitive options s mesh q w))) p.
Proof.
  intros Hne Hf Hready.
  assert (Hpres : preserves (fun d d' => freshOk d ->
                               freshOk d' /\ (roundReady s d p -> roundReady s d' p))
                            (simplifyMeshPrimitive options s mesh q)).
  { apply simplifyMeshPrimitive_preserves_rel.
    - by intros d Hd.
    - intros d1 d2 d3 H12 H23 Hd1.
      destruct (H12 Hd1) as [Hd2 Hr12]. destruct (H23 Hd2) as [Hd3 Hr23]. auto.
    - intros d d' Hev Hd.
      destruct (evolves_frame q p d d' Hne Hev Hd) as (Hd' & Hp & Ha).
      split; [done|]. by apply roundReady_kept.
    - intros d Hd. split; [done|]. apply roundReady_kept.
      + unfold disposePrimitive; cbn [docPrimitives]. by apply lookup_delete_ne.
      + by intros prim x a _ _ Hx. }
  destruct (Hpres w Hf) as [_ Hkeep]. by apply Hkeep.
Qed.

Lemma listedOnce_primitive_round (options : RequiredOptions) (s : MeshoptSimplifier)
    (mesh : MeshId) (q : PrimId) :
  preserves (fun d d' => listedOnce d -> listedOnce d')
            (simplifyMeshPrimitive options s mesh q).
Proof.
  apply simplifyMeshPrimitive_preserves.
  - intros d d' (_ & Hm & _) Hd m me. rewrite Hm. apply Hd.
  - intros d Hd m me. unfold disposePrimitive; cbn [docMeshes]. rewrite lookup_fmap.
    destruct (docMeshes d !! m) as [me0|] eqn:Hm; [|done].
    intros [= <-]. unfold detachPrimitive; cbn [meshPrimitives].
    apply NoDup_filter. by apply (Hd m).
Qed.

Lemma forEach_total {A} (J : World -> Prop) (Pre : A -> World -> Prop) (l : list A)
    (body : A -> M unit) :
  NoDup l ->
  (forall y w, y ∈ l -> J w -> Pre y w ->
     fst (body y w) = Ok tt /\ J (snd (body y w))) ->
  (forall x y w, x ∈ l -> y ∈ l -> x <> y -> J w -> Pre x w ->
     Pre x (snd (body y w))) ->
  forall w, J w -> (forall x, x ∈ l -> Pre x w) ->
    fst (forEach l body w) = Ok tt /\ J (snd (forEach l body w)).
Proof.
  intros Hnd. induction Hnd as [|x l Hx Hnd IH]; intros Hbody Hkeep w Hw Hpre;
    cbn [forEach]; [done|].
  assert (Hxin : x ∈ x :: l) by (apply elem_of_cons; by left).
  destruct (Hbody x w Hxin Hw (Hpre x Hxin)) as [Hok Hw1].
  unfold bind. destruct (body x w) as [[[]|e] w1] eqn:Hrun; cbn [fst snd] in *;
    [|discriminate].
  apply IH; [| |done|].
  - intros y w2 Hy. apply Hbody. apply elem_of_cons. by right.
  - intros y z w2 Hy Hz. apply Hkeep; apply elem_of_cons; by right.
  - intros y Hy.
    assert (Hyin : y ∈ x :: l) by (apply elem_of_cons; by right).
    assert (Hne : y <> x) by (intros ->; done).
    pose proof (Hkeep y x w Hyin Hxin Hne Hw (Hpre y Hyin)) as Hy1.
    by rewrite Hrun in Hy1.
Qed.

Section Total.

Variables (options : RequiredOptions) (s : MeshoptSimplifier) (d0 : Document).
Hypothesis Hsimplifier : simplifier options = Some s.
Hypothesis Htotal : neverThrows s.
Hypothesis Hsingle : singleParent d0.

Let inv (w : World) : Prop :=
  freshOk (document w) /\ shrinks d0 (document w) /\ listedOnce (document w).

Lemma simplifyMeshPrimitive_inv (m : MeshId) (q : PrimId) (w : World) :
  inv w -> inv (snd (simplifyMeshPrimitive options s m q w)).
Proof.
  intros (Hf & Hsh & Hnd).
  destruct (simplifyMeshPrimitive_loopStep options s m q w) as [Hf' Hsh'].
  split; [auto|]. split; [by apply (shrinks_trans d0 (document w))|].
  by apply (listedOnce_primitive_round options s m q w).
Qed.

Lemma simplifyMesh_inv (m : MeshId) (w : World) :
  inv w -> inv (snd (simplifyMesh options s m w)).
Proof.
  intros (Hf & Hsh & Hnd).
  destruct (simplifyMesh_loopStep options s m w) as [Hf' Hsh'].
  split; [auto|]. split; [by apply (shrinks_trans d0 (document w))|].
  assert (Hpres : preserves (fun d d' => listedOnce d -> listedOnce d')
                            (simplifyMesh options s m)).
  { unfold simplifyMesh.
    preserves_walk (fun (d : Document) (H : listedOnce d) => H)
                   (fun (d1 d2 d3 : Document) (H12 : listedOnce d1 -> listedOnce d2)
                        (H23 : listedOnce d2 -> listedOnce d3) (H : listedOnce d1) =>
                      H23 (H12 H)).
    - apply listedOnce_primitive_round.
    - intros k me Hm. unfold disposeMesh in Hm; cbn [docMeshes] in Hm.
      apply lookup_delete_Some in Hm as [_ Hm].
      match goal with Hd : listedOnce _ |- _ => by apply (Hd k) end. }
  by apply (Hpres w).
Qed.

Lemma simplifyMesh_returns (m : MeshId) (w : World) :
  inv w -> meshReady s m (document w) ->
  fst (simplifyMesh options s m w) = Ok tt.
Proof.
  intros Hw Hready. rewrite simplifyMesh_run.
  destruct (forEach_total inv (fun q w' => roundReady s (document w') q)
              (listPrimitives m (document w))
              (simplifyMeshPrimitive options s m)) with (w := w) as [Hok _].
  - unfold listPrimitives. destruct (docMeshes (document w) !! m) as [me|] eqn:Hm;
      [|apply NoDup_nil_2].
    destruct Hw as (_ & _ & Hnd). by apply (Hnd m).
  - intros q w' _ Hw' Hq. split.
    + by apply simplifyMeshPrimitive_returns.
    + by apply simplifyMeshPrimitive_inv.
  - intros p q w' _ _ Hne (Hf' & _) Hp. by apply simplifyMeshPrimitive_keeps_ready.
  - done.
  - intros q Hq. unfold listPrimitives in Hq.
    destruct (docMeshes (document w) !! m) as [me|] eqn:Hm;
      [|by apply elem_of_nil in Hq].
    by apply (Hready me).
  - destruct (forEach _ _ w) as [[[]|e] w1]; cbn [fst] in *; [|discriminate].
    by case_bool_decide.
Qed.

Lemma simplifyMesh_keeps_ready (m m' : MeshId) (w : World) :
  m <> m' ->
  inv w -> meshReady s m (document w) ->
  meshReady s m (document (snd (simplifyMesh options s m' w))).
Proof.
  intros Hne Hw Hready. rewrite simplifyMesh_run.
  set (l := listPrimitives m' (document w)).
  assert (Hl : forall q, q ∈ l ->
            exists me0, docMeshes d0 !! m' = Some me0 /\ q ∈ meshPrimitives me0).
  { intros q Hq. unfold l, listPrimitives in Hq.
    destruct (docMeshes (document w) !! m') as [me|] eqn:Hm;
      [|by apply elem_of_nil in Hq].
    destruct Hw as (_ & Hsh & _).
    destruct (Hsh m' me Hm) as (me0 & Hme0 & Hsub). eauto. }
  destruct (forEach_stable (fun w' => inv w' /\ meshReady s m (document w'))
              (fun _ => True) l (simplifyMeshPrimitive options s m')) with (w := w)
    as [[Hinv1 Hready1] _]; [| done | done | done |].
  { intros q w2 Hq [Hw2 Hr2]. split; [by apply simplifyMeshPrimitive_inv|].
    intros me' p Hme' Hp.
    destruct (simplifyMeshPrimitive_loopStep options s m' q w2) as [_ Hsh2].
    destruct (Hsh2 m me' Hme') as (me2 & Hme2 & Hsub2).
    assert (Hp2 : p ∈ meshPrimitives me2) by auto.
    destruct Hw2 as (Hf2 & Hsh02 & _).
    apply simplifyMeshPrimitive_keeps_ready; [|done|by apply (Hr2 me2)].
    intros ->. apply Hne.
    destruct (Hsh02 m me2 Hme2) as (me0 & Hme0 & Hsub0).
    destruct (Hl q Hq) as (me0' & Hme0' & Hq0).
    apply (Hsingle m m' me0 me0' q); auto. }
  destruct (forEach l _ w) as [[[]|e] w1]; cbn [snd] in *; [|done].
  case_bool_decide; cbn [snd document]; [|done].
  intros me p Hme Hp. unfold disposeMesh in Hme; cbn [docMeshes] in Hme.
  apply lookup_delete_Some in Hme as [_ Hme].
  apply (roundReady_kept s (document w1)); [done | by intros prim x a _ _ Hx |].
  by apply (Hready1 me).
Qed.

End Total.

Lemma NoDup_listMeshes (d : Document) : NoDup (listMeshes d).
Proof.
  unfold listMeshes. rewrite merge_sort_Permutation. apply NoDup_fst_map_to_list.
Qed.

(** X16: the loop of the transform completes whenever nothing it asks for
    is missing: if the decimator's [simplify] and [compactMesh] never
    throw, every primitive listed by a mesh is in a mode that is skipped or
    is a TRIANGLES primitive with indices and a POSITION attribute whose
    positions come out as floats (as they are, or because
    [dequantizeAttributeArray] returns them) and whose attribute slots,
    those of its morph targets included, all hold accessors that have an
    array, and no primitive is listed twice, by one mesh or by two, then
    the loop returns, whatever the decimator hands back, also when
    primitives and meshes come out empty. *)
Theorem loop_completes (options : RequiredOptions) (s : MeshoptSimplifier) (w : World) :
  simplifier options = Some s ->
  neverThrows s ->
  freshOk (document w) ->
  singleParent (document w) ->
  listedOnce (document w) ->
  (forall m, meshReady s m (document w)) ->
  fst (simplifyMeshes options s w) = Ok tt.
Proof.
  intros Hs Htotal Hf Hsingle Hnd Hready. rewrite simplifyMeshes_run.
  set (d0 := document w).
  destruct (forEach_total
              (fun w' => freshOk (document w') /\ shrinks d0 (document w') /\
                         listedOnce (document w'))
              (fun m w' => meshReady s m (document w'))
              (listMeshes d0) (simplifyMesh options s)) with (w := w) as [Hok _].
  - apply NoDup_listMeshes.
  - intros m w' _ Hw' Hm. split.
    + by apply (simplifyMesh_returns options s d0).
    + by apply (simplifyMesh_inv options s d0).
  - intros m m' w' _ _ Hne Hw' Hm. by apply (simplifyMesh_keeps_ready options s d0).
  - split; [done|]. split; [apply shrinks_refl | done].
  - intros m _. apply Hready.
  - exact Hok.
Qed.

(** X17: when no phase fails, the document that the transform leaves is
    the input taken through the weld pass, the loop over the primitives,
    the prune pass and the dedup pass, in that order, each working on what
    the one before left; when a [dedup] pass is pending in the caller's
    pipeline it is the document that the prune pass left. The decimator's
    toggle is as the loop left it. *)
Theorem transform_composes_passes (options : RequiredOptions)
    (s : MeshoptSimplifier) (context : option TransformContext) (w : World) :
  let welded :=
    {| document := snd (weld {| overwrite := false |} (document w));
       useExperimentalFeatures := useExperimentalFeatures w;
       trace := trace w ++ [EvReady; EvWeld {| overwrite := false |}] |} in
  let looped := snd (simplifyMeshes options s welded) in
  let pruned := snd (prune pruneOptions (document looped)) in
  fst (simplifyTransform options s context w) = Ok tt ->
  document (snd (simplifyTransform options s context w))
    = (if isTransformPending context NAME "dedup"
       then pruned
       else snd (dedup dedupOptions pruned)) /\
  useExperimentalFeatures (snd (simplifyTransform options s context w))
    = useExperimentalFeatures looped.
Proof.
  cbv zeta.
  remember (simplifyTransform options s context w) as r eqn:Hr.
  unfold simplifyTransform in Hr.
  unfold bind at 1 in Hr. unfold emit at 1 in Hr.
  unfold bind at 1 in Hr. unfold liftResult at 1 in Hr.
  destruct (msReady s) as [[]|e]; [|by subst r].
  unfold bind at 1 in Hr. rewrite transform_run in Hr.
  cbn [document trace useExperimentalFeatures] in Hr.
  destruct (fst (weld {| overwrite := false |} (document w))) as [[]|e]; [|by subst r].
  rewrite <- app_assoc in Hr. cbn [app] in Hr.
  unfold bind at 1 in Hr.
  destruct (simplifyMeshes options s _) as [[[]|e] w2]; cbn [fst snd]; [|by subst r].
  unfold bind at 1 in Hr. rewrite transform_run in Hr.
  destruct (fst (prune pruneOptions (document w2))) as [[]|e]; [|by subst r].
  unfold bind at 1 in Hr.
  destruct (isTransformPending context NAME "dedup"); cbn [negb] in Hr.
  - subst r. by run_monad.
  - rewrite transform_run in Hr.
    destruct (fst (dedup dedupOptions _)) as [[]|e]; [|by subst r].
    subst r. by run_monad.
Qed.

End Simplify.

(** * Concrete documents and decimators

    Instances on which the statements above are run: array elements are
    rationals, the sub-pipelines do nothing, and the decimator is a small
    one that keeps the first triangles (or points) it is given. *)

(** ECMAScript [ToUint32] on a rational: truncate, then wrap. *)
Definition toUint32Q (q : Q) : Z := wrapUnsigned 32 (Z.quot (Qnum q) (Zpos (Qden q))).

(** Modelled from the spec: [MathUtils.decodeNormalizedInt] of the core
    package, on rationals: a value is decoded by the range of the given
    component type, and a component type that is none of the five it
    knows makes it throw. *)
Definition decodeNormalizedInt (v : Q) (componentType : ComponentType) : result Q :=
  match componentType with
  | FLOAT => Ok v
  | UNSIGNED_SHORT => Ok (v / 65535)%Q
  | UNSIGNED_BYTE => Ok (v / 255)%Q
  | SHORT => Ok (Qmax (v / 32767) (-1))%Q
  | BYTE => Ok (Qmax (v / 127) (-1))%Q
  | UNSIGNED_INT => Throw (ExternalError "Invalid component type.")
  end.

Fixpoint decodeAll (vs : list Q) (componentType : ComponentType) : result (list Q) :=
  match vs with
  | [] => Ok []
  | v :: vs' =>
    match decodeNormalizedInt v componentType with
    | Throw e => Throw e
    | Ok x =>
      match decodeAll vs' componentType with
      | Throw e => Throw e
      | Ok xs => Ok (x :: xs)
      end
    end
  end.

(** Modelled from the spec: [dequantizeAttributeArray] of [dequantize.ts],
    on rationals. The length of the array is read without a check;
    the values of an array that is normalized are decoded one by one,
    otherwise they are taken as they are. *)
Definition dequantizeQ (array : option (TypedArray Q)) (componentType : ComponentType)
    (normalized : bool) : result (list Q) :=
  match array with
  | None => Throw (TypeError "srcArray.length")
  | Some srcArray =>
    let values :=
      match srcArray with
      | Float32Array _ xs => xs
      | IntArray _ _ xs => map inject_Z xs
      end in
    if normalized then decodeAll values componentType else Ok values
  end.

Definition noPass : Pass Q := fun d => (Ok tt, d).

(** Renumbering of an index list in order of first use: the rewritten
    list, the old-to-new table so far, and the number of vertices used. *)
Fixpoint compactLoop (indices : list Z) (table : list (Z * Z)) (next : Z)
  : list Z * list (Z * Z) * Z :=
  match indices with
  | [] => ([], table, next)
  | i :: rest =>
    match snd <$> find (fun e => bool_decide (fst e = i)) table with
    | Some j =>
      let '(out, t, n) := compactLoop rest table next in (j :: out, t, n)
    | None =>
      let '(out, t, n) := compactLoop rest ((i, next) :: table) (next + 1) in
      (next :: out, t, n)
    end
  end.

(** A [compactMesh]: the remap table has one entry per vertex up to the
    largest index, [0xffffffff] for a vertex that is not used. *)
Definition compactQ (indices : list Z) : list Z * list Z * Z :=
  let '(out, table, n) := compactLoop indices [] 0 in
  (out,
   map (fun i => default 4294967295
                   (snd <$> find (fun e => bool_decide (fst e = Z.of_nat i)) table))
       (seq 0 (Z.to_nat (foldr Z.max (-1) indices + 1))),
   n).

(** The first triangles of an index list, up to [target] indices. *)
Definition firstTriangles (target : Z) (indices : list Z) : list Z :=
  take (Z.to_nat target `min` length indices / 3 * 3)%nat indices.

(** A decimator that keeps the first triangles, or points, up to the
    target. *)
Definition firstOnes : MeshoptSimplifier Q :=
  {| msReady := Ok tt;
     msSimplify := fun _ indices _ _ target _ _ => Ok (firstTriangles (wholePart target) indices, 0%Q);
     msSimplifyPoints :=
       Some (fun _ _ _ target _ _ => Ok (map Z.of_nat (seq 0 (Z.to_nat (wholePart target)))));
     msCompactMesh := fun _ indices => Ok (compactQ indices) |}.

(** A decimator whose [simplifyPoints] throws. *)
Definition pointsThrow : MeshoptSimplifier Q :=
  {| msReady := Ok tt;
     msSimplify := fun _ indices _ _ target _ _ => Ok (firstTriangles (wholePart target) indices, 0%Q);
     msSimplifyPoints := Some (fun _ _ _ _ _ _ => Throw (ExternalError "simplifyPoints"));
     msCompactMesh := fun _ indices => Ok (compactQ indices) |}.

(** A decimator without [simplifyPoints]. *)
Definition trianglesOnly : MeshoptSimplifier Q :=
  {| msReady := Ok tt;
     msSimplify := fun _ indices _ _ target _ _ => Ok (firstTriangles (wholePart target) indices, 0%Q);
     msSimplifyPoints := None;
     msCompactMesh := fun _ indices => Ok (compactQ indices) |}.

(** Options that give the decimator, if any, and the ratio. *)
Definition optionsWith (s : option (MeshoptSimplifier Q)) (r : Q) : SimplifyOptions Q :=
  {| optSimplifier := s; optRatio := Given (Some (literal r));
     optError := Missing; optLockBorder := Missing |}.

(** A quad of two triangles. The mesh [quad] draws it with two triangle
    primitives and one of lines, the mesh [solo] with one triangle
    primitive; all four share the position and the index accessor. *)
Definition quadPosition : Accessor Q :=
  {| accName := "position";
     accArray := Some (Float32Array Q [0; 0; 0; 1; 0; 0; 1; 1; 0; 0; 1; 0]%Q);
     accType := VEC3; accNormalized := false |}.

Definition quadIndices : Accessor Q :=
  {| accName := "indices";
     accArray := Some (IntArray Q Uint16 [0; 1; 2; 0; 2; 3]);
     accType := SCALAR; accNormalized := false |}.

Definition quadPrimitive : Primitive :=
  {| primMode := TRIANGLES; primIndices := Some 1%nat;
     primAttributes := [("POSITION", 0%nat)]; primTargets := [] |}.

Definition linesPrimitive : Primitive :=
  {| primMode := LINES; primIndices := Some 1%nat;
     primAttributes := [("POSITION", 0%nat)]; primTargets := [] |}.

Definition quadDocument : Document Q :=
  {| docAccessors := <[0%nat := quadPosition]> (<[1%nat := quadIndices]> ∅);
     docNextAccessor := 2;
     docPrimitives :=
       <[0%nat := quadPrimitive]> (<[1%nat := quadPrimitive]>
         (<[2%nat := linesPrimitive]> (<[3%nat := quadPrimitive]> ∅)));
     docMeshes :=
       <[0%nat := {| meshName := "quad"; meshPrimitives := [0; 1; 2]%nat |}]>
         {[ 1%nat := {| meshName := "solo"; meshPrimitives := [3%nat] |} ]} |}.

Definition quadWorld : World Q :=
  {| document := quadDocument; useExperimentalFeatures := false; trace := [] |}.

(** A cloud of four points with a normalized byte color each. *)
Definition cloudColor : Accessor Q :=
  {| accName := "color";
     accArray :=
       Some (IntArray Q Uint8 [255; 0; 0; 0; 255; 0; 0; 0; 255; 255; 255; 255]);
     accType := VEC3; accNormalized := true |}.

Definition cloudPrimitive : Primitive :=
  {| primMode := POINTS; primIndices := None;
     primAttributes := [("POSITION", 0%nat); ("COLOR_0", 1%nat)]; primTargets := [] |}.

Definition cloudDocument : Document Q :=
  {| docAccessors := <[0%nat := quadPosition]> (<[1%nat := cloudColor]> ∅);
     docNextAccessor := 2;
     docPrimitives := {[ 0%nat := cloudPrimitive ]};
     docMeshes := {[ 0%nat := {| meshName := "cloud"; meshPrimitives := [0%nat] |} ]} |}.

Definition cloudWorld : World Q :=
  {| document := cloudDocument; useExperimentalFeatures := false; trace := [] |}.

(** A triangle primitive over 65535 vertices, of which one triangle uses
    the first three. *)
Definition largePosition : Accessor Q :=
  {| accName := "position";
     accArray := Some (Float32Array Q (repeat 0%Q (Z.to_nat 196605)));
     accType := VEC3; accNormalized := false |}.

Definition largeIndices : Accessor Q :=
  {| accName := "indices";
     accArray := Some (IntArray Q Uint32 [0; 1; 2; 3; 4; 5]);
     accType := SCALAR; accNormalized := false |}.

Definition largeDocument : Document Q :=
  {| docAccessors := <[0%nat := largePosition]> (<[1%nat := largeIndices]> ∅);
     docNextAccessor := 2;
     docPrimitives := {[ 0%nat := quadPrimitive ]};
     docMeshes := {[ 0%nat := {| meshName := "large"; meshPrimitives := [0%nat] |} ]} |}.

Definition largeWorld : World Q :=
  {| document := largeDocument; useExperimentalFeatures := false; trace := [] |}.

(** Two meshes that list the same triangle primitive. *)
Definition sharedDocument : Document Q :=
  {| docAccessors := <[0%nat := quadPosition]> (<[1%nat := quadIndices]> ∅);
     docNextAccessor := 2;
     docPrimitives := {[ 0%nat := quadPrimitive ]};
     docMeshes :=
       <[0%nat := {| meshName := "first"; meshPrimitives := [0%nat] |}]>
         {[ 1%nat := {| meshName := "second"; meshPrimitives := [0%nat] |} ]} |}.

Definition sharedWorld : World Q :=
  {| document := sharedDocument; useExperimentalFeatures := false; trace := [] |}.

(** The cloud again, with the decimator's toggle switched on by an earlier
    user. *)
Definition cloudWorldOn : World Q :=
  {| document := cloudDocument; useExperimentalFeatures := true; trace := [] |}.

(** The quad with the toggle switched on. *)
Definition quadWorldOn : World Q :=
  {| document := quadDocument; useExperimentalFeatures := true; trace := [] |}.

(** A POINTS primitive that has no attribute at all. *)
Definition barePoints : Primitive :=
  {| primMode := POINTS; primIndices := None; primAttributes := []; primTargets := [] |}.

Definition bareWorld : World Q :=
  {| document :=
       {| docAccessors := ∅; docNextAccessor := 0;
          docPrimitives := {[ 0%nat := barePoints ]};
          docMeshes := {[ 0%nat := {| meshName := "bare"; meshPrimitives := [0%nat] |} ]} |};
     useExperimentalFeatures := false; trace := [] |}.

(** A document whose one mesh lists no primitive. *)
Definition hollowWorld : World Q :=
  {| document :=
       {| docAccessors := ∅; docNextAccessor := 0; docPrimitives := ∅;
          docMeshes := {[ 0%nat := {| meshName := "hollow"; meshPrimitives := [] |} ]} |};
     useExperimentalFeatures := false; trace := [] |}.

(** A decimator that is never ready, and one whose [simplify] throws. *)
Definition notReady : MeshoptSimplifier Q :=
  {| msReady := Throw (ExternalError "ready");
     msSimplify := fun _ indices _ _ target _ _ => Ok (firstTriangles (wholePart target) indices, 0%Q);
     msSimplifyPoints := None;
     msCompactMesh := fun _ indices => Ok (compactQ indices) |}.

Definition simplifyThrows : MeshoptSimplifier Q :=
  {| msReady := Ok tt;
     msSimplify := fun _ _ _ _ _ _ _ => Throw (ExternalError "simplify");
     msSimplifyPoints := None;
     msCompactMesh := fun _ indices => Ok (compactQ indices) |}.

(** A triangle whose positions are stored as normalized unsigned 32-bit
    integers, a component type that [decodeNormalizedInt] does not
    decode. *)
Definition widePosition : Accessor Q :=
  {| accName := "position";
     accArray := Some (IntArray Q Uint32 [0; 0; 0; 1; 0; 0; 0; 1; 0]);
     accType := VEC3; accNormalized := true |}.

Definition triangleIndices : Accessor Q :=
  {| accName := "indices";
     accArray := Some (IntArray Q Uint16 [0; 1; 2]);
     accType := SCALAR; accNormalized := false |}.

Definition wideWorld : World Q :=
  {| document :=
       {| docAccessors := <[0%nat := widePosition]> (<[1%nat := triangleIndices]> ∅);
          docNextAccessor := 2;
          docPrimitives := {[ 0%nat := quadPrimitive ]};
          docMeshes := {[ 0%nat := {| meshName := "wide"; meshPrimitives := [0%nat] |} ]} |};
     useExperimentalFeatures := false; trace := [] |}.

(** The quad with a NORMAL attribute whose accessor was never given an
    array. *)
Definition emptyNormal : Accessor Q :=
  {| accName := "normal"; accArray := None; accType := VEC3; accNormalized := false |}.

Definition gapPrimitive : Primitive :=
  {| primMode := TRIANGLES; primIndices := Some 1%nat;
     primAttributes := [("POSITION", 0%nat); ("NORMAL", 2%nat)]; primTargets := [] |}.

Definition gapWorld : World Q :=
  {| document :=
       {| docAccessors :=
            <[0%nat := quadPosition]> (<[1%nat := quadIndices]>
              (<[2%nat := emptyNormal]> ∅));
          docNextAccessor := 3;
          docPrimitives := {[ 0%nat := gapPrimitive ]};
          docMeshes := {[ 0%nat := {| meshName := "gap"; meshPrimitives := [0%nat] |} ]} |};
     useExperimentalFeatures := false; trace := [] |}.

Definition simplifyTransformQ :=
  simplifyTransform Q toUint32Q dequantizeQ
    (fun _ => noPass) (fun _ => noPass) (fun _ => noPass).

(** What can be read off a primitive of a world. *)
Definition indexArrayOf (w : World Q) (p : PrimId) : option (TypedArray Q) :=
  match docPrimitives Q (document Q w) !! p with
  | Some prim =>
    match getIndices Q (document Q w) prim with
    | Some ia => accArray Q (snd ia)
    | None => None
    end
  | None => None
  end.

Definition vertexCountOf (w : World Q) (p : PrimId) : option Z :=
  match docPrimitives Q (document Q w) !! p with
  | Some prim =>
    (fun pa => getCount Q (snd pa)) <$> getAttribute Q (document Q w) prim "POSITION"
  | None => None
  end.

Definition afterWeldQ := afterWeld Q (fun _ => noPass).
Definition afterLoopQ := afterLoop Q toUint32Q dequantizeQ (fun _ => noPass).
Definition afterPruneQ :=
  afterPrune Q toUint32Q dequantizeQ (fun _ => noPass) (fun _ => noPass).
Definition afterDedupQ :=
  afterDedup Q toUint32Q dequantizeQ (fun _ => noPass) (fun _ => noPass)
             (fun _ => noPass).

Definition simplifyPrimitiveQ := simplifyPrimitive Q toUint32Q dequantizeQ.
Definition simplifyMeshesQ := simplifyMeshes Q toUint32Q dequantizeQ.
Definition runSimplifyQ :=
  runSimplify Q toUint32Q dequantizeQ (fun _ => noPass) (fun _ => noPass) (fun _ => noPass).

(** ** The concrete documents are well formed *)

Lemma quadDocument_fresh : freshOk Q quadDocument.
Proof.
  intros x [a Hx]. unfold quadDocument in *; simpl in *.
  apply lookup_insert_Some in Hx as [[<- _]|[_ Hx]]; [lia|].
  apply lookup_insert_Some in Hx as [[<- _]|[_ Hx]]; [lia|].
  by rewrite lookup_empty in Hx.
Qed.

Lemma quadDocument_singleParent : singleParent Q quadDocument.
Proof.
  intros m1 m2 mesh1 mesh2 q Hm1 Hm2 Hq1 Hq2. unfold quadDocument in *; simpl in *.
  apply lookup_insert_Some in Hm1 as [[<- <-]|[_ Hm1]];
    [|apply lookup_singleton_Some in Hm1 as [<- <-]];
    (apply lookup_insert_Some in Hm2 as [[<- <-]|[_ Hm2]];
       [|apply lookup_singleton_Some in Hm2 as [<- <-]]);
    try reflexivity; exfalso; cbn [meshPrimitives] in Hq1, Hq2;
    repeat (apply elem_of_cons in Hq1 as [->|Hq1]);
    try (by apply elem_of_nil in Hq1);
    repeat (apply elem_of_cons in Hq2 as [Hq2|Hq2]; [discriminate|]);
    by apply elem_of_nil in Hq2.
Qed.

(** ** Claim C1 at concrete inputs *)

(** C1, as stated, fails: a triangle primitive over 65535 vertices is
    reduced to one triangle over 3; the resulting vertex count is at most
    65534, yet the index array written back is the [Uint32Array]. *)
Lemma index_width_ignores_result_count :
  let r := simplifyPrimitiveQ 0%nat (optionsWith (Some firstOnes) (1 # 2)) largeWorld in
  fst r = Ok tt /\
  vertexCountOf largeWorld 0%nat = Some 65535 /\
  vertexCountOf (snd r) 0%nat = Some 3 /\
  indexArrayOf (snd r) 0%nat = Some (Uint32Array Q [0; 1; 2]) /\
  ~ (isUint16Array Q (Uint32Array Q [0; 1; 2]) = true <-> 3 <= 65534).
Proof.
  cbv zeta. split; [vm_compute; reflexivity|].
  split; [vm_compute; reflexivity|].
  split; [vm_compute; reflexivity|].
  split; [vm_compute; reflexivity|].
  intros [_ H]. assert (Hle : 3 <= 65534) by lia.
  apply H in Hle. vm_compute in Hle. discriminate.
Qed.

Lemma index_width_witness :
  docPrimitives Q (document Q quadWorld) !! 0%nat = Some quadPrimitive /\
  primMode quadPrimitive <> POINTS /\
  fst (simplifyPrimitiveQ 0%nat (optionsWith (Some firstOnes) (1 # 2)) quadWorld) = Ok tt /\
  exists position dst array,
    vertexCountOf quadWorld 0%nat = Some (getCount Q position) /\
    indexArrayOf
      (snd (simplifyPrimitiveQ 0%nat (optionsWith (Some firstOnes) (1 # 2)) quadWorld))
      0%nat = Some array /\
    (isUint16Array Q array = true <-> getCount Q position <= 65534) /\
    (Forall (fun i => 0 <= i < 65536) dst ->
     intContents Q toUint32Q array = dst).
Proof.
  assert (H1 : docPrimitives Q (document Q quadWorld) !! 0%nat = Some quadPrimitive)
    by (vm_compute; reflexivity).
  assert (H2 : primMode quadPrimitive <> POINTS) by discriminate.
  assert (H3 : fst (simplifyPrimitiveQ 0%nat (optionsWith (Some firstOnes) (1 # 2))
                      quadWorld) = Ok tt) by (vm_compute; reflexivity).
  split; [exact H1|]. split; [exact H2|]. split; [exact H3|].
  destruct (index_width_follows_source_vertex_count Q toUint32Q dequantizeQ quadWorld
              0%nat (optionsWith (Some firstOnes) (1 # 2)) quadPrimitive H1 H2 H3)
    as (pid & position & s & simplified & dst & remap & unique & prim' & dstId
        & dstIndices & Hpos & _ & _ & Hprim' & Hidx & array & Harray & Hnarrow & _
        & Hsame).
  exists position, dst, array.
  split.
  { unfold vertexCountOf. rewrite H1. by rewrite Hpos. }
  split.
  { unfold indexArrayOf, simplifyPrimitiveQ. rewrite Hprim'. by rewrite Hidx. }
  split; [exact Hnarrow | exact Hsame].
Defined.

(** ** Claims C2 and C3 at concrete inputs *)

(** C2 fails on the code: the toggle is off, [simplifyPoints] throws, and
    the toggle is on afterwards. *)
Lemma toggle_left_on_when_simplifyPoints_throws :
  let r := simplifyPrimitiveQ 0%nat (optionsWith (Some pointsThrow) (1 # 2)) cloudWorld in
  useExperimentalFeatures Q cloudWorld = false /\
  fst r = Throw (ExternalError "simplifyPoints") /\
  useExperimentalFeatures Q (snd r) = true.
Proof.
  cbv zeta. split; [reflexivity|].
  apply (simplifyPoints_throw_leaves_toggle Q toUint32Q dequantizeQ cloudWorld 0%nat
           (optionsWith (Some pointsThrow) (1 # 2)) cloudPrimitive 0%nat quadPosition
           [0; 0; 0; 1; 0; 0; 1; 1; 0; 0; 1; 0]%Q
           (Some (map inject_Z [255; 0; 0; 0; 255; 0; 0; 0; 255; 255; 255; 255]))
           (Some 1) pointsThrow
           (fun _ _ _ _ _ _ => Throw (ExternalError "simplifyPoints")));
    solve [vm_compute; reflexivity | intros; reflexivity].
Qed.

(** C3 fails on the code: the color array is of normalized unsigned
    bytes, and it reaches the decimator decoded as the POSITION accessor
    is stored, as floats that are not normalized: 255 stays 255. *)
Lemma color_dequantized_with_position_format :
  let r := simplifyPrimitiveQ 0%nat (optionsWith (Some firstOnes) (1 # 2)) cloudWorld in
  getComponentType Q cloudColor = UNSIGNED_BYTE /\
  getNormalized Q cloudColor = true /\
  getComponentType Q quadPosition = FLOAT /\
  getNormalized Q quadPosition = false /\
  (exists positions target colors rest,
     dequantizeQ (accArray Q cloudColor) FLOAT false = Ok colors /\
     trace Q (snd r) =
       EvSimplifyPoints Q true positions 3 target (Some colors) (Some 1) :: rest) /\
  dequantizeQ (accArray Q cloudColor) FLOAT false
    <> dequantizeQ (accArray Q cloudColor) UNSIGNED_BYTE true.
Proof.
  cbv zeta. repeat (split; [reflexivity|]). split.
  - assert (Hdeq :
      dequantizeQ
        (Some (IntArray Q Uint8 [255; 0; 0; 0; 255; 0; 0; 0; 255; 255; 255; 255]))
        (getComponentType Q quadPosition) (getNormalized Q quadPosition)
      = Ok (map inject_Z [255; 0; 0; 0; 255; 0; 0; 0; 255; 255; 255; 255]))
      by reflexivity.
    pose proof (simplifyPoints_color_arguments Q toUint32Q dequantizeQ cloudWorld 0%nat
                  (optionsWith (Some firstOnes) (1 # 2)) cloudPrimitive 0%nat 1%nat
                  quadPosition cloudColor
                  [0; 0; 0; 1; 0; 0; 1; 1; 0; 0; 1; 0]%Q
                  (IntArray Q Uint8 [255; 0; 0; 0; 255; 0; 0; 0; 255; 255; 255; 255])
                  firstOnes
                  (fun _ _ _ target _ _ =>
                     Ok (map Z.of_nat (seq 0 (Z.to_nat (wholePart target))))))
      as Hcolors.
    rewrite Hdeq in Hcolors.
    destruct Hcolors as [rest Hrest]; try (vm_compute; reflexivity).
    do 2 eexists.
    exists (map inject_Z [255; 0; 0; 0; 255; 0; 0; 0; 255; 255; 255; 255]), rest.
    split; [reflexivity | exact Hrest].
  - vm_compute. discriminate.
Qed.

(** ** Witnesses of the remaining claims *)

Lemma firstOnes_wholeTriangles : wholeTriangles Q firstOnes.
Proof.
  intros experimental idx pos stride target err flags r Hr.
  simpl in Hr. injection Hr as <-. cbn [fst].
  unfold firstTriangles. rewrite length_take.
  set (n := (Z.to_nat (wholePart target) `min` length idx)%nat).
  assert (Hn : (n `div` 3 * 3 <= n)%nat).
  { rewrite Nat.mul_comm. apply Nat.Div0.mul_div_le. }
  assert (Hlen : (n <= length idx)%nat) by apply Nat.le_min_r.
  rewrite Nat.min_l by (etrans; [exact Hn | exact Hlen]).
  split; [apply Nat.Div0.mod_mul | etrans; [exact Hn | exact Hlen]].
Qed.

Lemma compactLoop_length (indices : list Z) (table : list (Z * Z)) (next : Z) :
  length (fst (fst (compactLoop indices table next))) = length indices.
Proof.
  revert table next. induction indices as [|i rest IH]; intros table next; simpl; [done|].
  destruct (snd <$> find _ table) as [j|].
  - specialize (IH table next).
    destruct (compactLoop rest table next) as [[out t] n]; simpl in *. by rewrite IH.
  - specialize (IH ((i, next) :: table) (next + 1)).
    destruct (compactLoop rest _ _) as [[out t] n]; simpl in *. by rewrite IH.
Qed.

Lemma firstOnes_compactsInPlace : compactsInPlace Q firstOnes.
Proof.
  intros experimental idx out remap unique. simpl. unfold compactQ.
  pose proof (compactLoop_length idx [] 0) as Hlen.
  destruct (compactLoop idx [] 0) as [[o t] n]; simpl in *.
  by intros [= <- _ _].
Qed.

(** C4, as stated, fails: the ratio is not checked, and at ratio 2 the
    decimator is asked for 12 indices of a primitive that has 6. *)
Lemma target_exceeds_index_count :
  let r := simplifyPrimitiveQ 0%nat (optionsWith (Some firstOnes) 2) quadWorld in
  getIndices Q (document Q quadWorld) quadPrimitive = Some (1%nat, quadIndices) /\
  getCount Q quadIndices = 6 /\
  fst r = Ok tt /\
  (exists rest,
     trace Q (snd r)
     = EvSimplify Q [0; 1; 2; 0; 2; 3] [0; 0; 0; 1; 0; 0; 1; 1; 0; 0; 1; 0]%Q 3
         (Finite 12) (Some (literal (1 # 10000))) [] :: rest) /\
  6 < 12.
Proof.
  cbv zeta. split; [reflexivity|]. split; [reflexivity|].
  split; [by vm_compute|]. split; [|lia].
  eexists. vm_compute. reflexivity.
Qed.

Lemma target_index_count_witness :
  let r := simplifyPrimitiveQ 0%nat (optionsWith (Some firstOnes) (1 # 2)) quadWorld in
  docPrimitives Q (document Q quadWorld) !! 0%nat = Some quadPrimitive /\
  fst r = Ok tt /\
  (exists idx pos err flags compacted delta,
     trace Q (snd r) = [EvSimplify Q idx pos 3 (Finite 3) err flags;
                        EvCompactMesh Q compacted; EvDebug Q delta]) /\
  (exists prim' dstId dstIndices,
     docPrimitives Q (document Q (snd r)) !! 0%nat = Some prim' /\
     getIndices Q (document Q (snd r)) prim' = Some (dstId, dstIndices) /\
     getCount Q dstIndices mod 3 = 0 /\
     getCount Q dstIndices <= 6).
Proof.
  cbv zeta.
  assert (H1 : docPrimitives Q (document Q quadWorld) !! 0%nat = Some quadPrimitive)
    by (vm_compute; reflexivity).
  assert (H2 : primMode quadPrimitive <> POINTS) by discriminate.
  assert (H4 : fst (simplifyPrimitiveQ 0%nat (optionsWith (Some firstOnes) (1 # 2))
                      quadWorld) = Ok tt) by (vm_compute; reflexivity).
  split; [exact H1|]. split; [exact H4|].
  destruct (target_index_count_whole_triangles Q toUint32Q dequantizeQ quadWorld 0%nat
              (optionsWith (Some firstOnes) (1 # 2)) quadPrimitive H1 H2 H4)
    as (iid & srcIndices & s & idx & pos & err & flags & compacted & delta
        & Hidx & Hs & Htrace & Hbound & Hcount).
  assert (Hsrc : srcIndices = quadIndices).
  { vm_compute in Hidx. by injection Hidx as _ <-. }
  assert (Hdec : s = firstOnes).
  { vm_compute in Hs. by injection Hs as <-. }
  subst srcIndices s. split.
  - exists idx, pos, err, flags, compacted, delta.
    destruct (Hbound (1 # 2)%Q) as (t & Ht & Hmod & Hrange);
      [vm_compute; reflexivity | discriminate | discriminate | reflexivity |].
    unfold simplifyPrimitiveQ. rewrite Htrace.
    set (target := nmul _ _) in *.
    assert (Htarget : target = Finite 3) by (vm_compute; reflexivity).
    by rewrite Htarget.
  - apply Hcount;
      [apply firstOnes_wholeTriangles | apply firstOnes_compactsInPlace | reflexivity].
Defined.

Lemma copy_on_write_witness :
  let d' := document Q (snd (simplifyPrimitiveQ 0%nat (optionsWith (Some firstOnes) (1 # 2))
                               quadWorld)) in
  freshOk Q (document Q quadWorld) /\
  docPrimitives Q (document Q quadWorld) !! 1%nat = Some quadPrimitive /\
  docPrimitives Q d' !! 1%nat = Some quadPrimitive /\
  docAccessors Q d' !! 0%nat = Some quadPosition /\
  docAccessors Q d' !! 1%nat = Some quadIndices /\
  (exists sigma dstId a',
     docPrimitives Q d' !! 0%nat
       = Some (setIndices (Some dstId) (mapSlots sigma quadPrimitive)) /\
     docAccessors Q (document Q quadWorld) !! sigma 0%nat = None /\
     docAccessors Q (document Q quadWorld) !! dstId = None /\
     remapAttribute Q [0; 1; 2] 3 quadPosition = Ok a' /\
     accArray Q a' = Some (Float32Array Q [0; 0; 0; 1; 0; 0; 1; 1; 0]%Q) /\
     docAccessors Q d' !! sigma 0%nat = Some a' /\
     docAccessors Q d' !! dstId
       = Some (setArray Q (Uint16Array Q [0; 1; 2]) quadIndices)).
Proof.
  cbv zeta.
  assert (HB : docPrimitives Q (document Q quadWorld) !! 1%nat = Some quadPrimitive)
    by (vm_compute; reflexivity).
  assert (Hne : 0%nat <> 1%nat) by discriminate.
  split; [exact quadDocument_fresh|]. split; [exact HB|].
  destruct (simplifyPrimitive_copy_on_write Q toUint32Q dequantizeQ quadWorld 0%nat 1%nat
              (optionsWith (Some firstOnes) (1 # 2)) quadPrimitive
              quadDocument_fresh Hne HB) as (HB' & Hdata & _ & Hswap).
  split; [exact HB'|].
  split; [apply Hdata; vm_compute; reflexivity|].
  split; [apply Hdata; vm_compute; reflexivity|].
  destruct (Hswap quadPrimitive)
    as (iid & srcIndices & pid & position & positions & s & simplified & dst & remap
        & unique & sigma & dstId & Hidx & Hpos & Hfloats & Hs & Hsimp & Hcomp & HA'
        & Hfresh & Hdst & Hslots & _).
  - vm_compute; reflexivity.
  - discriminate.
  - intros x Hx. vm_compute in Hx. apply elem_of_cons in Hx as [->|Hx];
      [vm_compute; eauto | inversion Hx].
  - vm_compute; reflexivity.
  - assert (s = firstOnes) as -> by (vm_compute in Hs; by injection Hs as <-).
    assert (srcIndices = quadIndices) as ->
      by (vm_compute in Hidx; by injection Hidx as _ <-).
    assert (position = quadPosition) as ->
      by (vm_compute in Hpos; by injection Hpos as _ <-).
    vm_compute in Hsimp. injection Hsimp as <-.
    vm_compute in Hcomp. injection Hcomp as <- <- <-.
    destruct (Hslots 0%nat quadPosition) as (Hnew & a' & Hremap & Hacc).
    { vm_compute. apply elem_of_cons. by left. }
    { vm_compute; reflexivity. }
    exists sigma, dstId, a'.
    split; [exact HA'|]. split; [exact Hnew|]. split; [exact Hfresh|].
    split; [exact Hremap|]. split.
    { vm_compute in Hremap. by injection Hremap as <-. }
    split; [exact Hacc|]. exact Hdst.
Defined.

(** C6, as stated, fails: a triangle primitive listed by two meshes is
    simplified in the round of each. With ratio 1/2 the quad keeps one
    triangle in the first round and none in the second, where it is
    disposed; the mesh of the first round, checked before that, is left in
    the document with an empty list of primitives. *)
Lemma shared_primitive_leaves_empty_mesh :
  let r := runSimplifyQ (optionsWith (Some firstOnes) (1 # 2)) None sharedWorld in
  listPrimitives Q 0%nat (document Q sharedWorld) = [0%nat] /\
  listPrimitives Q 1%nat (document Q sharedWorld) = [0%nat] /\
  fst r = Ok tt /\
  docPrimitives Q (document Q (snd r)) !! 0%nat = None /\
  docMeshes Q (document Q (snd r)) !! 0%nat
    = Some {| meshName := "first"; meshPrimitives := [] |} /\
  docMeshes Q (document Q (snd r)) !! 1%nat = None.
Proof. cbv zeta. repeat split; vm_compute; reflexivity. Qed.

Lemma passKeeps_noPass (I : Document Q -> Prop) : passKeeps Q I noPass.
Proof. by intros d Hd. Qed.

Lemma degenerate_primitives_witness :
  let options := withDefaults Q (optionsWith (Some firstOnes) 0) in
  let run := simplifyTransformQ options firstOnes None quadWorld in
  freshOk Q (document Q quadWorld) /\
  singleParent Q (document Q quadWorld) /\
  fst run = Ok tt /\
  docPrimitives Q (document Q (snd run)) !! 0%nat = None /\
  docPrimitives Q (document Q (snd run)) !! 1%nat = None /\
  docPrimitives Q (document Q (snd run)) !! 3%nat = None /\
  listPrimitives Q 0%nat (document Q (snd run)) = [2%nat] /\
  docMeshes Q (document Q (snd run)) !! 1%nat = None /\
  (forall m mesh,
     docMeshes Q (document Q (snd run)) !! m = Some mesh ->
     meshPrimitives mesh <> [] /\
     forall p, p ∈ meshPrimitives mesh -> settled Q firstOnes (document Q (snd run)) p).
Proof.
  cbv zeta.
  split; [exact quadDocument_fresh|]. split; [exact quadDocument_singleParent|].
  assert (Hok : fst (simplifyTransformQ (withDefaults Q (optionsWith (Some firstOnes) 0))
                       firstOnes None quadWorld) = Ok tt) by (vm_compute; reflexivity).
  split; [exact Hok|].
  do 5 (split; [vm_compute; reflexivity|]).
  exact (proj2 (proj2 (degenerate_primitives_removed Q toUint32Q dequantizeQ
                         (fun _ => noPass) (fun _ => noPass) (fun _ => noPass)
                         (withDefaults Q (optionsWith (Some firstOnes) 0)) firstOnes None
                         quadWorld)
                  quadDocument_fresh quadDocument_singleParent Hok)
           (passKeeps_noPass _) (passKeeps_noPass _)).
Defined.

Lemma configuration_error_witness :
  optSimplifier Q (optionsWith None 0) = None /\
  (exists msg, fst (runSimplifyQ (optionsWith None 0) None quadWorld)
               = Throw (ConfigError msg)) /\
  snd (runSimplifyQ (optionsWith None 0) None quadWorld) = quadWorld.
Proof.
  split; [reflexivity|].
  exact (proj2 (simplify_requires_simplifier Q toUint32Q dequantizeQ
                  (fun _ => noPass) (fun _ => noPass) (fun _ => noPass)
                  (optionsWith None 0) None quadWorld eq_refl)).
Defined.


Lemma phase_order_witness :
  let options := withDefaults Q (optionsWith (Some firstOnes) 0) in
  let run := simplifyTransformQ options firstOnes None quadWorld in
  fst run = Ok tt /\
  isTransformPending None NAME "dedup" = false /\
  snd run = afterReport Q (afterDedupQ options firstOnes quadWorld) /\
  document Q (afterPruneQ options firstOnes quadWorld)
    = document Q (afterLoopQ options firstOnes quadWorld) /\
  afterLoopQ options firstOnes quadWorld
    = snd (simplifyMeshesQ options firstOnes (afterWeldQ quadWorld)) /\
  exists mid,
    Forall (primitiveEvent Q) mid /\
    trace Q (snd run)
      = [EvReady Q; EvWeld Q {| overwrite := false |}] ++ mid
        ++ [EvPrune Q pruneOptions; EvDedup Q dedupOptions; EvDebug Q Complete].
Proof.
  cbv zeta.
  assert (Hok : fst (simplifyTransformQ (withDefaults Q (optionsWith (Some firstOnes) 0))
                       firstOnes None quadWorld) = Ok tt) by (vm_compute; reflexivity).
  destruct (simplify_phase_order Q toUint32Q dequantizeQ
              (fun _ => noPass) (fun _ => noPass) (fun _ => noPass)
              (withDefaults Q (optionsWith (Some firstOnes) 0)) firstOnes None quadWorld)
    as (Hrun & (mid & Hmid & _ & _ & Htrace & _) & _).
  destruct (Hrun Hok) as (_ & _ & _ & _ & _ & Hend).
  split; [exact Hok|]. split; [reflexivity|]. split; [exact Hend|].
  split; [reflexivity|]. split; [reflexivity|].
  exists mid. split; [exact Hmid|]. exact (Htrace Hok).
Defined.

(** C10, as stated, fails: this primitive has both a POSITION attribute
    and an index accessor, and the decimator never throws; the positions
    are normalized unsigned 32-bit integers, and the call throws in
    [dequantizeAttributeArray] before the decimator is called. *)
Lemma dereferences_present_yet_throws :
  let r := simplifyPrimitiveQ 0%nat (optionsWith (Some firstOnes) (1 # 2)) wideWorld in
  docPrimitives Q (document Q wideWorld) !! 0%nat = Some quadPrimitive /\
  primMode quadPrimitive = TRIANGLES /\
  getIndices Q (document Q wideWorld) quadPrimitive = Some (1%nat, triangleIndices) /\
  getAttribute Q (document Q wideWorld) quadPrimitive "POSITION"
    = Some (0%nat, widePosition) /\
  r = (Throw (ExternalError "Invalid component type."), wideWorld).
Proof. cbv zeta. repeat split; vm_compute; reflexivity. Qed.

Lemma unchecked_dereference_witness :
  fst (simplifyPrimitiveQ 0%nat (optionsWith (Some firstOnes) (1 # 2)) quadWorld) = Ok tt /\
  simplifyPrimitiveQ 0%nat (optionsWith (Some firstOnes) (1 # 2)) (unindexedWorld Q)
    = (Throw (TypeError "srcIndices.getCount"), unindexedWorld Q).
Proof.
  split; [vm_compute; reflexivity|].
  exact (proj2 (proj2 (proj2 (simplifyPrimitive_dereferences_unchecked Q toUint32Q
                                dequantizeQ))
                 (optionsWith (Some firstOnes) (1 # 2)))).
Defined.

(** The guard of the dedup pass on three contexts. *)
Example dedup_pending_after_simplify :
  isTransformPending (Some {| stack := ["weld"; "simplify"; "dedup"] |}) NAME "dedup" = true
  /\ isTransformPending (Some {| stack := ["dedup"; "simplify"] |}) NAME "dedup" = false
  /\ isTransformPending (Some {| stack := ["simplify"] |}) NAME "dedup" = false.
Proof. repeat split. Qed.

(** A cloud of points is skipped, with a warning, by a decimator that has
    no [simplifyPoints]. *)
Example points_skipped_without_simplifyPoints :
  simplifyMeshesQ (withDefaults Q (optionsWith (Some trianglesOnly) (1 # 2)))
    trianglesOnly cloudWorld
  = (Ok tt,
     {| document := cloudDocument; useExperimentalFeatures := false;
        trace := [EvWarn Q (SkippingPrimitive "cloud")] |}).
Proof. vm_compute. reflexivity. Qed.

(** ** The further properties at concrete inputs *)

Lemma quadDocument_listedOnce : listedOnce Q quadDocument.
Proof.
  intros m mesh Hm. unfold quadDocument in Hm; cbn [docMeshes] in Hm.
  apply lookup_insert_Some in Hm as [[_ <-]|[_ Hm]];
    [|apply lookup_singleton_Some in Hm as [_ <-]];
    cbn [meshPrimitives];
    repeat (apply NoDup_cons_2;
            [rewrite ?not_elem_of_cons; repeat split; try lia; apply not_elem_of_nil|]);
    apply NoDup_nil_2.
Qed.

Lemma quadDocument_ready (m : nat) : meshReady Q dequantizeQ firstOnes m quadDocument.
Proof.
  intros mesh p Hm Hp. unfold quadDocument in Hm; cbn [docMeshes] in Hm.
  assert (Htri : forall q, docPrimitives Q quadDocument !! q = Some quadPrimitive ->
            roundReady Q dequantizeQ firstOnes quadDocument q).
  { intros q Hq. exists quadPrimitive. split; [exact Hq|]. right.
    split; [reflexivity|]. split; [eexists; vm_compute; reflexivity|]. split.
    - exists 0%nat, quadPosition. eexists. split; vm_compute; reflexivity.
    - intros x Hx. vm_compute in Hx.
      apply elem_of_cons in Hx as [->|Hx]; [|inversion Hx].
      exists quadPosition. split; [vm_compute; reflexivity | by eexists]. }
  apply lookup_insert_Some in Hm as [[_ <-]|[_ Hm]];
    [|apply lookup_singleton_Some in Hm as [_ <-]];
    cbn [meshPrimitives] in Hp;
    repeat (apply elem_of_cons in Hp as [->|Hp]);
    try (by apply elem_of_nil in Hp);
    try (apply Htri; vm_compute; reflexivity).
  exists linesPrimitive. split; [vm_compute; reflexivity|].
  left. split; [discriminate | left; discriminate].
Qed.

Lemma firstOnes_neverThrows : neverThrows Q firstOnes.
Proof. split; intros; eexists; reflexivity. Qed.

Lemma triangle_failure_witness :
  docPrimitives Q (document Q quadWorld) !! 0%nat = Some quadPrimitive /\
  fst (simplifyPrimitiveQ 0%nat (optionsWith (Some simplifyThrows) (1 # 2)) quadWorld)
    = Throw (ExternalError "simplify") /\
  document Q (snd (simplifyPrimitiveQ 0%nat (optionsWith (Some simplifyThrows) (1 # 2))
                     quadWorld)) = quadDocument.
Proof.
  assert (H1 : docPrimitives Q (document Q quadWorld) !! 0%nat = Some quadPrimitive)
    by (vm_compute; reflexivity).
  assert (H2 : primMode quadPrimitive <> POINTS) by discriminate.
  assert (H3 : fst (simplifyPrimitiveQ 0%nat (optionsWith (Some simplifyThrows) (1 # 2))
                      quadWorld) = Throw (ExternalError "simplify"))
    by (vm_compute; reflexivity).
  split; [exact H1|]. split; [exact H3|].
  destruct (triangle_failure_leaves_document Q toUint32Q dequantizeQ quadWorld 0%nat
              (optionsWith (Some simplifyThrows) (1 # 2)) quadPrimitive
              (ExternalError "simplify") H1 H2 H3) as [Hsame|[Hslice _]];
    [exact Hsame | discriminate].
Defined.

(** Without the arrays the document is not left as it was: the NORMAL
    accessor of this primitive has none, [remapAttribute] throws in its
    round, and by then the round of POSITION has swapped the slot to a
    compacted copy and disposed the source; the clone made for NORMAL
    stays in the document. *)
Example remap_failure_leaves_partial_write :
  let r := simplifyPrimitiveQ 0%nat (optionsWith (Some firstOnes) (1 # 2)) gapWorld in
  docPrimitives Q (document Q gapWorld) !! 0%nat = Some gapPrimitive /\
  fst r = Throw (TypeError "srcArray.slice") /\
  docPrimitives Q (document Q (snd r)) !! 0%nat
    = Some {| primMode := TRIANGLES; primIndices := Some 1%nat;
              primAttributes := [("POSITION", 3%nat); ("NORMAL", 2%nat)];
              primTargets := [] |} /\
  docAccessors Q (document Q (snd r)) !! 0%nat = None /\
  docAccessors Q (document Q (snd r)) !! 4%nat = Some emptyNormal.
Proof. cbv zeta. repeat split; vm_compute; reflexivity. Qed.

Lemma triangle_toggle_witness :
  docPrimitives Q (document Q quadWorldOn) !! 0%nat = Some quadPrimitive /\
  fst (simplifyPrimitiveQ 0%nat (optionsWith (Some firstOnes) (1 # 2)) quadWorldOn)
    = Ok tt /\
  useExperimentalFeatures Q
    (snd (simplifyPrimitiveQ 0%nat (optionsWith (Some firstOnes) (1 # 2)) quadWorldOn))
    = true.
Proof.
  assert (H1 : docPrimitives Q (document Q quadWorldOn) !! 0%nat = Some quadPrimitive)
    by (vm_compute; reflexivity).
  assert (H2 : primMode quadPrimitive <> POINTS) by discriminate.
  split; [exact H1|]. split; [vm_compute; reflexivity|].
  exact (triangle_path_keeps_toggle Q toUint32Q dequantizeQ quadWorldOn 0%nat
           (optionsWith (Some firstOnes) (1 # 2)) quadPrimitive H1 H2).
Defined.

Lemma points_toggle_witness :
  docPrimitives Q (document Q cloudWorldOn) !! 0%nat = Some cloudPrimitive /\
  useExperimentalFeatures Q cloudWorldOn = true /\
  fst (simplifyPrimitiveQ 0%nat (optionsWith (Some firstOnes) (1 # 2)) cloudWorldOn)
    = Ok tt /\
  useExperimentalFeatures Q
    (snd (simplifyPrimitiveQ 0%nat (optionsWith (Some firstOnes) (1 # 2)) cloudWorldOn))
    = false.
Proof.
  assert (H1 : docPrimitives Q (document Q cloudWorldOn) !! 0%nat = Some cloudPrimitive)
    by (vm_compute; reflexivity).
  assert (H3 : fst (simplifyPrimitiveQ 0%nat (optionsWith (Some firstOnes) (1 # 2))
                      cloudWorldOn) = Ok tt) by (vm_compute; reflexivity).
  split; [exact H1|]. split; [reflexivity|]. split; [exact H3|].
  exact (proj1 (points_success_clears_toggle Q toUint32Q dequantizeQ cloudWorldOn 0%nat
                  (optionsWith (Some firstOnes) (1 # 2)) cloudPrimitive
                  H1 eq_refl H3)).
Defined.

Lemma points_without_entry_point_witness :
  msSimplifyPoints Q trianglesOnly = None /\
  simplifyPrimitiveQ 0%nat (optionsWith (Some trianglesOnly) (1 # 2)) cloudWorld
  = (Throw (TypeError "simplifier.simplifyPoints"),
     {| document := cloudDocument; useExperimentalFeatures := true; trace := [] |}).
Proof.
  split; [reflexivity|].
  apply (points_without_entry_point Q toUint32Q dequantizeQ cloudWorld 0%nat
           (optionsWith (Some trianglesOnly) (1 # 2)) cloudPrimitive 0%nat quadPosition
           [0; 0; 0; 1; 0; 0; 1; 1; 0; 0; 1; 0]%Q
           (Some (map inject_Z [255; 0; 0; 0; 255; 0; 0; 0; 255; 255; 255; 255]))
           (Some 1) trianglesOnly); vm_compute; reflexivity.
Defined.

Lemma points_without_position_witness :
  getAttribute Q (document Q bareWorld) barePoints "POSITION" = None /\
  simplifyPrimitiveQ 0%nat (optionsWith (Some firstOnes) (1 # 2)) bareWorld
  = (Throw (TypeError "position.getCount"), bareWorld).
Proof.
  split; [reflexivity|].
  apply (points_without_position Q toUint32Q dequantizeQ bareWorld 0%nat
           (optionsWith (Some firstOnes) (1 # 2)) barePoints); vm_compute; reflexivity.
Defined.

Lemma without_simplifier_witness :
  fst (simplifyPrimitiveQ 0%nat (optionsWith None (1 # 2)) quadWorld)
    = Throw (TypeError "simplifier.simplify") /\
  fst (simplifyPrimitiveQ 0%nat (optionsWith None (1 # 2)) cloudWorld)
    = Throw (TypeError "simplifier.useExperimentalFeatures") /\
  fst (simplifyPrimitiveQ 0%nat (optionsWith None (1 # 2)) wideWorld)
    = Throw (ExternalError "Invalid component type.") /\
  trace Q (snd (simplifyPrimitiveQ 0%nat (optionsWith None (1 # 2)) quadWorld)) = [].
Proof.
  assert (H1 : docPrimitives Q (document Q quadWorld) !! 0%nat = Some quadPrimitive)
    by (vm_compute; reflexivity).
  assert (H2 : docPrimitives Q (document Q cloudWorld) !! 0%nat = Some cloudPrimitive)
    by (vm_compute; reflexivity).
  assert (H3 : docPrimitives Q (document Q wideWorld) !! 0%nat = Some quadPrimitive)
    by (vm_compute; reflexivity).
  destruct (simplifyPrimitive_without_simplifier Q toUint32Q dequantizeQ quadWorld 0%nat
              (optionsWith None (1 # 2)) quadPrimitive H1 eq_refl)
    as (e1 & He1 & _ & Ht1).
  destruct (simplifyPrimitive_without_simplifier Q toUint32Q dequantizeQ cloudWorld 0%nat
              (optionsWith None (1 # 2)) cloudPrimitive H2 eq_refl)
    as (e2 & He2 & _ & _).
  destruct (simplifyPrimitive_without_simplifier Q toUint32Q dequantizeQ wideWorld 0%nat
              (optionsWith None (1 # 2)) quadPrimitive H3 eq_refl)
    as (e3 & He3 & _ & _).
  unfold simplifyPrimitiveQ.
  split; [rewrite He1; vm_compute in He1; by injection He1 as <-|].
  split; [rewrite He2; vm_compute in He2; by injection He2 as <-|].
  split; [rewrite He3; vm_compute in He3; by injection He3 as <-|].
  exact Ht1.
Defined.

Lemma points_target_witness :
  exists rest,
    trace Q (snd (simplifyPrimitiveQ 0%nat (optionsWith (Some firstOnes) (1 # 2))
                    cloudWorld))
    = EvSimplifyPoints Q true [0; 0; 0; 1; 0; 0; 1; 1; 0; 0; 1; 0]%Q 3 (Finite 2)
        (Some (map inject_Z [255; 0; 0; 0; 255; 0; 0; 0; 255; 255; 255; 255]))
        (Some 1) :: rest.
Proof.
  destruct (points_target_vertex_count Q toUint32Q dequantizeQ cloudWorld 0%nat
              (optionsWith (Some firstOnes) (1 # 2)) cloudPrimitive 0%nat quadPosition
              [0; 0; 0; 1; 0; 0; 1; 1; 0; 0; 1; 0]%Q
              (Some (map inject_Z [255; 0; 0; 0; 255; 0; 0; 0; 255; 255; 255; 255]))
              (Some 1) firstOnes
              (fun _ _ _ target _ _ =>
                 Ok (map Z.of_nat (seq 0 (Z.to_nat (wholePart target))))))
    as [[rest Hrest] _]; try (vm_compute; reflexivity).
  exists rest. unfold simplifyPrimitiveQ. rewrite Hrest.
  set (target := nfloor _).
  assert (Htarget : target = Finite 2) by (vm_compute; reflexivity).
  by rewrite Htarget.
Defined.

Lemma simplify_call_witness :
  exists rest,
    trace Q (snd (simplifyPrimitiveQ 0%nat (optionsWith (Some firstOnes) (1 # 2))
                    quadWorld))
    = EvSimplify Q [0; 1; 2; 0; 2; 3] [0; 0; 0; 1; 0; 0; 1; 1; 0; 0; 1; 0]%Q 3
        (Finite 3) (Some (roundDouble (1 # 10000))) [] :: rest.
Proof.
  destruct (simplify_call_arguments Q toUint32Q dequantizeQ quadWorld 0%nat
              (optionsWith (Some firstOnes) (1 # 2)) quadPrimitive 1%nat 0%nat
              quadIndices quadPosition [0; 0; 0; 1; 0; 0; 1; 1; 0; 0; 1; 0]%Q firstOnes)
    as [[rest Hrest] _];
    try (vm_compute; reflexivity); [discriminate|].
  exists rest. unfold simplifyPrimitiveQ. rewrite Hrest.
  set (target := nmul _ _).
  assert (Htarget : target = Finite 3) by (vm_compute; reflexivity).
  by rewrite Htarget.
Defined.

Lemma target_ratio_witness :
  targetIndexCount (Some (Finite 0)) 6 = Finite 0 /\
  targetIndexCount (Some (Finite 1)) 6 = Finite 6 /\
  targetIndexCount None 6 = NaN /\
  targetIndexCount (Some PosInfinity) 6 = PosInfinity.
Proof.
  destruct (target_index_count_follows_ratio Q 6)
    as (H0 & _ & H1 & _ & Hnone & _ & _ & Hinf & _); [lia|].
  split; [exact H0|]. split; [by apply H1|]. split; [exact Hnone|].
  apply Hinf. lia.
Defined.

Lemma index_widening_witness :
  indexUint32 Q toUint32Q quadIndices = [0; 1; 2; 0; 2; 3].
Proof.
  apply (index_widening_lossless Q toUint32Q quadIndices Uint16); [reflexivity|].
  repeat (apply Forall_cons_2; [lia|]). apply Forall_nil_2.
Defined.

Lemma triangle_round_witness :
  docPrimitives Q (document Q quadWorld) !! 0%nat = Some quadPrimitive /\
  fst (simplifyMeshPrimitive Q toUint32Q dequantizeQ
         (withDefaults Q (optionsWith (Some simplifyThrows) (1 # 2))) simplifyThrows
         0%nat 0%nat quadWorld)
  = Throw (ExternalError "simplify").
Proof.
  assert (H1 : docPrimitives Q (document Q quadWorld) !! 0%nat = Some quadPrimitive)
    by (vm_compute; reflexivity).
  split; [exact H1|].
  destruct (triangle_round_fails_with_simplifyPrimitive Q toUint32Q dequantizeQ
              (withDefaults Q (optionsWith (Some simplifyThrows) (1 # 2))) simplifyThrows
              0%nat 0%nat quadWorld quadPrimitive H1 eq_refl) as [Hok|(e & He & Hrun)].
  - vm_compute in Hok. discriminate.
  - rewrite Hrun. vm_compute. reflexivity.
Defined.

Lemma empty_mesh_witness :
  fst (simplifyMesh Q toUint32Q dequantizeQ
         (withDefaults Q (optionsWith (Some firstOnes) (1 # 2))) firstOnes 0%nat
         hollowWorld) = Ok tt /\
  docMeshes Q (document Q (snd (simplifyMesh Q toUint32Q dequantizeQ
         (withDefaults Q (optionsWith (Some firstOnes) (1 # 2))) firstOnes 0%nat
         hollowWorld))) !! 0%nat = None.
Proof.
  destruct (empty_mesh_disposed Q toUint32Q dequantizeQ
              (withDefaults Q (optionsWith (Some firstOnes) (1 # 2))) firstOnes 0%nat
              {| meshName := "hollow"; meshPrimitives := [] |} hollowWorld)
    as (Hrun & Hgone & _); [vm_compute; reflexivity | reflexivity |].
  rewrite Hrun. split; [reflexivity | exact Hgone].
Defined.

Lemma first_failure_witness :
  simplifyTransformQ (withDefaults Q (optionsWith (Some notReady) 0)) notReady None
    quadWorld
  = (Throw (ExternalError "ready"),
     {| document := quadDocument; useExperimentalFeatures := false;
        trace := [EvReady Q] |}) /\
  fst (simplifyTransformQ (withDefaults Q (optionsWith (Some simplifyThrows) 0))
         simplifyThrows None quadWorld)
  = Throw (ExternalError "simplify").
Proof.
  split.
  - exact (proj1 (transform_stops_at_first_failure Q toUint32Q dequantizeQ
                    (fun _ => noPass) (fun _ => noPass) (fun _ => noPass)
                    (withDefaults Q (optionsWith (Some notReady) 0)) notReady None
                    quadWorld (ExternalError "ready")) eq_refl).
  - unfold simplifyTransformQ.
    rewrite (proj1 (proj2 (proj2 (transform_stops_at_first_failure Q toUint32Q
                    dequantizeQ (fun _ => noPass) (fun _ => noPass) (fun _ => noPass)
                    (withDefaults Q (optionsWith (Some simplifyThrows) 0))
                    simplifyThrows None quadWorld (ExternalError "simplify"))))
               eq_refl eq_refl); [reflexivity|].
    vm_compute. reflexivity.
Defined.

Lemma loop_toggle_witness :
  useExperimentalFeatures Q
    (snd (simplifyMeshesQ (withDefaults Q (optionsWith (Some firstOnes) (1 # 2)))
            firstOnes quadWorldOn)) = true.
Proof.
  apply (loop_keeps_toggle_without_points Q toUint32Q dequantizeQ
           (withDefaults Q (optionsWith (Some firstOnes) (1 # 2))) firstOnes quadWorldOn).
  intros p prim Hp. left. unfold quadWorldOn, quadDocument in Hp.
  cbn [document docPrimitives] in Hp.
  repeat (apply lookup_insert_Some in Hp as [[_ <-]|[_ Hp]]; [discriminate|]).
  by rewrite lookup_empty in Hp.
Defined.

Lemma loop_completes_witness :
  neverThrows Q firstOnes /\
  fst (simplifyMeshesQ (withDefaults Q (optionsWith (Some firstOnes) (1 # 2)))
         firstOnes quadWorld) = Ok tt.
Proof.
  split; [exact firstOnes_neverThrows|].
  exact (loop_completes Q toUint32Q dequantizeQ
           (withDefaults Q (optionsWith (Some firstOnes) (1 # 2))) firstOnes quadWorld
           eq_refl firstOnes_neverThrows quadDocument_fresh quadDocument_singleParent
           quadDocument_listedOnce quadDocument_ready).
Defined.

Lemma transform_composes_witness :
  fst (simplifyTransformQ (withDefaults Q (optionsWith (Some firstOnes) 0)) firstOnes
         None quadWorld) = Ok tt /\
  document Q (snd (simplifyTransformQ (withDefaults Q (optionsWith (Some firstOnes) 0))
                     firstOnes None quadWorld))
  = document Q (snd (simplifyMeshesQ (withDefaults Q (optionsWith (Some firstOnes) 0))
                       firstOnes
                       {| document := quadDocument; useExperimentalFeatures := false;
                          trace := [EvReady Q; EvWeld Q {| overwrite := false |}] |})).
Proof.
  assert (Hok : fst (simplifyTransformQ (withDefaults Q (optionsWith (Some firstOnes) 0))
                       firstOnes None quadWorld) = Ok tt) by (vm_compute; reflexivity).
  split; [exact Hok|].
  exact (proj1 (transform_composes_passes Q toUint32Q dequantizeQ
                  (fun _ => noPass) (fun _ => noPass) (fun _ => noPass)
                  (withDefaults Q (optionsWith (Some firstOnes) 0)) firstOnes None
                  quadWorld Hok)).
Defined.
